(** * MemoryKit landing page: a shallow embedding of its JavaScript modules

    The development follows the source tree:
    - [Js]         the host string primitives the modules call
                   ([trim], [split], [parseInt], [toLowerCase], [RegExp.test]);
    - [Waitlist]   [isValidEmail] and the submit handler of [initWaitlistForm];
    - [ObjParser]  the mesh-parser worker ([self.onmessage]);
    - [Geometry]   [decimateForPoints];
    - [Scroll], [Scroll64]  the intensity computed by [initScrollEffects],
                   over the rationals and in binary64;
    - [Scene], [Scan]  the pathway animation and the scan state machine of
                   [initBrainScene]'s [render];
    - [Curve], [Merge], [Throttle], [Reinforce]  the pathway curves, the
                   merge of geometries, the frame-scheduled scroll handler
                   and the rotating phrases.

    Strings are sequences of 8-bit code units (the Latin-1 range of a
    JavaScript string).  JavaScript numbers are binary64 floats, the
    kernel's [float], in the mesh parser, in the scroll intensity and in the
    scan; integers ([Z]) where the code indexes with them; rationals ([Q])
    for the bounds of the scroll styles and for the pathway curves; and
    reals ([R]) for the pathway animation, whose fade uses [Math.sin].

    The tree holds several revisions of the form controller, of the scene
    and of [decimateForPoints]; each revision is modelled under a name of
    its own.  Definitions come first, module by module; the properties
    follow in the modules named [...Facts]. *)

From Stdlib Require Import Bool List Arith ZArith Lia String Ascii.
From Stdlib Require Import PrimFloat Uint63.
From Stdlib Require Import QArith Qabs Qminmax.
From Stdlib Require Import Reals Psatz.
From Stdlib Require Import Floats.
Import ListNotations.

Set Implicit Arguments.

(* ================================================================= *)
(** * Host primitives *)

Module Js.

Local Open Scope string_scope.

Definition code (c : ascii) : nat := nat_of_ascii c.

(** [\s] of a regular expression, and the characters [trim] strips:
    WhiteSpace and LineTerminator code units below 256. *)
Definition isWhiteSpace (c : ascii) : bool :=
  let n := code c in
  ((n =? 9) || (n =? 10) || (n =? 11) || (n =? 12) || (n =? 13)
   || (n =? 32) || (n =? 160))%nat.

Definition isEmpty (s : string) : bool :=
  match s with EmptyString => true | _ => false end.

Fixpoint trimStart (s : string) : string :=
  match s with
  | EmptyString => EmptyString
  | String c rest => if isWhiteSpace c then trimStart rest else s
  end.

Fixpoint trimEnd (s : string) : string :=
  match s with
  | EmptyString => EmptyString
  | String c rest =>
      let r := trimEnd rest in
      if isWhiteSpace c && isEmpty r then EmptyString else String c r
  end.

(** [String.prototype.trim] *)
Definition trim (s : string) : string := trimEnd (trimStart s).

(** [String.prototype.startsWith] *)
Definition startsWith (s p : string) : bool := String.prefix p s.

Definition snoc (s : string) (c : ascii) : string := s ++ String c EmptyString.

Definition LF : ascii := ascii_of_nat 10.
Definition CR : ascii := ascii_of_nat 13.

(** [text.split(/\r?\n/)]: a line feed, or a carriage return followed by a
    line feed, separates two lines; a lone carriage return does not. *)
Fixpoint splitLinesFrom (cur s : string) : list string :=
  match s with
  | EmptyString => [cur]
  | String c rest =>
      if Ascii.eqb c LF then cur :: splitLinesFrom EmptyString rest
      else if Ascii.eqb c CR then
        match rest with
        | String c2 rest2 =>
            if Ascii.eqb c2 LF then cur :: splitLinesFrom EmptyString rest2
            else splitLinesFrom (snoc cur c) rest
        | EmptyString => [snoc cur c]
        end
      else splitLinesFrom (snoc cur c) rest
  end.

Definition splitLines (s : string) : list string := splitLinesFrom EmptyString s.

(** [str.split(/\s+/)]: every maximal run of white space is one separator.
    [inSep] tells that the previous character belonged to a separator. *)
Fixpoint splitWsFrom (inSep : bool) (cur s : string) : list string :=
  match s with
  | EmptyString => [cur]
  | String c rest =>
      if isWhiteSpace c then
        if inSep then splitWsFrom true cur rest
        else cur :: splitWsFrom true EmptyString rest
      else splitWsFrom false (snoc cur c) rest
  end.

Definition splitWs (s : string) : list string := splitWsFrom false EmptyString s.

(** [str.split(sep)] for a one-character separator. *)
Fixpoint splitCharFrom (sep : ascii) (cur s : string) : list string :=
  match s with
  | EmptyString => [cur]
  | String c rest =>
      if Ascii.eqb c sep then cur :: splitCharFrom sep EmptyString rest
      else splitCharFrom sep (snoc cur c) rest
  end.

Definition splitChar (sep : ascii) (s : string) : list string :=
  splitCharFrom sep EmptyString s.

Definition isDigit (c : ascii) : bool :=
  ((48 <=? code c) && (code c <=? 57))%nat.

Definition digitValue (c : ascii) : Z := Z.of_nat (code c - 48).

(** The longest prefix of decimal digits, read as a number; [seen] tells
    whether a digit was consumed. *)
Fixpoint readDigits (acc : Z) (seen : bool) (s : string) : option Z :=
  match s with
  | String c rest =>
      if isDigit c then readDigits (10 * acc + digitValue c) true rest
      else if seen then Some acc else None
  | EmptyString => if seen then Some acc else None
  end.

(** [parseInt(str, 10)]; [None] is NaN.  Leading white space is skipped, one
    sign is accepted, and parsing stops at the first character that is not a
    digit.  The result is the exact integer, as it is in JavaScript for
    every index below 2^53. *)
Definition parseInt (str : string) : option Z :=
  match trimStart str with
  | String c rest =>
      if Ascii.eqb c "-" then option_map Z.opp (readDigits 0 false rest)
      else if Ascii.eqb c "+" then readDigits 0 false rest
      else readDigits 0 false (String c rest)
  | EmptyString => None
  end.

(** [String.prototype.toLowerCase] on code units below 256: A-Z, and the
    Latin-1 capitals except the multiplication sign. *)
Definition lowerChar (c : ascii) : ascii :=
  let n := code c in
  if (((65 <=? n) && (n <=? 90))
      || ((192 <=? n) && (n <=? 222) && negb (n =? 215)))%nat
  then ascii_of_nat (n + 32) else c.

Fixpoint toLowerCase (s : string) : string :=
  match s with
  | EmptyString => EmptyString
  | String c rest => String (lowerChar c) (toLowerCase rest)
  end.

(** ** Regular expressions

    The fragment the page uses: character classes, concatenation and
    repetition.  [test] is [RegExp.prototype.test] for a pattern anchored
    with [^] and [$] and no flags, decided with derivatives. *)
Inductive regex : Type :=
| Void : regex
| Eps : regex
| Class : (ascii -> bool) -> regex
| Cat : regex -> regex -> regex
| Alt : regex -> regex -> regex
| Star : regex -> regex.

Definition Plus (r : regex) : regex := Cat r (Star r).

Fixpoint nullable (r : regex) : bool :=
  match r with
  | Void => false
  | Eps => true
  | Class _ => false
  | Cat r1 r2 => nullable r1 && nullable r2
  | Alt r1 r2 => nullable r1 || nullable r2
  | Star _ => true
  end.

Fixpoint deriv (c : ascii) (r : regex) : regex :=
  match r with
  | Void => Void
  | Eps => Void
  | Class p => if p c then Eps else Void
  | Cat r1 r2 =>
      if nullable r1 then Alt (Cat (deriv c r1) r2) (deriv c r2)
      else Cat (deriv c r1) r2
  | Alt r1 r2 => Alt (deriv c r1) (deriv c r2)
  | Star r1 => Cat (deriv c r1) (Star r1)
  end.

Fixpoint test (r : regex) (s : string) : bool :=
  match s with
  | EmptyString => nullable r
  | String c rest => test (deriv c r) rest
  end.

(** What it means for a string to belong to the language of a pattern. *)
Inductive matches : regex -> string -> Prop :=
| m_eps : matches Eps EmptyString
| m_class p c : p c = true -> matches (Class p) (String c EmptyString)
| m_cat r1 r2 s1 s2 : matches r1 s1 -> matches r2 s2 -> matches (Cat r1 r2) (s1 ++ s2)
| m_alt_l r1 r2 s : matches r1 s -> matches (Alt r1 r2) s
| m_alt_r r1 r2 s : matches r2 s -> matches (Alt r1 r2) s
| m_star_nil r : matches (Star r) EmptyString
| m_star_cons r s1 s2 : matches r s1 -> matches (Star r) s2 -> matches (Star r) (s1 ++ s2).

End Js.

(* ================================================================= *)
(** * Waitlist form controller (src/js/waitlistForm.js) *)

Module Waitlist.

Import Js.
Local Open Scope string_scope.

(** [[^\s@]] *)
Definition notSpaceNorAt (c : ascii) : bool :=
  negb (isWhiteSpace c || Ascii.eqb c "@").

Definition isChar (a c : ascii) : bool := Ascii.eqb c a.

(** [/^[^\s@]+@[^\s@]+\.[^\s@]+$/] *)
Definition emailPattern : regex :=
  Cat (Plus (Class notSpaceNorAt))
    (Cat (Class (isChar "@"))
      (Cat (Plus (Class notSpaceNorAt))
        (Cat (Class (isChar "."))
          (Plus (Class notSpaceNorAt))))).

(** [isValidEmail] of waitlistForm.js: the value is lowered and trimmed. *)
Definition isValidEmail (value : string) : bool :=
  test emailPattern (trim (toLowerCase value)).

(** [isValidEmail] of the client-only revision: lowered, not trimmed. *)
Definition isValidEmail_local (value : string) : bool :=
  test emailPattern (toLowerCase value).

(** ** The submit handler

    The document as the handler sees it: the message element, the email
    input, and the optional row and note elements. *)
Record element : Type := {
  textContent : string;
  classList : list string;
  display : string
}.

Record input : Type := {
  value : string;
  defaultValue : string;
  inputClasses : list string
}.

Record dom : Type := {
  messageElement : element;
  emailInput : input;
  formRow : option element;
  noteElement : option element
}.

(** What the handler did to the event, and the timers it started. *)
Record outcome : Type := {
  page : dom;
  defaultPrevented : bool;
  propagationStopped : bool;
  timers : list (nat * (dom -> dom))
}.

(** [classList.contains], [classList.add], [classList.remove] *)
Definition contains (c : string) (l : list string) : bool :=
  existsb (String.eqb c) l.

Definition add (c : string) (l : list string) : list string :=
  if contains c l then l else l ++ [c].

Definition remove (c : string) (l : list string) : list string :=
  filter (fun x => negb (String.eqb c x)) l.

Definition setText (t : string) (e : element) : element :=
  {| textContent := t; classList := classList e; display := display e |}.

Definition setClasses (f : list string -> list string) (e : element) : element :=
  {| textContent := textContent e; classList := f (classList e); display := display e |}.

Definition setDisplay (d : string) (e : element) : element :=
  {| textContent := textContent e; classList := classList e; display := d |}.

Definition onMessage (f : element -> element) (d : dom) : dom :=
  {| messageElement := f (messageElement d); emailInput := emailInput d;
     formRow := formRow d; noteElement := noteElement d |}.

Definition onInputClasses (f : list string -> list string) (d : dom) : dom :=
  {| messageElement := messageElement d;
     emailInput := {| value := value (emailInput d);
                      defaultValue := defaultValue (emailInput d);
                      inputClasses := f (inputClasses (emailInput d)) |};
     formRow := formRow d; noteElement := noteElement d |}.

(** [if (formRow) formRow.style.display = d; if (noteElement) ...] *)
Definition setRows (disp : string) (d : dom) : dom :=
  {| messageElement := messageElement d; emailInput := emailInput d;
     formRow := option_map (setDisplay disp) (formRow d);
     noteElement := option_map (setDisplay disp) (noteElement d) |}.

(** [form.reset()]: the input goes back to its default value. *)
Definition reset (d : dom) : dom :=
  {| messageElement := messageElement d;
     emailInput := {| value := defaultValue (emailInput d);
                      defaultValue := defaultValue (emailInput d);
                      inputClasses := inputClasses (emailInput d) |};
     formRow := formRow d; noteElement := noteElement d |}.

Definition errorClass : string := "mk-waitlist-message--error".
Definition successClass : string := "mk-waitlist-message--success".
Definition inputErrorClass : string := "mk-input--error".

(** The three statements every revision starts with after reading the
    email: clear the message, its two classes, and the input's error class. *)
Definition clearFeedback (d : dom) : dom :=
  onInputClasses (remove inputErrorClass)
    (onMessage (setClasses (fun l => remove successClass (remove errorClass l)))
      (onMessage (setText "") d)).

Definition errorText : string := "Please enter a valid email address.".
Definition signingUpText : string := "Signing up…".
Definition confirmText : string :=
  "You're on the list. We'll only email when there's something meaningful.".
Definition confirmDelay : nat := 1500.

(** The callback given to [setTimeout]. *)
Definition showConfirmation (d : dom) : dom :=
  setRows "none"
    (onMessage (setDisplay "block")
      (onMessage (setClasses (add successClass))
        (onMessage (setClasses (remove errorClass))
          (onMessage (setText confirmText) d)))).

Definition showError (text : string) (d : dom) : dom :=
  onMessage (setClasses (add errorClass))
    (onMessage (setText text)
      (onInputClasses (add inputErrorClass) d)).

Definition showSigningUp (d : dom) : dom :=
  setRows "none"
    (onMessage (setDisplay "block")
      (onMessage (setClasses (add successClass))
        (onMessage (setText signingUpText) d))).

(** The submit listener of waitlistForm.js (capture phase, delayed
    confirmation). *)
Definition onSubmit (d : dom) : outcome :=
  let email := trim (value (emailInput d)) in
  let d := clearFeedback d in
  if negb (isValidEmail email) then
    {| page := setRows "" (onMessage (setDisplay "block") (showError errorText d));
       defaultPrevented := true; propagationStopped := true; timers := [] |}
  else
    {| page := showSigningUp d;
       defaultPrevented := false; propagationStopped := false;
       timers := [(confirmDelay, showConfirmation)] |}.

(** The listener of the revision that leaves the confirmation to the
    provider's script. *)
Definition onSubmit_deferred (d : dom) : outcome :=
  let email := trim (value (emailInput d)) in
  let d := clearFeedback d in
  if negb (isValidEmail email) then
    {| page := setRows "" (onMessage (setDisplay "block") (showError errorText d));
       defaultPrevented := true; propagationStopped := false; timers := [] |}
  else
    {| page := showSigningUp d;
       defaultPrevented := false; propagationStopped := false; timers := [] |}.

Definition errorText_local : string := "Add a valid email to join the waitlist.".
Definition confirmText_local : string :=
  "You’re on the list. We’ll reach out when MemoryKit is ready.".

(** The listener of the client-only revision. *)
Definition onSubmit_local (d : dom) : outcome :=
  let email := trim (value (emailInput d)) in
  let d := clearFeedback d in
  if negb (isValidEmail_local email) then
    {| page := showError errorText_local d;
       defaultPrevented := true; propagationStopped := false; timers := [] |}
  else
    {| page := onMessage (setClasses (add successClass))
                 (onMessage (setText confirmText_local) (reset d));
       defaultPrevented := true; propagationStopped := false; timers := [] |}.

(** A timer that has run for its whole delay fires its callback. *)
Definition fire (o : outcome) (t : nat * (dom -> dom)) : dom := snd t (page o).

Definition hasInputError (d : dom) : bool :=
  contains inputErrorClass (inputClasses (emailInput d)).

Definition messageText (d : dom) : string := textContent (messageElement d).

(** What a listener does on an invalid email: the default submission is
    blocked, the input is marked, the message is the error text. *)
Definition rejects (h : dom -> outcome) (errText : string) (d : dom) : Prop :=
  defaultPrevented (h d) = true /\
  hasInputError (page (h d)) = true /\
  messageText (page (h d)) = errText.

(** What a listener does on a valid email, when the confirmation comes
    after a delay: the input is not marked, and a timer with that delay
    shows the confirmation. *)
Definition confirmsLater (h : dom -> outcome) (text : string) (delay : nat) (d : dom) : Prop :=
  hasInputError (page (h d)) = false /\
  exists t, In t (timers (h d)) /\ fst t = delay /\ messageText (fire (h d) t) = text.

(** A page with the given text in the email input, an input that is marked
    from an earlier attempt, and both optional elements. *)
Definition samplePage (text : string) : dom :=
  {| messageElement := {| textContent := "old"; classList := [errorClass]; display := "" |};
     emailInput := {| value := text; defaultValue := ""; inputClasses := [inputErrorClass] |};
     formRow := Some {| textContent := ""; classList := []; display := "" |};
     noteElement := Some {| textContent := ""; classList := []; display := "" |} |}.

End Waitlist.

(* ================================================================= *)
(** * Mesh parser worker (objParser.worker.js) *)

Module ObjParser.

Import Js.
Local Open Scope string_scope.
Local Open Scope Z_scope.

(** What an element read from a JavaScript array of numbers can be:
    [undefined] when the index is out of range or not an index at all. *)
Inductive value : Type :=
| Undefined : value
| Number : float -> value.

(** [e.data]: the worker only distinguishes strings from everything else. *)
Inductive data : Type :=
| Str : string -> data
| NotString : data.

(** What the worker posts back. *)
Inductive message : Type :=
| ErrorMsg : string -> message
| MeshMsg : list float -> list float -> message.

(** A face corner: [{ vi, ni }].  An index is [None] when it is NaN. *)
Record corner : Type := { vi : option Z; ni : option Z }.

(** The arrays of [self.onmessage]. *)
Record state : Type := {
  v : list float;
  vn : list float;
  outPositions : list value;
  outNormals : list value
}.

Definition init : state :=
  {| v := []; vn := []; outPositions := []; outNormals := [] |}.

(** [a[i]] for a possibly NaN, possibly negative number [i]. *)
Definition get (a : list float) (i : option Z) : value :=
  match i with
  | Some z =>
      if z <? 0 then Undefined
      else match nth_error a (Z.to_nat z) with
           | Some x => Number x
           | None => Undefined
           end
  | None => Undefined
  end.

(** [i * 3 + k] *)
Definition slot (i : option Z) (k : Z) : option Z :=
  option_map (fun z => z * 3 + k) i.

(** [a.length / 3]: the arrays only grow three numbers at a time, so the
    division is exact ([ObjParser.fold_stride] below). *)
Definition count (a : list float) : Z := Z.of_nat (List.length a) / 3.

(** [n < 0 ? a.length / 3 + n : n - 1] on the result of [parseInt]. *)
Definition resolve (a : list float) (n : option Z) : option Z :=
  match n with
  | Some n => Some (if n <? 0 then count a + n else n - 1)
  | None => None
  end.

Definition parseVertexIndex (st : state) (str : string) : option Z :=
  resolve (v st) (parseInt str).

Definition parseNormalIndex (st : state) (str : string) : option Z :=
  resolve (vn st) (parseInt str).

(** [segs.length >= 3 && segs[2]]: the normal reference of a face-line part,
    when it has one. *)
Definition normalRef (part : string) : option string :=
  let segs := splitChar "/" part in
  if (3 <=? List.length segs)%nat && negb (isEmpty (nth 2 segs ""))
  then Some (nth 2 segs "") else None.

(** The body of the loop over [parts[j]], [j >= 1]. *)
Definition parseCorner (st : state) (part : string) : corner :=
  let segs := splitChar "/" part in
  {| vi := parseVertexIndex st (nth 0 segs "");
     ni := match normalRef part with
           | Some s => parseNormalIndex st s
           | None => Some (-1)
           end |}.

Definition noCorner : corner := {| vi := None; ni := None |}.

(** The loop [for (t = 1; t < verts.length - 1; t++)]: the corners
    [verts[0], verts[t], verts[t + 1]] of each triangle of the fan. *)
Definition triangles (verts : list corner) : list (list corner) :=
  map (fun t => [nth 0 verts noCorner; nth t verts noCorner; nth (t + 1) verts noCorner])
      (seq 1 (List.length verts - 2)).

(** [ni >= 0], false for NaN. *)
Definition hasNormal (c : corner) : bool :=
  match ni c with Some z => 0 <=? z | None => false end.

Definition cornerPosition (st : state) (c : corner) : list value :=
  [get (v st) (slot (vi c) 0); get (v st) (slot (vi c) 1); get (v st) (slot (vi c) 2)].

Definition cornerNormal (st : state) (c : corner) : list value :=
  if hasNormal c
  then [get (vn st) (slot (ni c) 0); get (vn st) (slot (ni c) 1); get (vn st) (slot (ni c) 2)]
  else [Number 0%float; Number 0%float; Number 0%float].

(** The body of [for (const { vi, ni } of [a, b, c])]. *)
Definition emitCorner (st : state) (c : corner) : state :=
  {| v := v st; vn := vn st;
     outPositions := outPositions st ++ cornerPosition st c;
     outNormals := outNormals st ++ cornerNormal st c |}.

Definition emitTriangle (st : state) (tri : list corner) : state :=
  fold_left emitCorner tri st.

Section Worker.

(** The host's [parseFloat], and the rounding to single precision a
    [Float32Array] applies to what it stores. *)
Variable parseFloat : string -> float.
Variable fround : float -> float.

Definition pushVertex (st : state) (parts : list string) : state :=
  {| v := v st ++ [parseFloat (nth 1 parts ""); parseFloat (nth 2 parts "");
                   parseFloat (nth 3 parts "")];
     vn := vn st; outPositions := outPositions st; outNormals := outNormals st |}.

Definition pushNormal (st : state) (parts : list string) : state :=
  {| v := v st;
     vn := vn st ++ [parseFloat (nth 1 parts ""); parseFloat (nth 2 parts "");
                     parseFloat (nth 3 parts "")];
     outPositions := outPositions st; outNormals := outNormals st |}.

Definition pushFace (st : state) (parts : list string) : state :=
  let verts := map (parseCorner st) (tl parts) in
  fold_left emitTriangle (triangles verts) st.

(** [trim.split(/\s+/)] of a line that is neither blank nor a comment. *)
Definition lineParts (line : string) : option (list string) :=
  let trim := Js.trim line in
  if isEmpty trim || startsWith trim "#" then None else Some (splitWs trim).

(** One iteration of the loop over the lines. *)
Definition processLine (st : state) (line : string) : state :=
  match lineParts line with
  | None => st
  | Some parts =>
      let key := nth 0 parts "" in
      if (key =? "v")%string && (4 <=? List.length parts)%nat then pushVertex st parts
      else if (key =? "vn")%string && (4 <=? List.length parts)%nat then pushNormal st parts
      else if (key =? "f")%string && (4 <=? List.length parts)%nat then pushFace st parts
      else st
  end.

Definition parse (text : string) : state :=
  fold_left processLine (splitLines text) init.

(** [new Float32Array(array)]: [undefined] becomes NaN. *)
Definition Float32Array (a : list value) : list float :=
  map (fun x => match x with Number f => fround f | Undefined => nan end) a.

(** [self.onmessage], as the list of the messages it posts. *)
Definition onmessage (e_data : data) : list message :=
  match e_data with
  | NotString => [ErrorMsg "Expected string"]
  | Str text =>
      let st := parse text in
      [MeshMsg (Float32Array (outPositions st)) (Float32Array (outNormals st))]
  end.

(** A line the parser treats as a face, and the number of references on it. *)
Definition faceArity (line : string) : option nat :=
  match lineParts line with
  | None => None
  | Some parts =>
      let key := nth 0 parts "" in
      if (key =? "v")%string && (4 <=? List.length parts)%nat then None
      else if (key =? "vn")%string && (4 <=? List.length parts)%nat then None
      else if (key =? "f")%string && (4 <=? List.length parts)%nat
      then Some (List.length parts - 1)%nat
      else None
  end.

End Worker.




(** The number of triangles a line adds to the output, and a list of lines. *)
Definition triCount (line : string) : nat :=
  match faceArity line with Some k => (k - 2)%nat | None => 0%nat end.



Definition isError (m : message) : bool :=
  match m with ErrorMsg _ => true | MeshMsg _ _ => false end.

Definition isString (d : data) : bool :=
  match d with Str _ => true | NotString => false end.

(** ** Sample input

    A stand-in for the host's [parseFloat] that reads whole numbers, and
    two small meshes to run the parser on. *)
Definition wholeNumber (s : string) : float :=
  match parseInt s with
  | Some z => if z <? 0 then (- of_uint63 (Uint63.of_Z (- z)))%float
              else of_uint63 (Uint63.of_Z z)
  | None => nan
  end.

Definition sampleTriangles : string :=
  "# two triangles
v 0 0 0
v 1 0 0
v 0 1 0
v 1 1 0
vn 0 0 1
f 1//1 2//1 3//1
f 2 4 -2
".

Definition sampleState : state :=
  {| v := [1; 2; 3; 4; 5; 6; 7; 8; 9; 10; 11; 12]%float;
     vn := [0; 0; 1]%float;
     outPositions := []; outNormals := [] |}.

Definition sampleQuad : string := "f 1//1 2//1 3 -1".

End ObjParser.

(* ================================================================= *)
(** * Decimation (brainScene.js) *)

Module Geometry.

(** A three.js buffer attribute over a [Float32Array]. *)
Record BufferAttribute : Type := { array : list float; itemSize : nat }.

(** [attribute.count], the array's length over the item size: a whole
    number for every attribute the library builds. *)
Definition count (a : BufferAttribute) : nat := List.length (array a) / itemSize a.

Definition getX (a : BufferAttribute) (i : nat) : float := nth (i * itemSize a) (array a) nan.
Definition getY (a : BufferAttribute) (i : nat) : float := nth (i * itemSize a + 1) (array a) nan.
Definition getZ (a : BufferAttribute) (i : nat) : float := nth (i * itemSize a + 2) (array a) nan.

(** [geometry.attributes] *)
Record BufferGeometry : Type := {
  position : option BufferAttribute;
  normal : option BufferAttribute
}.

(** [new THREE.Float32BufferAttribute(array, itemSize)].  The numbers pushed
    by the loops below were read from a [Float32Array], so storing them
    again leaves them as they are. *)
Definition Float32BufferAttribute (a : list float) (n : nat) : BufferAttribute :=
  {| array := a; itemSize := n |}.

(** [for (let i = 0; i < count; i += step)] of the worker-based scene, from
    a given [i].  The loop does not end when [step] is 0: [None] is a loop
    still running after [fuel] iterations. *)
Fixpoint decimateLoop (fuel : nat) (pos : BufferAttribute) (norm : option BufferAttribute)
    (cnt step i : nat) (outPos : list float) (outNorm : option (list float))
    : option (list float * option (list float)) :=
  if cnt <=? i then Some (outPos, outNorm)
  else match fuel with
       | O => None
       | S fuel' =>
           decimateLoop fuel' pos norm cnt step (i + step)
             (outPos ++ [getX pos i; getY pos i; getZ pos i])
             (match norm, outNorm with
              | Some nrm, Some o => Some (o ++ [getX nrm i; getY nrm i; getZ nrm i])
              | _, _ => outNorm
              end)
       end.

(** [decimateForPoints] of the worker-based scene.  The outer [option] is
    the fuel, the inner one the [null] returned without positions. *)
Definition decimateForPoints (fuel : nat) (geometry : BufferGeometry) (step : nat)
    : option (option BufferGeometry) :=
  match position geometry with
  | None => Some None
  | Some pos =>
      let norm := normal geometry in
      match decimateLoop fuel pos norm (count pos) step 0 []
              (match norm with Some _ => Some [] | None => None end) with
      | None => None
      | Some (outPos, outNorm) =>
          Some (Some {| position := Some (Float32BufferAttribute outPos 3);
                        normal := option_map (fun o => Float32BufferAttribute o 3) outNorm |})
      end
  end.

(** The loop of the loader-based scene, which copies positions only. *)
Fixpoint decimateLoopPos (fuel : nat) (pos : BufferAttribute)
    (cnt step i : nat) (outPos : list float) : option (list float) :=
  if cnt <=? i then Some outPos
  else match fuel with
       | O => None
       | S fuel' =>
           decimateLoopPos fuel' pos cnt step (i + step)
             (outPos ++ [getX pos i; getY pos i; getZ pos i])
       end.

(** [decimateForPoints] of the loader-based scene. *)
Definition decimateForPointsPos (fuel : nat) (geometry : BufferGeometry) (step : nat)
    : option (option BufferGeometry) :=
  match position geometry with
  | None => Some None
  | Some pos =>
      match decimateLoopPos fuel pos (count pos) step 0 [] with
      | None => None
      | Some outPos =>
          Some (Some {| position := Some (Float32BufferAttribute outPos 3);
                        normal := None |})
      end
  end.

(** The [i]-th item of an attribute of triples. *)
Definition triple (a : BufferAttribute) (i : nat) : float * float * float :=
  (getX a i, getY a i, getZ a i).

(** [ceil(m / n)] *)
Definition ceilDiv (m n : nat) : nat := (m + n - 1) / n.

(** The indices the loop visits from [i]: [n] of them, [step] apart. *)
Fixpoint picks (i step n : nat) : list nat :=
  match n with
  | O => []
  | S n' => i :: picks (i + step) step n'
  end.

Definition tripleList (a : BufferAttribute) (i : nat) : list float :=
  [getX a i; getY a i; getZ a i].

(** A sample geometry of five points with normals. *)
Definition sampleGeometry : BufferGeometry :=
  {| position := Some {| array := [0; 1; 2; 10; 11; 12; 20; 21; 22; 30; 31; 32; 40; 41; 42]%float;
                         itemSize := 3 |};
     normal := Some {| array := [0; 0; 1; 0; 1; 0; 1; 0; 0; 0; 0; 1; 0; 1; 0]%float;
                       itemSize := 3 |} |}.

End Geometry.

(* ================================================================= *)
(** * Scroll effect binder (src/js/scrollEffects.js)

    [update] over the rationals: the numbers the code would compute without
    rounding.  They bound the scale and the opacity written to the visual
    element; what the code computes in binary64 is in [Scroll64] below. *)

Module Scroll.

Local Open Scope Q_scope.

(** The part of [hero.getBoundingClientRect()] the code reads. *)
Record DOMRect : Type := { top : Q; height : Q }.

(** [window.innerHeight || 1]: the inner height is a whole, non-negative
    number of pixels. *)
Definition vh (innerHeight : N) : Q :=
  if (innerHeight =? 0)%N then 1 else inject_Z (Z.of_N innerHeight).

Definition center (rect : DOMRect) : Q := top rect + height rect / 2.

Definition distance (rect : DOMRect) (innerHeight : N) : Q :=
  Qabs (center rect - vh innerHeight / 2).

Definition normalized (rect : DOMRect) (innerHeight : N) : Q :=
  Qmin (distance rect innerHeight / (vh innerHeight / 2)) 1.

Definition intensity (rect : DOMRect) (innerHeight : N) : Q :=
  1 - normalized rect innerHeight.

(** What [update] (named [handleScroll] in the first revision) writes to
    the visual element. *)
Record style : Type := { scale : Q; opacity : Q; pulse : bool }.

Definition update (rect : DOMRect) (innerHeight : N) : style :=
  let i := intensity rect innerHeight in
  {| scale := 1 + i * 0.03;
     opacity := 0.8 + i * 0.2;
     pulse := negb (Qle_bool i 0.4) |}.

End Scroll.

(* ================================================================= *)
(** * Scan-reveal renderer (src/js/brainScene.js)

    The render loop over the real numbers, for the pathway animation, whose
    fade uses [Math.sin], and for what does not depend on how the scan's
    arithmetic rounds.  The scan itself, with the arithmetic of the code, is
    in [Scan] below. *)

Module Scene.

Local Open Scope R_scope.

(** [scanState.phase] *)
Inductive phase : Type := scanning | complete.

Record scanState : Type := {
  scanPhase : phase;
  scanY : R;
  scanSpeed : R;
  maxY : R
}.

(** An entry of [pathways], with the opacity of its line's material. *)
Record pathway : Type := {
  opacity : R;
  delay : R;
  duration : R
}.

(** What [render] and the load callbacks read and write, apart from the
    renderer's own objects (camera, controls, shader uniform, draw calls). *)
Record scene : Type := {
  scan : scanState;
  lastTime : R;
  cycleTime : R;
  pathways : list pathway;
  scanLineVisible : bool;
  autoRotate : bool;
  pathwaysVisible : bool;
  nodeOpacity : R;
  nodeSize : R
}.

Definition SCAN_SPEED : R := 80.
Definition cycleDuration : R := 8.

(** The number's integer part, rounded towards zero. *)
Definition trunc (x : R) : Z :=
  if Rle_dec 0 x then Int_part x else (- Int_part (- x))%Z.

(** The remainder operator [a % b]: the result has the sign of [a]. *)
Definition rem (a b : R) : R := a - b * IZR (trunc (a / b)).

(** [pathwayConnections.forEach((conn, idx) => ...)]: nine lines, each
    created with opacity 0, delay [idx * 0.4] and duration 1.5. *)
Definition newPathway (idx : nat) : pathway :=
  {| opacity := 0; delay := INR idx * 0.4; duration := 1.5 |}.

Definition initPathways : list pathway := map newPathway (seq 0 9).

(** The scene when [initBrainScene] returns; [t0] is what
    [performance.now()] gave for [lastTime]. *)
Definition initScene (t0 : R) : scene :=
  {| scan := {| scanPhase := scanning; scanY := -120; scanSpeed := SCAN_SPEED; maxY := 120 |};
     lastTime := t0;
     cycleTime := 0;
     pathways := initPathways;
     scanLineVisible := false;
     autoRotate := false;
     pathwaysVisible := false;
     nodeOpacity := 0;
     nodeSize := 8 |}.

(** [now || frameStart]: a zero time stamp is replaced by the clock. *)
Definition effectiveNow (now frameStart : R) : R :=
  if Req_dec_T now 0 then frameStart else now.

(** The opacity [render] gives a line whose place in the cycle is
    [pathTime]. *)
Definition fade (p : pathway) (pathTime : R) : R :=
  if Rlt_dec pathTime (duration p) then
    let progress := pathTime / duration p in
    sin (progress * PI) * 0.7
  else if Rlt_dec pathTime (duration p + 0.5) then
    let fadeProgress := (pathTime - duration p) / 0.5 in
    0.7 * (1 - fadeProgress)
  else 0.

(** The body of [pathways.forEach]. *)
Definition animatePathway (cycle : R) (p : pathway) : pathway :=
  let pathTime := rem (cycle - delay p + cycleDuration) cycleDuration in
  {| opacity := fade p pathTime; delay := delay p; duration := duration p |}.

(** The block [if (scanState.phase === "scanning") { ... }] of [render]. *)
Definition advanceScan (s : scene) (dt : R) : scene :=
  match scanPhase (scan s) with
  | complete => s
  | scanning =>
      let y := scanY (scan s) + scanSpeed (scan s) * dt in
      if Rgt_dec y (maxY (scan s)) then
        {| scan := {| scanPhase := complete; scanY := y;
                      scanSpeed := scanSpeed (scan s); maxY := maxY (scan s) |};
           lastTime := lastTime s; cycleTime := cycleTime s; pathways := pathways s;
           scanLineVisible := false; autoRotate := true;
           pathwaysVisible := true;
           nodeOpacity := nodeOpacity s; nodeSize := nodeSize s |}
      else
        {| scan := {| scanPhase := scanning; scanY := y;
                      scanSpeed := scanSpeed (scan s); maxY := maxY (scan s) |};
           lastTime := lastTime s; cycleTime := cycleTime s; pathways := pathways s;
           scanLineVisible := true; autoRotate := autoRotate s;
           pathwaysVisible := pathwaysVisible s;
           nodeOpacity := nodeOpacity s; nodeSize := nodeSize s |}
  end.

(** The block [if (scanState.phase === "complete") { ... }] of [render]. *)
Definition animate (s : scene) (dt t : R) : scene :=
  match scanPhase (scan s) with
  | scanning => s
  | complete =>
      let cycle := rem (cycleTime s + dt) cycleDuration in
      {| scan := scan s; lastTime := lastTime s;
         cycleTime := cycle;
         pathways := map (animatePathway cycle) (pathways s);
         scanLineVisible := scanLineVisible s;
         autoRotate := autoRotate s; pathwaysVisible := pathwaysVisible s;
         nodeOpacity := 0.4 + 0.3 * sin (t * 2);
         nodeSize := 6 + 4 * sin (t * 1.5) |}
  end.

Definition setLastTime (now : R) (s : scene) : scene :=
  {| scan := scan s; lastTime := now; cycleTime := cycleTime s;
     pathways := pathways s;
     scanLineVisible := scanLineVisible s; autoRotate := autoRotate s;
     pathwaysVisible := pathwaysVisible s;
     nodeOpacity := nodeOpacity s; nodeSize := nodeSize s |}.

(** [render(now)]; [frameStart] is the clock read at the start of the
    frame. *)
Definition render (s : scene) (now frameStart : R) : scene :=
  let now := effectiveNow now frameStart in
  let dt := (now - lastTime s) / 1000 in
  let t := now / 1000 in
  animate (advanceScan (setLastTime now s) dt) dt t.

(** The mesh arrived: [scanState.scanY = bbox.min.y - 10],
    [scanState.maxY = bbox.max.y + 10]. *)
Definition meshLoaded (s : scene) (minY maxY' : R) : scene :=
  {| scan := {| scanPhase := scanPhase (scan s); scanY := minY - 10;
                scanSpeed := scanSpeed (scan s); maxY := maxY' + 10 |};
     lastTime := lastTime s; cycleTime := cycleTime s; pathways := pathways s;
     scanLineVisible := scanLineVisible s;
     autoRotate := autoRotate s; pathwaysVisible := pathwaysVisible s;
     nodeOpacity := nodeOpacity s; nodeSize := nodeSize s |}.

(** The error callback of the loader-based scene:
    [scanState.phase = "complete"]. *)
Definition loadError (s : scene) : scene :=
  {| scan := {| scanPhase := complete; scanY := scanY (scan s);
                scanSpeed := scanSpeed (scan s); maxY := maxY (scan s) |};
     lastTime := lastTime s; cycleTime := cycleTime s; pathways := pathways s;
     scanLineVisible := scanLineVisible s;
     autoRotate := autoRotate s; pathwaysVisible := pathwaysVisible s;
     nodeOpacity := nodeOpacity s; nodeSize := nodeSize s |}.

(** The two revisions of the scene that have a scan: the one that parses
    the mesh in a worker, and the one that uses the library's loader. *)
Inductive revision : Type := Worker | Loader.

(** What can happen to a scene instance: an animation frame, the mesh
    arriving with the vertical bounds of its box, or the load failing. *)
Inductive event : Type :=
| Frame : R -> R -> event
| MeshLoaded : R -> R -> event
| MeshFailed : event.

Definition step (rev : revision) (s : scene) (e : event) : scene :=
  match e with
  | Frame now frameStart => render s now frameStart
  | MeshLoaded lo hi => meshLoaded s lo hi
  | MeshFailed => match rev with Worker => s | Loader => loadError s end
  end.

Definition run (rev : revision) (s : scene) (es : list event) : scene :=
  fold_left (step rev) es s.

(** The states a scene instance can be in. *)
Definition reachable (rev : revision) (s : scene) : Prop :=
  exists t0 es, s = run rev (initScene t0) es.

(** The frames' time stamps never go back, starting from [t]. *)
Fixpoint monotone (t : R) (es : list event) : Prop :=
  match es with
  | [] => True
  | Frame now frameStart :: rest =>
      t <= effectiveNow now frameStart /\ monotone (effectiveNow now frameStart) rest
  | _ :: rest => monotone t rest
  end.

(** ** The first revision of the scene, without a scan: every frame
    advances the cycle and animates the lines. *)
Record ambient : Type := {
  a_lastTime : R;
  a_cycleTime : R;
  a_pathways : list pathway
}.

Definition initAmbient (t0 : R) : ambient :=
  {| a_lastTime := t0; a_cycleTime := 0; a_pathways := initPathways |}.

Definition renderAmbient (s : ambient) (now clock : R) : ambient :=
  let now := effectiveNow now clock in
  let dt := (now - a_lastTime s) / 1000 in
  let cycle := rem (a_cycleTime s + dt) cycleDuration in
  {| a_lastTime := now; a_cycleTime := cycle;
     a_pathways := map (animatePathway cycle) (a_pathways s) |}.








End Scene.

(* ================================================================= *)
(** * Pathway curves (createCurvedPath, src/js/brainScene.js) *)

Module Curve.

Local Open Scope Q_scope.

(** A point of the curve, and an anchor [[x, y, z]]. *)
Record Vector3 : Type := { x : Q; y : Q; z : Q }.

(** [i / segments] *)
Definition param (i segments : nat) : Q :=
  inject_Z (Z.of_nat i) / inject_Z (Z.of_nat segments).

(** [createCurvedPath(start, end, segments)]: the points of the quadratic
    curve through a middle point raised by 30, for [i = 0 .. segments].
    With [segments = 0] the code divides 0 by 0; the properties below are
    about [segments >= 1]. *)
Definition createCurvedPath (start end_ : Vector3) (segments : nat) : list Vector3 :=
  let midPoint :=
    {| x := (x start + x end_) / 2;
       y := (y start + y end_) / 2 + 30;
       z := (z start + z end_) / 2 |} in
  map (fun i =>
         let t := param i segments in
         {| x := (1 - t) * (1 - t) * x start + 2 * (1 - t) * t * x midPoint + t * t * x end_;
            y := (1 - t) * (1 - t) * y start + 2 * (1 - t) * t * y midPoint + t * t * y end_;
            z := (1 - t) * (1 - t) * z start + 2 * (1 - t) * t * z midPoint + t * t * z end_ |})
      (seq 0 (S segments)).

(** Two points with equal coordinates. *)
Definition same (p q : Vector3) : Prop := x p == x q /\ y p == y q /\ z p == z q.

Definition origin : Vector3 := {| x := 0; y := 0; z := 0 |}.

(** Two of the anchors of the scene. *)
Definition episodic : Vector3 := {| x := 92; y := 45; z := 0 |}.
Definition semantic_r : Vector3 := {| x := 20; y := -30; z := 65 |}.

End Curve.

(* ================================================================= *)
(** * Merging geometries (mergeBufferGeometries, src/js/brainScene.js) *)

Module Merge.

Import Geometry.

(** [g.attributes] with the three attributes the function reads. *)
Record MeshGeometry : Type := {
  m_position : option BufferAttribute;
  m_normal : option BufferAttribute;
  m_uv : option BufferAttribute
}.

(** The arrays [positions], [normals] and [uvs]. *)
Record buffers : Type := {
  positions : list float;
  normals : list float;
  uvs : list float
}.

Definition noBuffers : buffers := {| positions := []; normals := []; uvs := [] |}.

(** The body of [for (let i = 0; i < count; i++)]. *)
Definition pushItem (g : MeshGeometry) (pos : BufferAttribute) (acc : buffers) (i : nat)
    : buffers :=
  {| positions := positions acc ++ [getX pos i; getY pos i; getZ pos i];
     normals := match m_normal g with
                | Some norm => normals acc ++ [getX norm i; getY norm i; getZ norm i]
                | None => normals acc
                end;
     uvs := match m_uv g with
            | Some uv => uvs acc ++ [getX uv i; getY uv i]
            | None => uvs acc
            end |}.

(** The body of [for (const g of geometries)]; a geometry without
    positions is skipped. *)
Definition mergeOne (acc : buffers) (g : MeshGeometry) : buffers :=
  match m_position g with
  | None => acc
  | Some pos => fold_left (pushItem g pos) (seq 0 (count pos)) acc
  end.

Definition isNil (a : list float) : bool :=
  match a with [] => true | _ => false end.

Definition mergeBufferGeometries (geometries : list MeshGeometry) : MeshGeometry :=
  let acc := fold_left mergeOne geometries noBuffers in
  {| m_position := Some (Float32BufferAttribute (positions acc) 3);
     m_normal := if isNil (normals acc) then None
                 else Some (Float32BufferAttribute (normals acc) 3);
     m_uv := if isNil (uvs acc) then None
             else Some (Float32BufferAttribute (uvs acc) 2) |}.

(** What [decimateForPoints] sees of a merged geometry. *)
Definition asGeometry (g : MeshGeometry) : BufferGeometry :=
  {| position := m_position g; normal := m_normal g |}.

(** The number of items of the position attribute, 0 without one. *)
Definition vertexCount (g : MeshGeometry) : nat :=
  match m_position g with Some pos => count pos | None => 0 end.

Definition totalCount (geometries : list MeshGeometry) : nat :=
  list_sum (map vertexCount geometries).

(** A position attribute as the library builds it: items of three, and
    whole items only.  For such an attribute [count] is exact. *)
Definition wholeTriples (a : BufferAttribute) : Prop :=
  (itemSize a = 3 /\ exists M, List.length (array a) = 3 * M)%nat.

Definition allWhole (geometries : list MeshGeometry) : Prop :=
  Forall (fun g => forall pos, m_position g = Some pos -> wholeTriples pos) geometries.

(** The numbers in the position attribute, none without one. *)
Definition positionLength (g : MeshGeometry) : nat :=
  match m_position g with Some pos => List.length (array pos) | None => 0%nat end.

Definition totalLength (geometries : list MeshGeometry) : nat :=
  list_sum (map positionLength geometries).

(** Every geometry that has positions has normals too, one per position. *)
Definition allWithNormals (geometries : list MeshGeometry) : Prop :=
  Forall (fun g => m_position g <> None -> m_normal g <> None) geometries.

Definition sampleMesh (a : list float) (withNormal : bool) : MeshGeometry :=
  {| m_position := Some {| array := a; itemSize := 3 |};
     m_normal := if withNormal then Some {| array := a; itemSize := 3 |} else None;
     m_uv := None |}.

End Merge.

(* ================================================================= *)
(** * Scroll throttling (initScrollEffects, frame-scheduled revision) *)

Module Throttle.

(** [rafId], the frame callbacks the browser holds for this module, the
    next handle [requestAnimationFrame] will return, and the number of
    times [update] has run. *)
Record state : Type := {
  rafId : option nat;
  scheduled : list nat;
  nextHandle : nat;
  updates : nat
}.

(** [initScrollEffects] calls [update] once itself; [update] ends with
    [rafId = null]. *)
Definition init : state :=
  {| rafId := None; scheduled := []; nextHandle := 1; updates := 1 |}.

(** [onScroll]: [if (rafId == null) rafId = requestAnimationFrame(update)]. *)
Definition onScroll (s : state) : state :=
  match rafId s with
  | None =>
      {| rafId := Some (nextHandle s); scheduled := scheduled s ++ [nextHandle s];
         nextHandle := S (nextHandle s); updates := updates s |}
  | Some _ => s
  end.

(** One run of [update] as a frame callback. *)
Definition runUpdate (s : state) (handle : nat) : state :=
  {| rafId := None; scheduled := scheduled s;
     nextHandle := nextHandle s; updates := S (updates s) |}.

(** An animation frame: the browser runs the callbacks it holds. *)
Definition onFrame (s : state) : state :=
  let s' := fold_left runUpdate (scheduled s) s in
  {| rafId := rafId s'; scheduled := [];
     nextHandle := nextHandle s'; updates := updates s' |}.

Inductive event : Type := Scroll | AnimationFrame.

Definition step (s : state) (e : event) : state :=
  match e with Scroll => onScroll s | AnimationFrame => onFrame s end.

Definition run (es : list event) : state := fold_left step es init.

Definition isFrame (e : event) : bool :=
  match e with AnimationFrame => true | Scroll => false end.

Definition frames (es : list event) : nat := List.length (filter isFrame es).

(** Either nothing is pending, or exactly the callback [rafId] names. *)
Definition coherent (s : state) : Prop :=
  (rafId s = None /\ scheduled s = []) \/
  (exists h, rafId s = Some h /\ scheduled s = [h]).

End Throttle.

(* ================================================================= *)
(** * Reinforce line (initReinforceLine): which phrase carries [is-visible] *)

Module Reinforce.

(** [index] and, for each phrase, whether its class list holds
    [is-visible].  The tweens of the animation library are not part of the
    model. *)
Record state : Type := { index : nat; visible : list bool }.

(** [setVisible(i)]: [el.classList.toggle("is-visible", j === i)]. *)
Definition setVisible (i : nat) (phrases : list bool) : list bool :=
  map (fun j => j =? i)%nat (seq 0 (List.length phrases)).

(** [classList.add] and [classList.remove] on [phrases[i]]. *)
Fixpoint setClass (b : bool) (i : nat) (phrases : list bool) : list bool :=
  match phrases, i with
  | [], _ => []
  | _ :: rest, O => b :: rest
  | p :: rest, S i' => p :: setClass b i' rest
  end.

(** [initReinforceLine]: nothing without the container or without
    phrases ([None]); else the first phrase is shown. *)
Definition init (container : bool) (phrases : list bool) : option state :=
  if negb container || (List.length phrases =? 0)%nat then None
  else Some {| index := 0; visible := setVisible 0 phrases |}.

(** [animateTo(nextIndex)] *)
Definition animateTo (s : state) (nextIndex : nat) : state :=
  {| index := nextIndex;
     visible := setClass true nextIndex (setClass false (index s) (visible s)) |}.

(** The callback of [setInterval]. *)
Definition tick (s : state) : state :=
  animateTo s ((index s + 1) mod List.length (visible s)).

Fixpoint ticks (n : nat) (s : state) : state :=
  match n with O => s | S n' => ticks n' (tick s) end.

(** Only phrase [i] of [n] carries the class. *)
Definition only (i n : nat) : list bool := map (fun j => j =? i)%nat (seq 0 n).

(** The number of phrases that carry the class. *)
Definition shown (s : state) : nat := List.length (filter (fun b => b) (visible s)).

End Reinforce.

(* ================================================================= *)
(** * Kinds of mesh lines, for stating what the parser does with them *)

Module ObjText.

Import Js ObjParser.
Local Open Scope string_scope.



(** A reference [n] that names one of [m] items: 1-based from the start,
    or negative from the end. *)
Definition inRange (n : Z) (m : nat) : Prop :=
  (1 <= n <= Z.of_nat m)%Z \/ (- Z.of_nat m <= n <= -1)%Z.

(** The zero-based place a reference in range resolves to. *)
Definition place (n : Z) (m : nat) : nat :=
  Z.to_nat (if (n <? 0)%Z then Z.of_nat m + n else n - 1)%Z.

(** The vertex reference of a face-line part: [segs[0]]. *)
Definition vertexRef (part : string) : string := nth 0 (splitChar "/" part) "".



(** The loop over the lines, from any state. *)
Definition parseLines (parseFloat : string -> float) (lines : list string) (st : state)
    : state :=
  fold_left (processLine parseFloat) lines st.

(** The text with every line feed turned into carriage return, line feed. *)
Fixpoint crlf (s : string) : string :=
  match s with
  | EmptyString => EmptyString
  | String c rest =>
      if Ascii.eqb c LF then String CR (String LF (crlf rest))
      else String c (crlf rest)
  end.

Fixpoint hasCR (s : string) : bool :=
  match s with
  | EmptyString => false
  | String c rest => Ascii.eqb c CR || hasCR rest
  end.

End ObjText.

(* ================================================================= *)
(** * The shape of an accepted address, and a user editing the input *)

Module Address.

Import Js Waitlist.
Local Open Scope string_scope.

Fixpoint allChars (p : ascii -> bool) (s : string) : bool :=
  match s with
  | EmptyString => true
  | String c rest => p c && allChars p rest
  end.

(** A non-empty run of characters that are neither white space nor [@]. *)
Definition word (s : string) : Prop := s <> "" /\ allChars notSpaceNorAt s = true.

(** [local@domain.tld] *)
Definition wellFormed (s : string) : Prop :=
  exists a b c, s = a ++ "@" ++ b ++ "." ++ c /\ word a /\ word b /\ word c.

(** The user replaces the text of the email input. *)
Definition typeEmail (text : string) (d : dom) : dom :=
  {| messageElement := messageElement d;
     emailInput := {| value := text; defaultValue := defaultValue (emailInput d);
                      inputClasses := inputClasses (emailInput d) |};
     formRow := formRow d; noteElement := noteElement d |}.

Definition messageClasses (d : dom) : list string := classList (messageElement d).

(** The message carries the error class on an invalid email and the
    success class on a valid one, and not the other class. *)
Definition verdictClasses (valid : bool) (d : dom) : Prop :=
  contains errorClass (messageClasses d) = negb valid /\
  contains successClass (messageClasses d) = valid.

End Address.

(* ================================================================= *)
(** * Runs of the scene made of frames only *)

Module SceneRuns.

Import Scene.

Definition isFrame (e : event) : bool :=
  match e with Frame _ _ => true | _ => false end.


(** The node markers as [initBrainScene] creates them, or as a frame of the
    complete phase sets them. *)
Definition nodesInRange (s : scene) : Prop :=
  (0 <= nodeOpacity s <= 0.7 /\ 2 <= nodeSize s <= 10)%R.

(** The cycle clock is within one cycle, and at 0 until the scan is
    complete. *)
Definition cycleInRange (s : scene) : Prop :=
  (0 <= cycleTime s < cycleDuration)%R /\
  (scanPhase (scan s) = scanning -> cycleTime s = 0%R).

End SceneRuns.

(* ================================================================= *)
(** * Binary64 numbers

    A JavaScript number is a binary64 float, the kernel's [float].  The
    library specifies the primitive operations on [spec_float], a sign, a
    mantissa and an exponent ([Prim2SF], [add_spec], [div_spec], ...); the
    definitions below are what the proofs about rounding speak of, and the
    two host functions on numbers the page uses. *)

Module Binary64.

Local Open Scope Z_scope.

(** The value of the mantissa [m] at the exponent [e], counted in units of
    [2^-1074], the smallest positive number. *)
Definition val (m e : Z) : Z := m * 2 ^ (e + 1074).

(** A shift to the right that dropped no digit. *)
Definition exact (mrs : shr_record) : Prop := shr_r mrs = false /\ shr_s mrs = false.

(** The number 1. *)
Definition SF1 : spec_float := S754_finite false 4503599627370496 (-52).

(** A number that is not negative: [+0], a positive number or [+Infinity]. *)
Definition nonneg (x : spec_float) : Prop :=
  match x with
  | S754_zero false | S754_infinity false | S754_finite false _ _ => True
  | _ => False
  end.

(** The exact value of a finite number, as a rational. *)
Definition SF2Q (x : spec_float) : Q :=
  match x with
  | S754_finite s m e =>
      ((if s then - (1) else 1) * inject_Z (Zpos m) * Qpower 2 e)%Q
  | _ => 0%Q
  end.

Definition toQ (x : float) : Q := SF2Q (Prim2SF x).

(** [ToBoolean] of a number: [NaN], [+0] and [-0] are falsy. *)
Definition toBoolean (x : float) : bool := negb (is_nan x || is_zero x).

(** [Math.min(a, b)]: [NaN] when either is, and [-0] below [+0]. *)
Definition Math_min (a b : float) : float :=
  if is_nan a || is_nan b then nan
  else if (a <? b)%float then a
  else if (b <? a)%float then b
  else if is_zero a && get_sign a then a
  else b.

End Binary64.

(* ================================================================= *)
(** * Scroll effect binder in binary64 (src/js/scrollEffects.js)

    [update] (named [handleScroll] in the first revision) as the code
    computes it, every operation rounding to binary64. *)

Module Scroll64.

Import Binary64.
Local Open Scope float_scope.

(** The part of [hero.getBoundingClientRect()] the code reads. *)
Record DOMRect : Type := { top : float; height : float }.

(** [window.innerHeight || 1] *)
Definition vh (innerHeight : float) : float :=
  if toBoolean innerHeight then innerHeight else 1.

Definition center (rect : DOMRect) : float := top rect + height rect / 2.

Definition distance (rect : DOMRect) (innerHeight : float) : float :=
  abs (center rect - vh innerHeight / 2).

Definition normalized (rect : DOMRect) (innerHeight : float) : float :=
  Math_min (distance rect innerHeight / (vh innerHeight / 2)) 1.

Definition intensity (rect : DOMRect) (innerHeight : float) : float :=
  1 - normalized rect innerHeight.

(** What [update] writes to the visual element: the numbers it formats into
    [style.transform] and [style.opacity], and whether it puts the pulse
    class on.  The literals are the binary64 numbers that [0.03], [0.8],
    [0.2] and [0.4] denote. *)
Record style : Type := { scale : float; opacity : float; pulse : bool }.

Definition update (rect : DOMRect) (innerHeight : float) : style :=
  let i := intensity rect innerHeight in
  {| scale := 1 + i * 0x1.eb851eb851eb8p-6;
     opacity := 0x1.999999999999ap-1 + i * 0x1.999999999999ap-3;
     pulse := 0x1.999999999999ap-2 <? i |}.

End Scroll64.

(* ================================================================= *)
(** * The scan in binary64 (render, src/js/brainScene.js)

    The scan block of [render] and the callbacks of the mesh load, with the
    arithmetic of the code: [scanY] is advanced and compared in binary64,
    and the bounds the mesh gives may be any number, [NaN] and the
    infinities included. *)

Module Scan.

Import Binary64.
Local Open Scope float_scope.

(** [scanState.phase] *)
Inductive phase : Type := scanning | complete.

Record scanState : Type := {
  scanPhase : phase;
  scanY : float;
  scanSpeed : float;
  maxY : float
}.

(** What the scan block of [render] and the load callbacks read and write:
    the scan state, [lastTime], [scanLine] and the two flags the completing
    frame sets. *)
Record scene : Type := {
  scan : scanState;
  lastTime : float;
  scanLineY : float;
  scanLineVisible : bool;
  autoRotate : bool;
  pathwaysVisible : bool
}.

Definition SCAN_SPEED : float := 80.

(** The scene when [initBrainScene] returns; [t0] is what
    [performance.now()] gave for [lastTime]. *)
Definition initScene (t0 : float) : scene :=
  {| scan := {| scanPhase := scanning; scanY := -120; scanSpeed := SCAN_SPEED; maxY := 120 |};
     lastTime := t0;
     scanLineY := 0;
     scanLineVisible := false;
     autoRotate := false;
     pathwaysVisible := false |}.

(** [now || frameStart] *)
Definition effectiveNow (now frameStart : float) : float :=
  if toBoolean now then now else frameStart.

(** The block [if (scanState.phase === "scanning") { ... }] of [render];
    [scanY > maxY] is false when either is [NaN]. *)
Definition advanceScan (s : scene) (dt : float) : scene :=
  match scanPhase (scan s) with
  | complete => s
  | scanning =>
      let y := scanY (scan s) + scanSpeed (scan s) * dt in
      if maxY (scan s) <? y then
        {| scan := {| scanPhase := complete; scanY := y;
                      scanSpeed := scanSpeed (scan s); maxY := maxY (scan s) |};
           lastTime := lastTime s; scanLineY := y;
           scanLineVisible := false; autoRotate := true; pathwaysVisible := true |}
      else
        {| scan := {| scanPhase := scanning; scanY := y;
                      scanSpeed := scanSpeed (scan s); maxY := maxY (scan s) |};
           lastTime := lastTime s; scanLineY := y;
           scanLineVisible := true; autoRotate := autoRotate s;
           pathwaysVisible := pathwaysVisible s |}
  end.

Definition setLastTime (now : float) (s : scene) : scene :=
  {| scan := scan s; lastTime := now; scanLineY := scanLineY s;
     scanLineVisible := scanLineVisible s; autoRotate := autoRotate s;
     pathwaysVisible := pathwaysVisible s |}.

(** [render(now)] up to the end of the scan block; [frameStart] is the
    clock read at the start of the frame. *)
Definition render (s : scene) (now frameStart : float) : scene :=
  let now := effectiveNow now frameStart in
  let dt := (now - lastTime s) / 1000 in
  advanceScan (setLastTime now s) dt.

(** The mesh arrived: [scanState.scanY = bbox.min.y - 10],
    [scanState.maxY = bbox.max.y + 10]. *)
Definition meshLoaded (s : scene) (minY maxY' : float) : scene :=
  {| scan := {| scanPhase := scanPhase (scan s); scanY := minY - 10;
                scanSpeed := scanSpeed (scan s); maxY := maxY' + 10 |};
     lastTime := lastTime s; scanLineY := scanLineY s;
     scanLineVisible := scanLineVisible s;
     autoRotate := autoRotate s; pathwaysVisible := pathwaysVisible s |}.

(** The error callback of the loader-based scene:
    [scanState.phase = "complete"]. *)
Definition loadError (s : scene) : scene :=
  {| scan := {| scanPhase := complete; scanY := scanY (scan s);
                scanSpeed := scanSpeed (scan s); maxY := maxY (scan s) |};
     lastTime := lastTime s; scanLineY := scanLineY s;
     scanLineVisible := scanLineVisible s;
     autoRotate := autoRotate s; pathwaysVisible := pathwaysVisible s |}.

Inductive revision : Type := Worker | Loader.

Inductive event : Type :=
| Frame : float -> float -> event
| MeshLoaded : float -> float -> event
| MeshFailed : event.

Definition step (rev : revision) (s : scene) (e : event) : scene :=
  match e with
  | Frame now frameStart => render s now frameStart
  | MeshLoaded lo hi => meshLoaded s lo hi
  | MeshFailed => match rev with Worker => s | Loader => loadError s end
  end.

Definition run (rev : revision) (s : scene) (es : list event) : scene :=
  fold_left (step rev) es s.

Definition reachable (rev : revision) (s : scene) : Prop :=
  exists t0 es, s = run rev (initScene t0) es.

Definition completes (s s' : scene) : bool :=
  match scanPhase (scan s), scanPhase (scan s') with
  | scanning, complete => true
  | _, _ => false
  end.

Fixpoint transitions (rev : revision) (s : scene) (es : list event) : nat :=
  match es with
  | [] => 0
  | e :: rest =>
      (if completes s (step rev s e) then 1 else 0) + transitions rev (step rev s e) rest
  end%nat.

(** [scanState.scanY > scanState.maxY] *)
Definition above (s : scene) : bool := maxY (scan s) <? scanY (scan s).

Definition completes_only_in_frames (rev : revision) : Prop :=
  forall s e,
    reachable rev s ->
    scanPhase (scan s) = scanning ->
    scanPhase (scan (step rev s e)) = complete ->
    exists now frameStart, e = Frame now frameStart /\ above (step rev s e) = true.

Definition isFrame (e : event) : bool :=
  match e with Frame _ _ => true | _ => false end.

Definition flagsFollowPhase (s : scene) : Prop :=
  match scanPhase (scan s) with
  | scanning => pathwaysVisible s = false /\ autoRotate s = false
  | complete => pathwaysVisible s = true /\ autoRotate s = true /\
                scanLineVisible s = false
  end.

End Scan.

(* ================================================================= *)
(** * Properties of the host primitives *)

Module JsFacts.

Import Js.
Local Open Scope string_scope.

Lemma append_nil_r (s : string) : s ++ "" = s.
Proof. induction s as [|c s IH]; simpl; [reflexivity | now rewrite IH]. Qed.

Lemma append_eq_nil (s1 s2 : string) : s1 ++ s2 = "" -> s1 = "" /\ s2 = "".
Proof. destruct s1; simpl; [auto | discriminate]. Qed.

Lemma append_eq_cons (s1 s2 : string) c s :
  s1 ++ s2 = String c s ->
  (s1 = "" /\ s2 = String c s) \/ (exists s1', s1 = String c s1' /\ s = s1' ++ s2).
Proof.
  destruct s1 as [|a s1]; simpl; intros H.
  - left; auto.
  - right. injection H as -> <-. now exists s1.
Qed.

Lemma nullable_matches r : nullable r = true <-> matches r "".
Proof.
  split.
  - induction r; simpl; intros H; try discriminate.
    + constructor.
    + apply andb_true_iff in H as [H1 H2].
      change "" with ("" ++ ""). constructor; auto.
    + apply orb_true_iff in H as [H|H]; [apply m_alt_l | apply m_alt_r]; auto.
    + constructor.
  - intros H. remember "" as e eqn:He. induction H; simpl; subst; auto; try discriminate.
    + apply append_eq_nil in He as [-> ->]. rewrite IHmatches1, IHmatches2; auto.
    + rewrite IHmatches; auto.
    + rewrite IHmatches, orb_true_r; auto.
Qed.

Lemma cat_inv r1 r2 s :
  matches (Cat r1 r2) s ->
  exists s1 s2, s = s1 ++ s2 /\ matches r1 s1 /\ matches r2 s2.
Proof. intros H. inversion H; subst. eauto. Qed.

Lemma star_cons_inv r c s :
  matches (Star r) (String c s) ->
  exists s1 s2, s = s1 ++ s2 /\ matches r (String c s1) /\ matches (Star r) s2.
Proof.
  intros H. remember (Star r) as q eqn:Hq. remember (String c s) as w eqn:Hw.
  revert s Hw. induction H; intros s0 Hw; try discriminate.
  injection Hq as ->.
  apply append_eq_cons in Hw as [[-> ->] | (s1' & -> & ->)].
  - apply IHmatches2; auto.
  - now exists s1', s2.
Qed.

Lemma deriv_matches c r s : matches (deriv c r) s <-> matches r (String c s).
Proof.
  revert s. induction r as [| |p|r1 IH1 r2 IH2|r1 IH1 r2 IH2|r IH]; intros s; simpl.
  - split; intros H; inversion H.
  - split; intros H; inversion H.
  - destruct (p c) eqn:Hp; split; intros H; inversion H; subst.
    + now constructor.
    + constructor.
    + congruence.
  - assert (Hcat : forall s, matches (Cat (deriv c r1) r2) s ->
                             matches (Cat r1 r2) (String c s)).
    { intros s0 H. inversion H; subst.
      change (String c (s1 ++ s2)) with (String c s1 ++ s2).
      constructor; auto. now apply IH1. }
    split.
    + destruct (nullable r1) eqn:Hn; intros H.
      * inversion H; subst; auto.
        change (String c s) with ("" ++ String c s).
        constructor; [now apply nullable_matches | now apply IH2].
      * auto.
    + intros H. apply cat_inv in H as (s1 & s2 & Heq & H1 & H2).
      symmetry in Heq.
      apply append_eq_cons in Heq as [[-> ->] | (s1' & -> & ->)].
      * apply nullable_matches in H1. rewrite H1. apply m_alt_r. now apply IH2.
      * assert (matches (Cat (deriv c r1) r2) (s1' ++ s2))
          by (constructor; [now apply IH1 | auto]).
        destruct (nullable r1); [now apply m_alt_l | auto].
  - split; intros H; inversion H; subst.
    + apply m_alt_l. now apply IH1.
    + apply m_alt_r. now apply IH2.
    + apply m_alt_l. now apply IH1.
    + apply m_alt_r. now apply IH2.
  - split; intros H.
    + inversion H; subst.
      change (String c (s1 ++ s2)) with (String c s1 ++ s2).
      constructor; auto. now apply IH.
    + apply star_cons_inv in H as (s1 & s2 & -> & H1 & H2).
      constructor; auto. now apply IH.
Qed.

(** The derivative matcher decides membership in the pattern's language. *)
Theorem test_matches r s : test r s = true <-> matches r s.
Proof.
  revert r. induction s as [|c s IH]; intros r; simpl.
  - apply nullable_matches.
  - rewrite IH. apply deriv_matches.
Qed.

End JsFacts.

(* ================================================================= *)
(** * The email validator *)

Module WaitlistFacts.

Import Js Waitlist.
Local Open Scope string_scope.
Local Open Scope list_scope.

(** C8. The validator accepts [user@example.com] and rejects [user@],
    [@example.com], [plain-text] and the empty string; so does the
    validator of the client-only revision. *)
Theorem isValidEmail_examples :
  isValidEmail "user@example.com" = true /\
  isValidEmail "user@" = false /\
  isValidEmail "@example.com" = false /\
  isValidEmail "plain-text" = false /\
  isValidEmail "" = false /\
  isValidEmail_local "user@example.com" = true /\
  isValidEmail_local "user@" = false /\
  isValidEmail_local "@example.com" = false /\
  isValidEmail_local "plain-text" = false /\
  isValidEmail_local "" = false.
Proof. repeat split; reflexivity. Qed.

(** ** The submit listener *)

Lemma contains_add c l : contains c (add c l) = true.
Proof.
  unfold add. destruct (contains c l) eqn:E; [exact E|].
  unfold contains. rewrite existsb_app. cbn. now rewrite String.eqb_refl, orb_true_r.
Qed.

Lemma contains_remove c l : contains c (remove c l) = false.
Proof.
  unfold contains, remove. induction l as [|x l IH]; [reflexivity|].
  cbn. destruct (String.eqb c x) eqn:E; cbn; [exact IH | now rewrite E].
Qed.

Lemma cleared_input d :
  inputClasses (emailInput (clearFeedback d))
  = remove inputErrorClass (inputClasses (emailInput d)).
Proof. reflexivity. Qed.

Lemma onSubmit_invalid d :
  isValidEmail (trim (value (emailInput d))) = false ->
  rejects onSubmit errorText d /\ rejects onSubmit_deferred errorText d /\
  propagationStopped (onSubmit d) = true /\ timers (onSubmit d) = [].
Proof.
  intros H. unfold rejects, onSubmit, onSubmit_deferred. rewrite H.
  cbn [negb page defaultPrevented propagationStopped timers].
  unfold hasInputError, messageText.
  cbn [setRows onMessage showError onInputClasses emailInput inputClasses
       messageElement setDisplay setClasses setText textContent].
  rewrite contains_add. repeat split.
Qed.

Lemma onSubmit_local_invalid d :
  isValidEmail_local (trim (value (emailInput d))) = false ->
  rejects onSubmit_local errorText_local d.
Proof.
  intros H. unfold rejects, onSubmit_local. rewrite H.
  cbn [negb page defaultPrevented propagationStopped timers].
  unfold hasInputError, messageText.
  cbn [setRows onMessage showError onInputClasses emailInput inputClasses
       messageElement setDisplay setClasses setText textContent].
  rewrite contains_add. repeat split.
Qed.

Lemma onSubmit_valid d :
  isValidEmail (trim (value (emailInput d))) = true ->
  defaultPrevented (onSubmit d) = false /\
  hasInputError (page (onSubmit d)) = false /\
  messageText (page (onSubmit d)) = signingUpText /\
  timers (onSubmit d) = [(confirmDelay, showConfirmation)] /\
  messageText (fire (onSubmit d) (confirmDelay, showConfirmation)) = confirmText /\
  hasInputError (fire (onSubmit d) (confirmDelay, showConfirmation)) = false.
Proof.
  intros H. unfold onSubmit. rewrite H.
  cbn [negb page defaultPrevented propagationStopped timers fire snd].
  unfold hasInputError, messageText.
  cbn [setRows onMessage showSigningUp showConfirmation onInputClasses emailInput
       inputClasses messageElement setDisplay setClasses setText textContent].
  rewrite cleared_input, contains_remove. repeat split.
Qed.

Lemma onSubmit_deferred_valid d :
  isValidEmail (trim (value (emailInput d))) = true ->
  defaultPrevented (onSubmit_deferred d) = false /\
  hasInputError (page (onSubmit_deferred d)) = false /\
  messageText (page (onSubmit_deferred d)) = signingUpText /\
  timers (onSubmit_deferred d) = [].
Proof.
  intros H. unfold onSubmit_deferred. rewrite H.
  cbn [negb page defaultPrevented propagationStopped timers].
  unfold hasInputError, messageText.
  cbn [setRows onMessage showSigningUp onInputClasses emailInput
       inputClasses messageElement setDisplay setClasses setText textContent].
  rewrite cleared_input, contains_remove. repeat split.
Qed.

Lemma onSubmit_local_valid d :
  isValidEmail_local (trim (value (emailInput d))) = true ->
  defaultPrevented (onSubmit_local d) = true /\
  hasInputError (page (onSubmit_local d)) = false /\
  messageText (page (onSubmit_local d)) = confirmText_local /\
  timers (onSubmit_local d) = [].
Proof.
  intros H. unfold onSubmit_local. rewrite H.
  cbn [negb page defaultPrevented propagationStopped timers].
  unfold hasInputError, messageText.
  cbn [onMessage reset onInputClasses emailInput
       inputClasses messageElement setDisplay setClasses setText textContent].
  rewrite cleared_input, contains_remove. repeat split.
Qed.

(** The client-only listener shows its confirmation at once: it starts no
    timer, so no delay makes it confirm later. *)
Lemma local_confirms_at_once :
  let d := samplePage "user@example.com" in
  isValidEmail_local (trim (value (emailInput d))) = true /\
  messageText (page (onSubmit_local d)) = confirmText_local /\
  timers (onSubmit_local d) = [] /\
  ~ exists delay, confirmsLater onSubmit_local confirmText_local delay d.
Proof.
  cbv zeta. split; [reflexivity|]. split; [reflexivity|]. split; [reflexivity|].
  intros (delay & _ & t & Hin & _). exact Hin.
Qed.

(** C7, amended.  On an invalid email every revision of the listener
    blocks the default submission, marks the input and shows its fixed
    error text.  On a valid email the input is not marked; the listener of
    waitlistForm.js shows the interim text and starts the one timer that
    shows the confirmation after the fixed delay, the revision that leaves
    the confirmation to the provider only shows the interim text, and the
    client-only revision shows its confirmation at once. *)
Theorem submit_feedback (d : dom) :
  let email := trim (value (emailInput d)) in
  (isValidEmail email = false ->
     rejects onSubmit errorText d /\ rejects onSubmit_deferred errorText d) /\
  (isValidEmail_local email = false -> rejects onSubmit_local errorText_local d) /\
  (isValidEmail email = true ->
     confirmsLater onSubmit confirmText confirmDelay d /\
     messageText (page (onSubmit d)) = signingUpText /\
     timers (onSubmit d) = [(confirmDelay, showConfirmation)] /\
     hasInputError (fire (onSubmit d) (confirmDelay, showConfirmation)) = false /\
     hasInputError (page (onSubmit_deferred d)) = false /\
     messageText (page (onSubmit_deferred d)) = signingUpText /\
     timers (onSubmit_deferred d) = []) /\
  (isValidEmail_local email = true ->
     hasInputError (page (onSubmit_local d)) = false /\
     messageText (page (onSubmit_local d)) = confirmText_local /\
     timers (onSubmit_local d) = []).
Proof.
  cbv zeta. split; [|split; [|split]]; intros H.
  - now destruct (onSubmit_invalid d H) as (H1 & H2 & _).
  - now apply onSubmit_local_invalid.
  - destruct (onSubmit_valid d H) as (_ & H2 & H3 & H4 & H5 & H6).
    destruct (onSubmit_deferred_valid d H) as (_ & H7 & H8 & H9).
    repeat split; auto.
    exists (confirmDelay, showConfirmation). rewrite H4. repeat split; auto. now left.
  - now destruct (onSubmit_local_valid d H) as (_ & H2 & H3 & H4).
Qed.

(** An address without a domain is rejected, a full one is confirmed a
    second and a half later. *)
Lemma submit_feedback_witness :
  isValidEmail (trim (value (emailInput (samplePage "user@")))) = false /\
  rejects onSubmit errorText (samplePage "user@") /\
  isValidEmail (trim (value (emailInput (samplePage " user@example.com ")))) = true /\
  confirmsLater onSubmit confirmText 1500 (samplePage " user@example.com ").
Proof.
  split; [reflexivity|]. split.
  - apply (proj1 (submit_feedback (samplePage "user@"))). reflexivity.
  - split; [reflexivity|].
    apply (proj1 (proj2 (proj2 (submit_feedback (samplePage " user@example.com "))))).
    reflexivity.
Defined.

Example submit_invalid_page :
  page (onSubmit (samplePage "user@"))
  = {| messageElement := {| textContent := errorText; classList := [errorClass];
                            display := "block" |};
       emailInput := {| value := "user@"; defaultValue := "";
                        inputClasses := [inputErrorClass] |};
       formRow := Some {| textContent := ""; classList := []; display := "" |};
       noteElement := Some {| textContent := ""; classList := []; display := "" |} |}.
Proof. reflexivity. Qed.

Example submit_valid_page :
  fire (onSubmit (samplePage "user@example.com")) (confirmDelay, showConfirmation)
  = {| messageElement := {| textContent := confirmText; classList := [successClass];
                            display := "block" |};
       emailInput := {| value := "user@example.com"; defaultValue := "";
                        inputClasses := [] |};
       formRow := Some {| textContent := ""; classList := []; display := "none" |};
       noteElement := Some {| textContent := ""; classList := []; display := "none" |} |}.
Proof. reflexivity. Qed.

End WaitlistFacts.

(* ================================================================= *)
(** * The scroll intensity *)

Module ScrollFacts.

Import Scroll.
Local Open Scope Q_scope.

Lemma vh_pos (innerHeight : N) : 0 < vh innerHeight.
Proof.
  unfold vh. destruct (N.eqb_spec innerHeight 0) as [|Hne]; [reflexivity|].
  unfold Qlt; simpl. lia.
Qed.

(** For a viewport that has a height, [vh] is that height. *)
Lemma vh_innerHeight (innerHeight : N) :
  innerHeight <> 0%N -> vh innerHeight = inject_Z (Z.of_N innerHeight).
Proof. unfold vh. now destruct (N.eqb_spec innerHeight 0). Qed.

Lemma distance_nonneg rect innerHeight : 0 <= distance rect innerHeight.
Proof. apply Qabs_nonneg. Qed.

Section Ratio.

Variables d h : Q.
Hypothesis h_pos : 0 < h.
Hypothesis d_nonneg : 0 <= d.

Lemma ratio_mult : d / h * h == d.
Proof using h_pos d_nonneg. field. lra. Qed.

Lemma ratio_nonneg : 0 <= d / h.
Proof using h_pos d_nonneg. apply Qle_shift_div_l; lra. Qed.

Lemma ratio_zero : d / h == 0 <-> d == 0.
Proof using h_pos d_nonneg.
  split; intros H.
  - rewrite <- ratio_mult, H. ring.
  - rewrite H. field. lra.
Qed.

Lemma ratio_ge_1 : h <= d -> 1 <= d / h.
Proof using h_pos d_nonneg. intros H. apply Qle_shift_div_l; lra. Qed.

Lemma min_ratio_bounds : 0 <= Qmin (d / h) 1 <= 1.
Proof using h_pos d_nonneg.
  pose proof ratio_nonneg.
  destruct (Q.min_spec (d / h) 1) as [[H1 ->] | [H1 ->]]; lra.
Qed.

Lemma min_ratio_zero : Qmin (d / h) 1 == 0 <-> d == 0.
Proof using h_pos d_nonneg.
  rewrite <- ratio_zero.
  destruct (Q.min_spec (d / h) 1) as [[H1 ->] | [H1 ->]]; [reflexivity|].
  split; intros H; lra.
Qed.

Lemma min_ratio_one : h <= d -> Qmin (d / h) 1 == 1.
Proof using h_pos d_nonneg.
  intros H. apply ratio_ge_1 in H.
  destruct (Q.min_spec (d / h) 1) as [[H1 ->] | [H1 ->]]; lra.
Qed.

End Ratio.

Lemma half_vh_pos innerHeight : 0 < vh innerHeight / 2.
Proof. pose proof (vh_pos innerHeight). apply Qlt_shift_div_l; lra. Qed.

Example intensity_centred :
  intensity {| top := 100; height := 200 |} 400 == 1.
Proof. reflexivity. Qed.

Example pulse_centred : pulse (update {| top := 100; height := 200 |} 400) = true.
Proof. reflexivity. Qed.

End ScrollFacts.

(* ================================================================= *)
(** * Rounding in binary64

    What the proofs below need of the library's specification of the
    primitive operations: how [binary_round_aux] shifts and rounds, that
    rounding never crosses a number of the format, and what that gives for
    [1 - x] and [x / y]. *)

Module Binary64Facts.

Import Binary64.
Local Open Scope Z_scope.

Lemma digits2_bounds (m : positive) :
  2 ^ (Zpos (digits2_pos m) - 1) <= Zpos m < 2 ^ Zpos (digits2_pos m).
Proof.
  induction m as [p IH|p IH|]; cbn [digits2_pos].
  - rewrite Pos2Z.inj_succ.
    replace (Z.succ (Zpos (digits2_pos p)) - 1) with (Z.succ (Zpos (digits2_pos p) - 1)) by lia.
    rewrite !Z.pow_succ_r by lia. lia.
  - rewrite Pos2Z.inj_succ.
    replace (Z.succ (Zpos (digits2_pos p)) - 1) with (Z.succ (Zpos (digits2_pos p) - 1)) by lia.
    rewrite !Z.pow_succ_r by lia. lia.
  - cbn. lia.
Qed.

Lemma Zdigits2_bounds (m : Z) :
  0 < m -> 0 < Zdigits2 m /\ 2 ^ (Zdigits2 m - 1) <= m < 2 ^ Zdigits2 m.
Proof.
  intros H. destruct m as [|p|p]; try lia. cbn [Zdigits2].
  split; [lia | apply digits2_bounds].
Qed.

Lemma shr_1_m (mrs : shr_record) :
  0 <= shr_m mrs -> shr_m (shr_1 mrs) = shr_m mrs / 2.
Proof.
  destruct mrs as [m r s]. cbn [shr_m]. intros H.
  destruct m as [|p|p]; [reflexivity| |lia].
  destruct p as [p|p|]; cbn [shr_1 shr_m].
  - apply Z.div_unique with 1; lia.
  - apply Z.div_unique with 0; lia.
  - reflexivity.
Qed.

Lemma iter_shr_m (p : positive) (mrs : shr_record) :
  0 <= shr_m mrs -> shr_m (iter_pos shr_1 p mrs) = shr_m mrs / 2 ^ Zpos p.
Proof.
  revert mrs. induction p as [p IH|p IH|]; intros mrs H; cbn [iter_pos].
  - assert (H1 : 0 <= shr_m (shr_1 mrs)) by (rewrite shr_1_m by assumption; apply Z.div_pos; lia).
    assert (H2 : 0 <= shr_m (iter_pos shr_1 p (shr_1 mrs)))
      by (rewrite IH by assumption; apply Z.div_pos; lia).
    rewrite IH, IH, shr_1_m by assumption.
    rewrite !Z.div_div by lia. f_equal.
    replace (Z.pos p~1) with (1 + Z.pos p + Z.pos p) by lia.
    rewrite !Z.pow_add_r by lia. change (2 ^ 1) with 2. ring.
  - assert (H2 : 0 <= shr_m (iter_pos shr_1 p mrs))
      by (rewrite IH by assumption; apply Z.div_pos; lia).
    rewrite IH, IH by assumption.
    rewrite !Z.div_div by lia. f_equal.
    replace (Z.pos p~0) with (Z.pos p + Z.pos p) by lia.
    rewrite !Z.pow_add_r by lia. ring.
  - rewrite shr_1_m by assumption. reflexivity.
Qed.


Lemma shr_1_exact (mrs : shr_record) :
  0 <= shr_m mrs -> exact mrs -> (2 | shr_m mrs) -> exact (shr_1 mrs).
Proof.
  destruct mrs as [m r s]. unfold exact. cbn [shr_m shr_r shr_s].
  intros H [-> ->] [k Hk].
  destruct m as [|p|p]; [split; reflexivity| |lia].
  destruct p as [p|p|]; cbn; try (split; reflexivity); exfalso; lia.
Qed.

Lemma divide_div (a b m : Z) : 0 < a -> (a * b | m) -> (b | m / a).
Proof.
  intros Ha [k ->]. exists k.
  replace (k * (a * b)) with (k * b * a) by ring. now rewrite Z.div_mul by lia.
Qed.

Lemma iter_shr_exact (p : positive) (mrs : shr_record) :
  0 <= shr_m mrs -> exact mrs -> (2 ^ Zpos p | shr_m mrs) ->
  exact (iter_pos shr_1 p mrs).
Proof.
  revert mrs. induction p as [p IH|p IH|]; intros mrs H He Hd; cbn [iter_pos].
  - replace (Z.pos p~1) with (1 + Z.pos p + Z.pos p) in Hd by lia.
    rewrite !Z.pow_add_r in Hd by lia. change (2 ^ 1) with 2 in Hd.
    assert (P : 0 < 2 ^ Z.pos p) by (apply Z.pow_pos_nonneg; lia).
    assert (H2 : (2 | shr_m mrs)).
    { destruct Hd as [k ->]. exists (k * 2 ^ Z.pos p * 2 ^ Z.pos p). ring. }
    assert (E1 : exact (shr_1 mrs)) by now apply shr_1_exact.
    assert (M1 : shr_m (shr_1 mrs) = shr_m mrs / 2) by now apply shr_1_m.
    assert (N1 : 0 <= shr_m (shr_1 mrs)) by (rewrite M1; apply Z.div_pos; lia).
    assert (D1 : (2 ^ Z.pos p * 2 ^ Z.pos p | shr_m (shr_1 mrs))).
    { rewrite M1. apply divide_div; [lia|]. now rewrite Z.mul_assoc. }
    assert (D1' : (2 ^ Z.pos p | shr_m (shr_1 mrs))).
    { eapply Z.divide_trans; [|exact D1]. apply Z.divide_factor_l. }
    assert (E2 : exact (iter_pos shr_1 p (shr_1 mrs))) by now apply IH.
    assert (M2 : shr_m (iter_pos shr_1 p (shr_1 mrs)) = shr_m (shr_1 mrs) / 2 ^ Z.pos p)
      by now apply iter_shr_m.
    apply IH; [rewrite M2; apply Z.div_pos; lia | exact E2 |].
    rewrite M2. now apply divide_div.
  - replace (Z.pos p~0) with (Z.pos p + Z.pos p) in Hd by lia.
    rewrite !Z.pow_add_r in Hd by lia.
    assert (P : 0 < 2 ^ Z.pos p) by (apply Z.pow_pos_nonneg; lia).
    assert (D1' : (2 ^ Z.pos p | shr_m mrs)).
    { eapply Z.divide_trans; [|exact Hd]. apply Z.divide_factor_l. }
    assert (E2 : exact (iter_pos shr_1 p mrs)) by now apply IH.
    assert (M2 : shr_m (iter_pos shr_1 p mrs) = shr_m mrs / 2 ^ Z.pos p)
      by now apply iter_shr_m.
    apply IH; [rewrite M2; apply Z.div_pos; lia | exact E2 |].
    rewrite M2. now apply divide_div.
  - apply shr_1_exact; assumption.
Qed.

Lemma shr_record_of_loc_m (m : Z) (l : location) : shr_m (shr_record_of_loc m l) = m.
Proof. destruct l as [|[]]; reflexivity. Qed.

Lemma loc_of_shr_record_of_loc (m : Z) (l : location) :
  loc_of_shr_record (shr_record_of_loc m l) = l.
Proof. destruct l as [|[]]; reflexivity. Qed.

Lemma shr_spec (m : Z) (l : location) (e k : Z) :
  0 <= m ->
  shr_m (fst (shr (shr_record_of_loc m l) e k)) = m / 2 ^ Z.max 0 k /\
  snd (shr (shr_record_of_loc m l) e k) = e + Z.max 0 k.
Proof.
  intros H. pose proof (shr_record_of_loc_m m l) as E.
  destruct k as [|p|p]; cbn [shr fst snd].
  - rewrite E. cbn. rewrite Z.div_1_r. lia.
  - rewrite iter_shr_m by (rewrite E; assumption). rewrite E.
    replace (Z.max 0 (Z.pos p)) with (Z.pos p) by lia. auto.
  - rewrite E. replace (Z.max 0 (Z.neg p)) with 0 by lia. cbn. rewrite Z.div_1_r. lia.
Qed.

Lemma shr_exact (m e k : Z) :
  0 <= m -> (2 ^ Z.max 0 k | m) ->
  loc_of_shr_record (fst (shr (shr_record_of_loc m loc_Exact) e k)) = loc_Exact.
Proof.
  intros H Hd. destruct k as [|p|p]; cbn [shr fst]; try reflexivity.
  replace (Z.max 0 (Z.pos p)) with (Z.pos p) in Hd by lia.
  destruct (@iter_shr_exact p (shr_record_of_loc m loc_Exact)) as [Hr Hs];
    [exact H | split; reflexivity | exact Hd |].
  destruct (iter_pos shr_1 p (shr_record_of_loc m loc_Exact)) as [m' r s].
  cbn in Hr, Hs. subst. reflexivity.
Qed.

Lemma rne_bounds (m : Z) (l : location) :
  m <= round_nearest_even m l <= m + 1.
Proof. destruct l as [|[]]; cbn; try lia. destruct (Z.even m); lia. Qed.

Lemma bounded_canonical (m : positive) (e : Z) :
  bounded prec emax m e = true ->
  -1074 <= e <= 971 /\ Zpos (digits2_pos m) <= 53 /\
  (-1074 < e -> Zpos (digits2_pos m) = 53).
Proof.
  unfold bounded, canonical_mantissa, fexp, SpecFloat.emin, prec, emax.
  intros H. apply andb_true_iff in H as [H1 H2].
  apply Z.eqb_eq in H1. apply Z.leb_le in H2. lia.
Qed.

Lemma pow2_53 : 2 ^ 53 = 9007199254740992.
Proof. reflexivity. Qed.

Lemma pow2_52 : 2 ^ 52 = 4503599627370496.
Proof. reflexivity. Qed.

Lemma bounded_mantissa (m : positive) (e : Z) :
  bounded prec emax m e = true ->
  Zpos m < 2 ^ 53 /\ (-1074 < e -> 2 ^ 52 <= Zpos m).
Proof.
  intros H. destruct (@bounded_canonical m e H) as (He & Hd & Hn).
  pose proof (digits2_bounds m) as [Hlo Hhi]. split.
  - eapply Z.lt_le_trans; [exact Hhi|]. apply Z.pow_le_mono_r; lia.
  - intros Hgt. rewrite (Hn Hgt) in Hlo. exact Hlo.
Qed.

Lemma pow2_pos (n : Z) : 0 < 2 ^ n \/ n < 0.
Proof. destruct (Z_lt_le_dec n 0); [now right | left; apply Z.pow_pos_nonneg; lia]. Qed.

Lemma pow2_split (a b : Z) : 0 <= a -> a <= b -> 2 ^ b = 2 ^ a * 2 ^ (b - a).
Proof. intros Ha Hab. rewrite <- Z.pow_add_r by lia. f_equal. lia. Qed.

Lemma pow2_ge_2 (n : Z) : 1 <= n -> 2 <= 2 ^ n.
Proof.
  intros H. change 2 with (2 ^ 1) at 1. apply Z.pow_le_mono_r; lia.
Qed.

Lemma scale_lt (m1 m2 A B : Z) :
  0 < A -> 2 <= B -> m1 < 2 * m2 -> 0 < m2 -> m1 * A < m2 * (A * B).
Proof.
  intros HA HB Hm H2.
  assert (H1 : m1 * A < 2 * m2 * A) by (apply Z.mul_lt_mono_pos_r; lia).
  assert (H3 : 0 <= m2 * A) by (apply Z.mul_nonneg_nonneg; lia).
  assert (H4 : m2 * A * 2 <= m2 * A * B) by (apply Z.mul_le_mono_nonneg_l; lia).
  lia.
Qed.

Lemma compare_val (m1 : positive) (e1 : Z) (m2 : positive) (e2 : Z) :
  bounded prec emax m1 e1 = true -> bounded prec emax m2 e2 = true ->
  SFcompare (S754_finite false m1 e1) (S754_finite false m2 e2)
  = Some (val (Zpos m1) e1 ?= val (Zpos m2) e2).
Proof.
  intros B1 B2.
  destruct (@bounded_canonical m1 e1 B1) as (He1 & _ & _).
  destruct (@bounded_canonical m2 e2 B2) as (He2 & _ & _).
  destruct (@bounded_mantissa m1 e1 B1) as (Hu1 & Hl1).
  destruct (@bounded_mantissa m2 e2 B2) as (Hu2 & Hl2).
  rewrite pow2_53, pow2_52 in *.
  cbn [SFcompare]. f_equal. unfold val.
  destruct (Z.compare_spec e1 e2) as [E|E|E].
  - subst e2.
    change (Pos.compare_cont Eq m1 m2) with (Z.pos m1 ?= Z.pos m2).
    apply Zmult_compare_compat_r. apply Z.lt_gt. apply Z.pow_pos_nonneg; lia.
  - symmetry. apply Z.compare_lt_iff.
    rewrite (@pow2_split (e1 + 1074) (e2 + 1074)) by lia.
    assert (P : 0 < 2 ^ (e1 + 1074)) by (apply Z.pow_pos_nonneg; lia).
    assert (Q : 2 <= 2 ^ (e2 + 1074 - (e1 + 1074))) by (apply pow2_ge_2; lia).
    specialize (Hl2 ltac:(lia)). apply scale_lt; lia.
  - symmetry. apply Z.compare_gt_iff.
    rewrite (@pow2_split (e2 + 1074) (e1 + 1074)) by lia.
    assert (P : 0 < 2 ^ (e2 + 1074)) by (apply Z.pow_pos_nonneg; lia).
    assert (Q : 2 <= 2 ^ (e1 + 1074 - (e2 + 1074))) by (apply pow2_ge_2; lia).
    specialize (Hl1 ltac:(lia)). apply Z.compare_lt_iff. apply scale_lt; lia.
Qed.

(** What [binary_round_aux] computes, step by step. *)
Lemma bra_unfold (sx : bool) (mx ex : Z) (lx : location) :
  0 <= mx ->
  exists l1,
    let K1 := Z.max 0 (fexp prec emax (Zdigits2 mx + ex) - ex) in
    let e1 := ex + K1 in
    let m1 := mx / 2 ^ K1 in
    let m2 := round_nearest_even m1 l1 in
    let K2 := Z.max 0 (fexp prec emax (Zdigits2 m2 + e1) - e1) in
    let m3 := m2 / 2 ^ K2 in
    let e3 := e1 + K2 in
    (lx = loc_Exact -> (2 ^ K1 | mx) -> l1 = loc_Exact) /\
    binary_round_aux prec emax sx mx ex lx =
    match m3 with
    | Z0 => S754_zero sx
    | Zpos m => if e3 <=? emax - prec then S754_finite sx m e3 else S754_infinity sx
    | Zneg _ => S754_nan
    end.
Proof.
  intros H. unfold binary_round_aux, shr_fexp.
  set (k1 := fexp prec emax (Zdigits2 mx + ex) - ex).
  destruct (@shr_spec mx lx ex k1 H) as [Hm He].
  pose proof (@shr_exact mx ex k1 H) as Hx.
  destruct (shr (shr_record_of_loc mx lx) ex k1) as [mrs1 e1] eqn:E1.
  cbn [fst snd] in Hm, He.
  exists (loc_of_shr_record mrs1). cbv zeta.
  split.
  - intros -> Hd. rewrite E1 in Hx. cbn [fst] in Hx. now apply Hx.
  - rewrite <- Hm, <- He.
    set (m2 := round_nearest_even (shr_m mrs1) (loc_of_shr_record mrs1)).
    assert (N2 : 0 <= m2).
    { pose proof (rne_bounds (shr_m mrs1) (loc_of_shr_record mrs1)) as B.
      fold m2 in B. assert (0 <= shr_m mrs1) by (rewrite Hm; apply Z.div_pos; [lia|];
        apply Z.pow_pos_nonneg; lia). lia. }
    set (k2 := fexp prec emax (Zdigits2 m2 + e1) - e1).
    destruct (@shr_spec m2 loc_Exact e1 k2 N2) as [Hm' He'].
    destruct (shr (shr_record_of_loc m2 loc_Exact) e1 k2) as [mrs2 e2] eqn:E2.
    cbn [fst snd] in Hm', He'. rewrite <- Hm', <- He'. reflexivity.
Qed.

(** ** Values *)

Lemma val_scale_pos (e : Z) : -1074 <= e -> 0 < 2 ^ (e + 1074).
Proof. intros H. apply Z.pow_pos_nonneg; lia. Qed.

Lemma val_mono (m m' e : Z) : -1074 <= e -> m <= m' -> val m e <= val m' e.
Proof.
  intros He H. unfold val. apply Z.mul_le_mono_nonneg_r; [|assumption].
  pose proof (val_scale_pos He). lia.
Qed.

Lemma val_cancel (m m' e : Z) : -1074 <= e -> val m e <= val m' e -> m <= m'.
Proof.
  intros He H. unfold val in H.
  apply Z.mul_le_mono_pos_r in H; [assumption | now apply val_scale_pos].
Qed.

Lemma val_shift (m e K : Z) : -1074 <= e -> 0 <= K -> val (m * 2 ^ K) e = val m (e + K).
Proof.
  intros He HK. unfold val.
  replace (e + K + 1074) with (K + (e + 1074)) by lia.
  rewrite (Z.pow_add_r 2 K (e + 1074)) by lia. ring.
Qed.

Lemma div_floor (m K : Z) : 0 <= K -> m / 2 ^ K * 2 ^ K <= m.
Proof.
  intros HK. assert (P : 0 < 2 ^ K) by (apply Z.pow_pos_nonneg; lia).
  rewrite Z.mul_comm. apply Z.mul_div_le. exact P.
Qed.

Lemma val_div_le (m e K : Z) :
  -1074 <= e -> 0 <= K -> val (m / 2 ^ K) (e + K) <= val m e.
Proof.
  intros He HK. rewrite <- val_shift by assumption.
  apply val_mono; [assumption | now apply div_floor].
Qed.

Lemma val_lt_pow (m e D : Z) :
  -1074 <= e -> 0 <= D -> m < 2 ^ D -> val m e < 2 ^ (D + e + 1074).
Proof.
  intros He HD H. unfold val.
  replace (D + e + 1074) with (D + (e + 1074)) by lia.
  rewrite (Z.pow_add_r 2 D (e + 1074)) by lia.
  apply Z.mul_lt_mono_pos_r; [now apply val_scale_pos | assumption].
Qed.

Lemma val_ge_pow (m e D : Z) :
  -1074 <= e -> 0 <= D -> 2 ^ D <= m -> 2 ^ (D + e + 1074) <= val m e.
Proof.
  intros He HD H. unfold val.
  replace (D + e + 1074) with (D + (e + 1074)) by lia.
  rewrite (Z.pow_add_r 2 D (e + 1074)) by lia.
  apply Z.mul_le_mono_nonneg_r; [|assumption].
  pose proof (val_scale_pos He). lia.
Qed.

(** The value of a canonical number is below [2^(53+e)], and at least
    [2^(52+e)] when the number is normal. *)
Lemma canonical_val (m : positive) (e : Z) :
  bounded prec emax m e = true ->
  -1074 <= e <= 971 /\
  0 < val (Zpos m) e < 2 ^ (53 + e + 1074) /\
  (-1074 < e -> 2 ^ (52 + e + 1074) <= val (Zpos m) e).
Proof.
  intros B. destruct (@bounded_canonical m e B) as (He & _ & _).
  destruct (@bounded_mantissa m e B) as (Hu & Hl).
  split; [exact He|]. split; [split|].
  - unfold val. apply Z.mul_pos_pos; [lia | apply val_scale_pos; lia].
  - apply val_lt_pow; lia.
  - intros Hn. apply val_ge_pow; [lia | lia | now apply Hl].
Qed.

Lemma div_normal (m D : Z) : 53 < D -> 2 ^ (D - 1) <= m -> 2 ^ 52 <= m / 2 ^ (D - 53).
Proof.
  intros HD H. apply Z.div_le_lower_bound; [apply Z.pow_pos_nonneg; lia|].
  rewrite <- Z.pow_add_r by lia. replace (D - 53 + 52) with (D - 1) by lia. exact H.
Qed.

(** The shift of [shr_fexp], for a positive mantissa. *)
Lemma shift_amount (m e : Z) :
  0 < m -> -1074 <= e ->
  let D := Zdigits2 m in
  let K := Z.max 0 (fexp prec emax (D + e) - e) in
  (K = 0 /\ (fexp prec emax (D + e) <= e)) \/
  (0 < K /\ e + K = fexp prec emax (D + e) /\
   ((e + K = -1074) \/ (e + K = D + e - 53 /\ 53 < D /\ -1074 < e + K))).
Proof.
  intros Hm He D K. unfold K, fexp, SpecFloat.emin, prec, emax. lia.
Qed.

(** Shifting keeps a number at or above a canonical number below it. *)
Lemma shift_lower (m e : Z) (my : positive) (ey : Z) :
  0 < m -> -1074 <= e ->
  bounded prec emax my ey = true ->
  val (Zpos my) ey <= val m e ->
  let K := Z.max 0 (fexp prec emax (Zdigits2 m + e) - e) in
  val (Zpos my) ey <= val (m / 2 ^ K) (e + K) /\ 0 < m / 2 ^ K /\ -1074 <= e + K.
Proof.
  intros Hm He B Hle K.
  destruct (@canonical_val my ey B) as (Hey & [Hy0 Hy1] & Hy2).
  destruct (@Zdigits2_bounds m Hm) as (HD & Hlo & Hhi).
  assert (Hpos : val (Zpos my) ey <= val (m / 2 ^ K) (e + K) -> 0 < m / 2 ^ K).
  { intros H. destruct (Z_lt_le_dec 0 (m / 2 ^ K)) as [|Hn]; [assumption|].
    exfalso. assert (val (m / 2 ^ K) (e + K) <= val 0 (e + K))
      by (apply val_mono; [unfold K; lia | exact Hn]).
    unfold val in H0 at 2. lia. }
  assert (Hall : val (Zpos my) ey <= val (m / 2 ^ K) (e + K)).
  { pose proof (@shift_amount m e Hm He) as SA. cbv zeta in SA. fold K in SA.
    destruct SA as [[K0 _] | (Kpos & EK & Hcase)].
    - rewrite K0. cbn. rewrite Z.div_1_r, Z.add_0_r. exact Hle.
    - destruct (Z_le_gt_dec (e + K) ey) as [Hal|Hgt].
      + (* the bound is a multiple of the new unit *)
        set (Y := Z.pos my * 2 ^ (ey - (e + K))).
        assert (EY : val Y (e + K) = val (Z.pos my) ey).
        { unfold Y. rewrite val_shift by lia. f_equal. lia. }
        assert (EK' : val (Y * 2 ^ K) e = val Y (e + K)) by (apply val_shift; lia).
        rewrite <- EY in Hle |- *. rewrite <- EK' in Hle.
        apply val_cancel in Hle; [|assumption].
        apply val_mono; [lia|].
        apply Z.div_le_lower_bound; [apply Z.pow_pos_nonneg; lia|].
        rewrite Z.mul_comm. exact Hle.
      + (* the shifted number is normal and in a higher binade *)
        destruct Hcase as [Hc | (Hc & H53 & Hn)]; [lia|].
        assert (HK : K = Zdigits2 m - 53) by lia.
        assert (H52 : 2 ^ 52 <= m / 2 ^ K) by (rewrite HK; now apply div_normal).
        assert (V : 2 ^ (52 + (e + K) + 1074) <= val (m / 2 ^ K) (e + K))
          by (apply val_ge_pow; lia).
        assert (W : 2 ^ (53 + ey + 1074) <= 2 ^ (52 + (e + K) + 1074))
          by (apply Z.pow_le_mono_r; lia).
        lia. }
  split; [exact Hall|]. split; [now apply Hpos | unfold K; lia].
Qed.

(** Rounding keeps a number at or above a canonical number below it. *)
Lemma bra_lower (mx ex : Z) (lx : location) (my : positive) (ey : Z) :
  0 <= mx -> -1074 <= ex ->
  bounded prec emax my ey = true ->
  val (Zpos my) ey <= val mx ex ->
  match binary_round_aux prec emax false mx ex lx with
  | S754_finite false m e => val (Zpos my) ey <= val (Zpos m) e
  | S754_infinity false => True
  | _ => False
  end.
Proof.
  intros H0 He B Hle.
  destruct (@canonical_val my ey B) as (Hey & [Hy0 Hy1] & Hy2).
  assert (Hm : 0 < mx).
  { destruct (Z_lt_le_dec 0 mx) as [|Hn]; [assumption|].
    assert (mx = 0) by lia. subst mx. unfold val in Hle at 2. lia. }
  destruct (@bra_unfold false mx ex lx H0) as (l1 & _ & E). cbv zeta in E. rewrite E. clear E.
  pose proof (@shift_lower mx ex my ey Hm He B Hle) as S1. cbv zeta in S1.
  set (K1 := Z.max 0 (fexp prec emax (Zdigits2 mx + ex) - ex)) in *.
  set (e1 := ex + K1) in *. set (m1 := mx / 2 ^ K1) in *.
  destruct S1 as (L1 & P1 & E1).
  set (m2 := round_nearest_even m1 l1) in *.
  pose proof (rne_bounds m1 l1) as R. fold m2 in R.
  assert (L2 : val (Z.pos my) ey <= val m2 e1).
  { eapply Z.le_trans; [exact L1|]. apply val_mono; lia. }
  assert (P2 : 0 < m2) by lia.
  pose proof (@shift_lower m2 e1 my ey P2 E1 B L2) as S2. cbv zeta in S2.
  set (K2 := Z.max 0 (fexp prec emax (Zdigits2 m2 + e1) - e1)) in *.
  destruct S2 as (L3 & P3 & E3).
  destruct (m2 / 2 ^ K2) as [|p|p]; try lia.
  destruct (e1 + K2 <=? emax - prec); [exact L3 | exact I].
Qed.

Lemma bra_cases (sx : bool) (mx ex : Z) (lx : location) :
  0 <= mx ->
  binary_round_aux prec emax sx mx ex lx = S754_zero sx \/
  binary_round_aux prec emax sx mx ex lx = S754_infinity sx \/
  exists m e, binary_round_aux prec emax sx mx ex lx = S754_finite sx m e.
Proof.
  intros H0.
  destruct (@bra_unfold sx mx ex lx H0) as (l1 & _ & E). cbv zeta in E. rewrite E. clear E.
  set (K1 := Z.max 0 (fexp prec emax (Zdigits2 mx + ex) - ex)).
  set (m2 := round_nearest_even (mx / 2 ^ K1) l1).
  pose proof (rne_bounds (mx / 2 ^ K1) l1) as R. fold m2 in R.
  assert (0 <= mx / 2 ^ K1) by (apply Z.div_pos; [lia | apply Z.pow_pos_nonneg; unfold K1; lia]).
  set (K2 := Z.max 0 (fexp prec emax (Zdigits2 m2 + (ex + K1)) - (ex + K1))).
  assert (0 <= m2 / 2 ^ K2) by (apply Z.div_pos; [lia | apply Z.pow_pos_nonneg; unfold K2; lia]).
  destruct (m2 / 2 ^ K2) as [|p|p]; [now left| |lia].
  destruct (ex + K1 + K2 <=? emax - prec); [right; right; eauto | right; now left].
Qed.

(** Rounding an exact number keeps it at or below a canonical number
    above it; [ex <= fexp ...] says that the number has no more digits than
    it needs. *)
Lemma bra_upper (mx ex : Z) (my : positive) (ey : Z) :
  0 <= mx -> -1074 <= ex ->
  ex <= fexp prec emax (Zdigits2 mx + ex) ->
  bounded prec emax my ey = true ->
  val mx ex <= val (Zpos my) ey ->
  match binary_round_aux prec emax false mx ex loc_Exact with
  | S754_zero false => True
  | S754_finite false m e => val (Zpos m) e <= val (Zpos my) ey
  | _ => False
  end.
Proof.
  intros H0 He HP B Hle.
  destruct (@canonical_val my ey B) as (Hey & [Hy0 Hy1] & Hy2).
  destruct (@bra_unfold false mx ex loc_Exact H0) as (l1 & Hex & E).
  cbv zeta in E, Hex. rewrite E. clear E.
  set (K1 := Z.max 0 (fexp prec emax (Zdigits2 mx + ex) - ex)) in *.
  set (e1 := ex + K1) in *. set (m1 := mx / 2 ^ K1) in *.
  set (m2 := round_nearest_even m1 l1) in *.
  pose proof (rne_bounds m1 l1) as R. fold m2 in R.
  assert (HK1 : 0 <= K1) by (unfold K1; lia).
  assert (N1 : 0 <= m1) by (apply Z.div_pos; [lia | apply Z.pow_pos_nonneg; lia]).
  assert (V1 : val m1 e1 <= val mx ex) by (apply val_div_le; lia).
  assert (HE1 : -1074 <= e1) by (unfold e1; lia).
  (* the rounded mantissa is still at or below the bound *)
  assert (A : e1 <= ey /\ val m2 e1 <= val (Z.pos my) ey).
  { destruct (Z.eq_dec mx 0) as [Z0|NZ].
    - subst mx. assert (m1 = 0) by (unfold m1; apply Z.div_0_l; apply Z.pow_nonzero; lia).
      assert (l1 = loc_Exact) by (apply Hex; [reflexivity | apply Z.divide_0_r]).
      assert (m2 = 0) by (unfold m2; rewrite H, H1; reflexivity).
      assert (K1 = 0) by (unfold K1, fexp, SpecFloat.emin, prec, emax; cbn [Zdigits2]; lia).
      unfold fexp, SpecFloat.emin, prec, emax in HP. cbn [Zdigits2] in HP.
      split; [unfold e1; lia|]. rewrite H2. unfold val at 1. lia.
    - assert (Hm : 0 < mx) by lia.
      destruct (@Zdigits2_bounds mx Hm) as (HD & Hlo & Hhi).
      assert (EK : e1 = fexp prec emax (Zdigits2 mx + ex)) by (unfold e1, K1; lia).
      assert (Hal : e1 <= ey).
      { destruct (Z_le_gt_dec e1 ey) as [|Hgt]; [assumption|]. exfalso.
        assert (Hn : e1 = Zdigits2 mx + ex - 53)
          by (rewrite EK in *; unfold fexp, SpecFloat.emin, prec, emax in *; lia).
        assert (H52 : 2 ^ 52 <= m1).
        { destruct (Z.eq_dec K1 0) as [K0|KN].
          - assert (D53 : Zdigits2 mx = 53) by (unfold e1 in Hn; lia).
            unfold m1. rewrite K0, Z.pow_0_r, Z.div_1_r. rewrite D53 in Hlo. exact Hlo.
          - unfold m1. replace K1 with (Zdigits2 mx - 53) by (unfold e1 in Hn; lia).
            apply div_normal; [unfold e1 in Hn; lia | exact Hlo]. }
        assert (V : 2 ^ (52 + e1 + 1074) <= val m1 e1) by (apply val_ge_pow; lia).
        assert (W : 2 ^ (53 + ey + 1074) <= 2 ^ (52 + e1 + 1074))
          by (apply Z.pow_le_mono_r; lia).
        lia. }
      split; [exact Hal|].
      set (Y := Z.pos my * 2 ^ (ey - e1)).
      assert (EY : val Y e1 = val (Z.pos my) ey).
      { unfold Y. rewrite val_shift by lia. f_equal. lia. }
      rewrite <- EY in *.
      assert (M1 : m1 <= Y) by (apply (@val_cancel m1 Y e1); lia).
      apply val_mono; [lia|].
      destruct (Z.eq_dec m1 Y) as [Eq|Ne]; [|lia].
      assert (F : m1 * 2 ^ K1 <= mx) by (apply div_floor; lia).
      assert (G : val mx ex <= val (m1 * 2 ^ K1) ex).
      { rewrite val_shift by lia. fold e1. rewrite Eq. exact Hle. }
      apply val_cancel in G; [|assumption].
      assert (l1 = loc_Exact).
      { apply Hex; [reflexivity|]. exists m1. lia. }
      unfold m2. rewrite H. exact M1. }
  destruct A as [Hal V2].
  set (K2 := Z.max 0 (fexp prec emax (Zdigits2 m2 + e1) - e1)) in *.
  assert (HK2 : 0 <= K2) by (unfold K2; lia).
  assert (N3 : 0 <= m2 / 2 ^ K2) by (apply Z.div_pos; [lia | apply Z.pow_pos_nonneg; lia]).
  assert (V3 : val (m2 / 2 ^ K2) (e1 + K2) <= val m2 e1) by (apply val_div_le; lia).
  destruct (m2 / 2 ^ K2) as [|p|p] eqn:E3; [exact I| |lia].
  assert (Hfin : e1 + K2 <= emax - prec).
  { unfold emax, prec. destruct (Z.eq_dec K2 0) as [K0|KN]; [lia|].
    assert (P2 : 0 < m2).
    { destruct (Z_lt_le_dec 0 m2) as [|Hn]; [assumption|].
      assert (m2 = 0) by lia. rewrite H in E3. rewrite Z.div_0_l in E3 by
        (apply Z.pow_nonzero; lia). discriminate. }
    destruct (@Zdigits2_bounds m2 P2) as (HD & Hlo & Hhi).
    assert (Hn : e1 + K2 = Zdigits2 m2 + e1 - 53)
      by (unfold K2, fexp, SpecFloat.emin, prec, emax in *; lia).
    assert (V : 2 ^ (Zdigits2 m2 - 1 + e1 + 1074) <= val m2 e1) by (apply val_ge_pow; lia).
    assert (W : 2 ^ (Zdigits2 m2 - 1 + e1 + 1074) < 2 ^ (53 + ey + 1074)) by lia.
    apply Z.pow_lt_mono_r_iff in W; lia. }
  apply Z.leb_le in Hfin. rewrite Hfin. lia.
Qed.

Lemma Zdigits2_unique (n d : Z) :
  0 < d -> 2 ^ (d - 1) <= n < 2 ^ d -> Zdigits2 n = d.
Proof.
  intros Hd [Hlo Hhi].
  assert (Hn : 0 < n).
  { eapply Z.lt_le_trans; [|exact Hlo]. apply Z.pow_pos_nonneg; lia. }
  destruct (@Zdigits2_bounds n Hn) as (HD & Dlo & Dhi).
  destruct (Z_lt_le_dec (Zdigits2 n) d) as [L|L].
  - exfalso. assert (2 ^ Zdigits2 n <= 2 ^ (d - 1)) by (apply Z.pow_le_mono_r; lia). lia.
  - destruct (Z_lt_le_dec d (Zdigits2 n)) as [G|G]; [|lia].
    exfalso. assert (2 ^ d <= 2 ^ (Zdigits2 n - 1)) by (apply Z.pow_le_mono_r; lia). lia.
Qed.

Lemma Zdigits2_shift (m k : Z) : 0 < m -> 0 <= k -> Zdigits2 (m * 2 ^ k) = Zdigits2 m + k.
Proof.
  intros Hm Hk. destruct (@Zdigits2_bounds m Hm) as (HD & Dlo & Dhi).
  assert (P : 0 < 2 ^ k) by (apply Z.pow_pos_nonneg; lia).
  apply Zdigits2_unique; [lia|]. split.
  - replace (Zdigits2 m + k - 1) with (Zdigits2 m - 1 + k) by lia.
    rewrite Z.pow_add_r by lia. apply Z.mul_le_mono_nonneg_r; lia.
  - rewrite Z.pow_add_r by lia. apply Z.mul_lt_mono_pos_r; lia.
Qed.

Lemma Pos_iter_xO (m d : positive) : Zpos (Pos.iter xO m d) = Zpos m * 2 ^ Zpos d.
Proof.
  induction d as [|d IH] using Pos.peano_ind.
  - cbn [Pos.iter]. rewrite Pos2Z.inj_xO. change (2 ^ 1) with 2. ring.
  - rewrite Pos.iter_succ, Pos2Z.inj_xO, IH, Pos2Z.inj_succ, Z.pow_succ_r by lia. ring.
Qed.

Lemma shl_align_spec (mx : positive) (ex ex' : Z) :
  Zpos (fst (shl_align mx ex ex')) = Zpos mx * 2 ^ Z.max 0 (ex - ex') /\
  snd (shl_align mx ex ex') = Z.min ex ex'.
Proof.
  unfold shl_align. destruct (ex' - ex) as [|p|p] eqn:E; cbn [fst snd].
  - replace (Z.max 0 (ex - ex')) with 0 by lia. rewrite Z.pow_0_r. lia.
  - replace (Z.max 0 (ex - ex')) with 0 by lia. rewrite Z.pow_0_r. lia.
  - rewrite Pos_iter_xO. replace (Z.max 0 (ex - ex')) with (Z.pos p) by lia. lia.
Qed.

(** [binary_round] rounds its argument as [binary_round_aux] rounds an
    aligned copy of it. *)
Lemma binary_round_aligned (sx : bool) (mx : positive) (ex : Z) :
  -1074 <= ex ->
  exists mz ez,
    binary_round prec emax sx mx ex = binary_round_aux prec emax sx mz ez loc_Exact /\
    0 < mz /\ -1074 <= ez /\ ez <= fexp prec emax (Zdigits2 mz + ez) /\
    val mz ez = val (Zpos mx) ex.
Proof.
  intros He. unfold binary_round.
  set (ex' := fexp prec emax (Z.pos (digits2_pos mx) + ex)).
  destruct (shl_align_spec mx ex ex') as [Hm Hs].
  destruct (shl_align mx ex ex') as [mz ez]. cbn [fst snd] in Hm, Hs.
  exists (Zpos mz), ez. split; [reflexivity|]. split; [lia|].
  assert (Hex' : -1074 <= ex') by (unfold ex', fexp, SpecFloat.emin, prec, emax; lia).
  split; [lia|].
  assert (D : Zdigits2 (Z.pos mz) = Z.pos (digits2_pos mx) + Z.max 0 (ex - ex')).
  { rewrite Hm. apply (@Zdigits2_shift (Zpos mx)); lia. }
  split.
  - rewrite D, Hs.
    assert (Hdef : ex' = Z.max (Z.pos (digits2_pos mx) + ex - 53) (-1074)) by reflexivity.
    clearbody ex'. unfold fexp, SpecFloat.emin, prec, emax. lia.
  - rewrite Hm, Hs. destruct (Z_le_gt_dec ex ex') as [L|G].
    + replace (Z.max 0 (ex - ex')) with 0 by lia. rewrite Z.pow_0_r, Z.mul_1_r.
      now replace (Z.min ex ex') with ex by lia.
    + replace (Z.max 0 (ex - ex')) with (ex - ex') by lia.
      replace (Z.min ex ex') with ex' by lia.
      rewrite val_shift by lia. f_equal. lia.
Qed.

Lemma binary_round_upper (mx : positive) (ex : Z) (my : positive) (ey : Z) :
  -1074 <= ex ->
  bounded prec emax my ey = true ->
  val (Zpos mx) ex <= val (Zpos my) ey ->
  match binary_round prec emax false mx ex with
  | S754_zero false => True
  | S754_finite false m e => val (Zpos m) e <= val (Zpos my) ey
  | _ => False
  end.
Proof.
  intros He B Hle.
  destruct (@binary_round_aligned false mx ex He) as (mz & ez & -> & Hz & Hez & HP & Hv).
  apply bra_upper; try assumption; lia.
Qed.

Lemma binary_round_cases (sx : bool) (mx : positive) (ex : Z) :
  binary_round prec emax sx mx ex = S754_zero sx \/
  binary_round prec emax sx mx ex = S754_infinity sx \/
  exists m e, binary_round prec emax sx mx ex = S754_finite sx m e.
Proof.
  unfold binary_round. destruct (shl_align mx ex _) as [mz ez].
  apply bra_cases. lia.
Qed.

(** ** The primitive operations *)


Lemma Prim2SF_one : Prim2SF 1 = SF1.
Proof. reflexivity. Qed.

Lemma Prim2SF_zero : Prim2SF 0 = S754_zero false.
Proof. reflexivity. Qed.

Lemma Prim2SF_infinity : Prim2SF infinity = S754_infinity false.
Proof. reflexivity. Qed.

Lemma one_bounded : bounded prec emax 4503599627370496 (-52) = true.
Proof. reflexivity. Qed.

Lemma val_one : val 4503599627370496 (-52) = 2 ^ 1074.
Proof. reflexivity. Qed.

Lemma SFsub_finite (sx : bool) (mx : positive) (ex : Z) (sy : bool) (my : positive) (ey : Z) :
  SFsub prec emax (S754_finite sx mx ex) (S754_finite sy my ey)
  = binary_normalize prec emax
      (Z.sub (cond_Zopp sx (Zpos (fst (shl_align mx ex (Z.min ex ey)))))
             (cond_Zopp sy (Zpos (fst (shl_align my ey (Z.min ex ey))))))
      (Z.min ex ey) false.
Proof. reflexivity. Qed.

(** A positive number below 1 has an exponent below that of 1. *)
Lemma below_one (m : positive) (e : Z) :
  bounded prec emax m e = true ->
  val (Zpos m) e < 2 ^ 1074 -> e <= -53.
Proof.
  intros B H. destruct (@canonical_val m e B) as (He & _ & Hn).
  destruct (Z_le_gt_dec e (-53)) as [|G]; [assumption|]. exfalso.
  specialize (Hn ltac:(lia)).
  assert (2 ^ 1074 <= 2 ^ (52 + e + 1074)) by (apply Z.pow_le_mono_r; lia). lia.
Qed.

Lemma SFltb_val (m1 : positive) (e1 : Z) (m2 : positive) (e2 : Z) :
  bounded prec emax m1 e1 = true -> bounded prec emax m2 e2 = true ->
  SFltb (S754_finite false m1 e1) (S754_finite false m2 e2)
  = (val (Zpos m1) e1 <? val (Zpos m2) e2).
Proof.
  intros B1 B2. unfold SFltb. rewrite compare_val by assumption.
  unfold Z.ltb. now destruct (val (Z.pos m1) e1 ?= val (Z.pos m2) e2).
Qed.

Lemma SFleb_val (m1 : positive) (e1 : Z) (m2 : positive) (e2 : Z) :
  bounded prec emax m1 e1 = true -> bounded prec emax m2 e2 = true ->
  SFleb (S754_finite false m1 e1) (S754_finite false m2 e2)
  = (val (Zpos m1) e1 <=? val (Zpos m2) e2).
Proof.
  intros B1 B2. unfold SFleb. rewrite compare_val by assumption.
  unfold Z.leb. now destruct (val (Z.pos m1) e1 ?= val (Z.pos m2) e2).
Qed.

(** [1 - n] for a positive [n] below 1. *)
Lemma sub_from_one (n : float) (m : positive) (e : Z) :
  Prim2SF n = S754_finite false m e ->
  (n <? 1)%float = true ->
  (0 <=? 1 - n)%float = true /\ (1 - n <=? 1)%float = true.
Proof.
  intros E Hlt.
  pose proof (Prim2SF_valid n) as B. rewrite E in B. cbn [SpecFloat.valid_binary] in B.
  rewrite ltb_spec, E, Prim2SF_one in Hlt. unfold SF1 in Hlt.
  rewrite SFltb_val in Hlt by (assumption || exact one_bounded).
  apply Z.ltb_lt in Hlt. rewrite val_one in Hlt.
  pose proof (@below_one m e B Hlt) as He.
  destruct (@canonical_val m e B) as (Hre & [Hv0 Hv1] & _).
  pose proof (Prim2SF_valid (1 - n)) as V.
  rewrite !leb_spec, Prim2SF_zero, Prim2SF_one.
  rewrite sub_spec, E, Prim2SF_one in V |- *. unfold SF64sub, SF1 in V |- *.
  rewrite SFsub_finite in V |- *.
  replace (Z.min (-52) e) with e in V |- * by lia.
  destruct (shl_align_spec 4503599627370496 (-52) e) as [A1 _].
  destruct (shl_align_spec m e e) as [A2 _].
  replace (Z.max 0 (-52 - e)) with (-52 - e) in A1 by lia.
  replace (Z.max 0 (e - e)) with 0 in A2 by lia.
  rewrite Z.pow_0_r, Z.mul_1_r in A2.
  unfold cond_Zopp in V |- *. rewrite A1, A2 in V |- *.
  (* the exact difference, a positive multiple of [2^e] *)
  assert (P : 2 ^ 1074 = 4503599627370496 * 2 ^ (-52 - e) * 2 ^ (e + 1074)).
  { rewrite <- Z.mul_assoc, <- Z.pow_add_r by lia.
    replace (-52 - e + (e + 1074)) with 1022 by lia. reflexivity. }
  assert (S : 0 < 2 ^ (e + 1074)) by (apply Z.pow_pos_nonneg; lia).
  assert (Hm : Z.pos m < 4503599627370496 * 2 ^ (-52 - e)).
  { unfold val in Hlt. rewrite P in Hlt. now apply Z.mul_lt_mono_pos_r in Hlt. }
  destruct (4503599627370496 * 2 ^ (-52 - e) - Z.pos m) as [|p|p] eqn:EM; try lia.
  cbn [binary_normalize] in V |- *.
  assert (U : val (Z.pos p) e <= val 4503599627370496 (-52)).
  { rewrite val_one, P. unfold val. apply Z.mul_le_mono_nonneg_r; lia. }
  pose proof (@binary_round_upper p e 4503599627370496 (-52) ltac:(lia) one_bounded U) as R.
  destruct (binary_round prec emax false p e) as [[|]|[|]| |[|] m' e']; try contradiction.
  - split; reflexivity.
  - cbn [SpecFloat.valid_binary] in V. split; [reflexivity|].
    rewrite SFleb_val by (assumption || exact one_bounded). now apply Z.leb_le.
Qed.

Lemma div_core_spec (m1 : positive) (e1 : Z) (m2 : positive) (e2 : Z) :
  let e' := Z.min (fexp prec emax (Zpos (digits2_pos m1) + e1 - (Zpos (digits2_pos m2) + e2)))
                  (e1 - e2) in
  exists l,
    SFdiv_core_binary prec emax (Zpos m1) e1 (Zpos m2) e2
    = (Zpos m1 * 2 ^ (e1 - e2 - e') / Zpos m2, e', l).
Proof.
  intros e'. unfold SFdiv_core_binary. cbn [Zdigits2]. fold e'.
  assert (Hs : 0 <= e1 - e2 - e') by (unfold e'; lia).
  set (m' := match e1 - e2 - e' with
             | Z0 => Zpos m1
             | Zpos _ => Z.shiftl (Zpos m1) (e1 - e2 - e')
             | Zneg _ => Z0
             end).
  assert (Em : m' = Zpos m1 * 2 ^ (e1 - e2 - e')).
  { unfold m'. destruct (e1 - e2 - e') as [|p|p] eqn:E; [rewrite Z.pow_0_r; lia| |lia].
    now rewrite Z.shiftl_mul_pow2 by lia. }
  rewrite <- Em. unfold Z.div.
  destruct (Z.div_eucl m' (Z.pos m2)) as [q r]. eexists. reflexivity.
Qed.

Lemma SFdiv_finite (sx : bool) (mx : positive) (ex : Z) (sy : bool) (my : positive) (ey : Z) :
  SFdiv prec emax (S754_finite sx mx ex) (S754_finite sy my ey)
  = let '(mz, ez, lz) := SFdiv_core_binary prec emax (Zpos mx) ex (Zpos my) ey in
    binary_round_aux prec emax (xorb sx sy) mz ez lz.
Proof. reflexivity. Qed.

(** A quotient of positive numbers is not negative and is a number. *)
Lemma div_finite_cases (mx : positive) (ex : Z) (my : positive) (ey : Z) :
  let q := SFdiv prec emax (S754_finite false mx ex) (S754_finite false my ey) in
  q = S754_zero false \/ q = S754_infinity false \/ exists m e, q = S754_finite false m e.
Proof.
  intros q. unfold q. rewrite SFdiv_finite.
  destruct (div_core_spec mx ex my ey) as (l & ->). cbn [xorb].
  apply bra_cases. apply Z.div_pos; [|lia].
  apply Z.mul_nonneg_nonneg; [lia|]. apply Z.pow_nonneg. lia.
Qed.

(** The quotient of a positive number by one that is not larger is at
    least 1. *)
Lemma div_ge_one (d h : float) (md : positive) (ed : Z) (mh : positive) (eh : Z) :
  Prim2SF d = S754_finite false md ed ->
  Prim2SF h = S754_finite false mh eh ->
  (h <=? d)%float = true ->
  (1 <=? d / h)%float = true.
Proof.
  intros Ed Eh Hle.
  pose proof (Prim2SF_valid d) as Bd. rewrite Ed in Bd. cbn [SpecFloat.valid_binary] in Bd.
  pose proof (Prim2SF_valid h) as Bh. rewrite Eh in Bh. cbn [SpecFloat.valid_binary] in Bh.
  rewrite leb_spec, Ed, Eh, SFleb_val in Hle by assumption. apply Z.leb_le in Hle.
  destruct (@canonical_val md ed Bd) as (Hed & [Vd0 Vd1] & Vd2).
  destruct (@canonical_val mh eh Bh) as (Heh & [Vh0 Vh1] & Vh2).
  destruct (@bounded_canonical md ed Bd) as (_ & HD1 & _).
  destruct (@bounded_canonical mh eh Bh) as (_ & HD2 & _).
  pose proof (digits2_bounds md) as [_ Md]. pose proof (digits2_bounds mh) as [_ Mh].
  assert (Ht : eh <= ed).
  { destruct (Z_le_gt_dec eh ed) as [|G]; [assumption|]. exfalso.
    specialize (Vh2 ltac:(lia)).
    assert (2 ^ (53 + ed + 1074) <= 2 ^ (52 + eh + 1074)) by (apply Z.pow_le_mono_r; lia).
    lia. }
  assert (Hm : Z.pos mh <= Z.pos md * 2 ^ (ed - eh)).
  { apply (@val_cancel _ _ eh); [lia|]. rewrite val_shift by lia.
    now replace (eh + (ed - eh)) with ed by lia. }
  pose proof (Prim2SF_valid (d / h)) as V.
  rewrite leb_spec, Prim2SF_one. rewrite div_spec, Ed, Eh in V |- *.
  unfold SF64div in V |- *. rewrite SFdiv_finite in V |- *.
  destruct (div_core_spec md ed mh eh) as (l & E). cbv zeta in E. rewrite E in V |- *. clear E.
  cbn [xorb] in V |- *.
  set (D1 := Z.pos (digits2_pos md)) in *. set (D2 := Z.pos (digits2_pos mh)) in *.
  set (e' := Z.min (fexp prec emax (D1 + ed - (D2 + eh))) (ed - eh)) in *.
  assert (He' : -1074 <= e' /\ e' <= ed - eh /\ (0 < e' -> e' <= D1 + ed - (D2 + eh) - 53))
    by (unfold e', fexp, SpecFloat.emin, prec, emax; lia).
  destruct He' as (El & Eu & Ep).
  set (Q := Z.pos md * 2 ^ (ed - eh - e') / Z.pos mh) in *.
  assert (HQ0 : 0 <= Q).
  { apply Z.div_pos; [|lia]. apply Z.mul_nonneg_nonneg; [lia|]. apply Z.pow_nonneg. lia. }
  assert (L : val 4503599627370496 (-52) <= val Q e').
  { rewrite val_one. destruct (Z_le_gt_dec e' 0) as [Le|Gt].
    - assert (HQ : 2 ^ (- e') <= Q).
      { apply Z.div_le_lower_bound; [lia|].
        replace (ed - eh - e') with (ed - eh + - e') by lia.
        rewrite Z.pow_add_r, Z.mul_assoc by lia.
        apply Z.mul_le_mono_nonneg_r; [apply Z.pow_nonneg; lia | exact Hm]. }
      unfold val. replace 1074 with (- e' + (e' + 1074)) at 1 by lia.
      rewrite Z.pow_add_r by lia.
      apply Z.mul_le_mono_nonneg_r; [apply Z.pow_nonneg; lia | exact HQ].
    - specialize (Ep ltac:(lia)).
      assert (HQ : 1 <= Q).
      { apply Z.div_le_lower_bound; [lia|]. rewrite Z.mul_1_r.
        assert (2 ^ D2 <= 2 ^ (ed - eh - e')) by (apply Z.pow_le_mono_r; lia).
        assert (1 * 2 ^ (ed - eh - e') <= Z.pos md * 2 ^ (ed - eh - e'))
          by (apply Z.mul_le_mono_nonneg_r; [apply Z.pow_nonneg; lia | lia]).
        lia. }
      unfold val.
      assert (2 ^ 1074 <= 2 ^ (e' + 1074)) by (apply Z.pow_le_mono_r; lia).
      assert (1 * 2 ^ (e' + 1074) <= Q * 2 ^ (e' + 1074))
        by (apply Z.mul_le_mono_nonneg_r; [apply Z.pow_nonneg; lia | lia]).
      lia. }
  pose proof (@bra_lower Q e' l 4503599627370496 (-52) HQ0 El one_bounded L) as R.
  destruct (binary_round_aux prec emax false Q e' l) as [[|]|[|]| |[|] m' e''];
    try contradiction.
  - reflexivity.
  - cbn [SpecFloat.valid_binary] in V. unfold SF1.
    rewrite SFleb_val by (assumption || exact one_bounded). now apply Z.leb_le.
Qed.

(** ** Numbers that are not negative *)


Lemma SFeqb_refl (x : spec_float) : x <> S754_nan -> SFeqb x x = true.
Proof.
  intros H. destruct x as [s|s| |s m e]; try reflexivity.
  - now destruct s.
  - contradiction.
  - unfold SFeqb, SFcompare. rewrite Z.compare_refl, Pos.compare_cont_refl. now destruct s.
Qed.

Lemma is_nan_spec (f : float) : is_nan f = false <-> Prim2SF f <> S754_nan.
Proof.
  unfold is_nan. rewrite eqb_spec. split.
  - intros H E. rewrite E in H. discriminate.
  - intros H. now rewrite SFeqb_refl.
Qed.

Lemma nonneg_number (f : float) : nonneg (Prim2SF f) -> is_nan f = false.
Proof. intros H. apply is_nan_spec. intros E. rewrite E in H. exact H. Qed.

Lemma Prim2SF_two : Prim2SF 2 = S754_finite false 4503599627370496 (-51).
Proof. reflexivity. Qed.

Lemma div_core_exact (m1 : positive) (e1 : Z) (m2 : positive) (e2 : Z) :
  let e' := Z.min (fexp prec emax (Zpos (digits2_pos m1) + e1 - (Zpos (digits2_pos m2) + e2)))
                  (e1 - e2) in
  (Zpos m1 * 2 ^ (e1 - e2 - e')) mod Zpos m2 = 0 ->
  SFdiv_core_binary prec emax (Zpos m1) e1 (Zpos m2) e2
  = (Zpos m1 * 2 ^ (e1 - e2 - e') / Zpos m2, e', loc_Exact).
Proof.
  intros e' Hr. unfold SFdiv_core_binary. cbn [Zdigits2]. fold e'.
  assert (Hs : 0 <= e1 - e2 - e') by (unfold e'; lia).
  set (m' := match e1 - e2 - e' with
             | Z0 => Zpos m1
             | Zpos _ => Z.shiftl (Zpos m1) (e1 - e2 - e')
             | Zneg _ => Z0
             end).
  assert (Em : m' = Zpos m1 * 2 ^ (e1 - e2 - e')).
  { unfold m'. destruct (e1 - e2 - e') as [|p|p] eqn:E; [rewrite Z.pow_0_r; lia| |lia].
    now rewrite Z.shiftl_mul_pow2 by lia. }
  rewrite <- Em in *. unfold Z.div. unfold Z.modulo in Hr.
  destruct (Z.div_eucl m' (Z.pos m2)) as [q r]. subst r.
  unfold new_location, new_location_even, new_location_odd. cbn [Z.eqb].
  now destruct (Z.even (Z.pos m2)).
Qed.

(** Half of a number that is at least 1 has the same digits and the
    exponent below. *)
Lemma half_spec (v : float) (m : positive) (e : Z) :
  Prim2SF v = S754_finite false m e -> -52 <= e ->
  Prim2SF (v / 2) = S754_finite false m (e - 1).
Proof.
  intros E He.
  pose proof (Prim2SF_valid v) as B. rewrite E in B. cbn [SpecFloat.valid_binary] in B.
  destruct (@bounded_canonical m e B) as (Hre & _ & HD). specialize (HD ltac:(lia)).
  destruct (@bounded_mantissa m e B) as (Hu & Hl). specialize (Hl ltac:(lia)).
  rewrite div_spec, E, Prim2SF_two. unfold SF64div. rewrite SFdiv_finite.
  assert (D2 : Z.pos (digits2_pos 4503599627370496) = 53) by reflexivity.
  pose proof (@div_core_exact m e 4503599627370496 (-51)) as C. cbv zeta in C.
  rewrite HD, D2 in C.
  replace (Z.min (fexp prec emax (53 + e - (53 + -51))) (e - -51)) with (e - 2) in C
    by (unfold fexp, SpecFloat.emin, prec, emax; lia).
  replace (e - -51 - (e - 2)) with 53 in C by lia.
  assert (EQ : Z.pos m * 2 ^ 53 = 2 * Z.pos m * 4503599627370496)
    by (rewrite pow2_53; lia).
  rewrite EQ in C. rewrite Z.mod_mul, Z.div_mul in C by lia.
  rewrite (C eq_refl). cbn [xorb]. clear C EQ.
  destruct (@bra_unfold false (2 * Z.pos m) (e - 2) loc_Exact ltac:(lia)) as (l1 & Hex & R).
  cbv zeta in Hex, R. rewrite R. clear R.
  assert (D54 : Zdigits2 (2 * Z.pos m) = 54).
  { replace (2 * Z.pos m) with (Z.pos m * 2 ^ 1) by (change (2 ^ 1) with 2; lia).
    rewrite Zdigits2_shift by lia. cbn [Zdigits2]. lia. }
  rewrite D54 in *.
  replace (Z.max 0 (fexp prec emax (54 + (e - 2)) - (e - 2))) with 1 in *
    by (unfold fexp, SpecFloat.emin, prec, emax; lia).
  change (2 ^ 1) with 2 in *.
  replace (2 * Z.pos m / 2) with (Z.pos m) in *
    by (rewrite Z.mul_comm, Z.div_mul; lia).
  rewrite (Hex eq_refl) by (exists (Z.pos m); lia).
  cbn [round_nearest_even Zdigits2]. rewrite HD.
  replace (Z.max 0 (fexp prec emax (53 + (e - 2 + 1)) - (e - 2 + 1))) with 0
    by (unfold fexp, SpecFloat.emin, prec, emax; lia).
  rewrite Z.pow_0_r, Z.div_1_r.
  replace (e - 2 + 1 + 0) with (e - 1) by lia.
  replace (e - 1 <=? emax - prec) with true
    by (symmetry; apply Z.leb_le; unfold emax, prec; lia).
  reflexivity.
Qed.

(** The sign does not change what [binary_round_aux] rounds to. *)
Lemma bra_abs (sx : bool) (mx ex : Z) (lx : location) :
  SFabs (binary_round_aux prec emax sx mx ex lx)
  = SFabs (binary_round_aux prec emax false mx ex lx).
Proof.
  unfold binary_round_aux.
  destruct (shr_fexp prec emax mx ex lx) as [mrs1 e1].
  destruct (shr_fexp prec emax _ e1 loc_Exact) as [mrs2 e2].
  destruct (shr_m mrs2); [reflexivity| |reflexivity].
  now destruct (e2 <=? emax - prec).
Qed.

Lemma binary_round_abs (sx : bool) (mx : positive) (ex : Z) :
  SFabs (binary_round prec emax sx mx ex) = binary_round prec emax false mx ex.
Proof.
  unfold binary_round. destruct (shl_align mx ex _) as [mz ez].
  rewrite bra_abs.
  destruct (@bra_cases false (Z.pos mz) ez loc_Exact ltac:(lia))
    as [-> | [-> | (m & e & ->)]]; reflexivity.
Qed.

Lemma binary_round_lower (mx : positive) (ex : Z) (my : positive) (ey : Z) :
  -1074 <= ex ->
  bounded prec emax my ey = true ->
  val (Zpos my) ey <= val (Zpos mx) ex ->
  match binary_round prec emax false mx ex with
  | S754_finite false m e => val (Zpos my) ey <= val (Zpos m) e
  | S754_infinity false => True
  | _ => False
  end.
Proof.
  intros He B Hle.
  destruct (@binary_round_aligned false mx ex He) as (mz & ez & -> & Hz & Hez & HP & Hv).
  apply bra_lower; try assumption; lia.
Qed.

Lemma shifted_bounded (mh : positive) (eh : Z) :
  bounded prec emax mh eh = true -> -53 <= eh ->
  bounded prec emax mh (eh - 53) = true /\
  val (Z.pos mh) (eh - 53) * 2 ^ 53 = val (Z.pos mh) eh.
Proof.
  intros B He. destruct (@bounded_canonical mh eh B) as (Hre & _ & HD).
  specialize (HD ltac:(lia)). split.
  - unfold bounded, canonical_mantissa, fexp, SpecFloat.emin, prec, emax. rewrite HD.
    apply andb_true_iff. split; [apply Z.eqb_eq | apply Z.leb_le]; lia.
  - unfold val. rewrite <- Z.mul_assoc, <- Z.pow_add_r by lia. do 2 f_equal. lia.
Qed.

Lemma tiny_bounded : bounded prec emax 4503599627370496 (-105) = true.
Proof. reflexivity. Qed.

Lemma val_tiny : val 4503599627370496 (-105) = 2 ^ 1021.
Proof. reflexivity. Qed.

(** The quotient of a positive number by a normal one that is at most
    [2^53] times larger is at least [2^-53]. *)
Lemma div_ge_tiny (d h : float) (md : positive) (ed : Z) (mh : positive) (eh : Z) :
  Prim2SF d = S754_finite false md ed ->
  Prim2SF h = S754_finite false mh eh ->
  -53 <= eh ->
  val (Zpos mh) eh <= val (Zpos md) ed * 2 ^ 53 ->
  Prim2SF (d / h) = S754_infinity false \/
  exists m e, Prim2SF (d / h) = S754_finite false m e /\ 2 ^ 1021 <= val (Zpos m) e.
Proof.
  intros Ed Eh Hn Hle.
  pose proof (Prim2SF_valid d) as Bd. rewrite Ed in Bd. cbn [SpecFloat.valid_binary] in Bd.
  pose proof (Prim2SF_valid h) as Bh. rewrite Eh in Bh. cbn [SpecFloat.valid_binary] in Bh.
  destruct (@canonical_val md ed Bd) as (Hed & [Vd0 Vd1] & Vd2).
  destruct (@canonical_val mh eh Bh) as (Heh & [Vh0 Vh1] & Vh2).
  destruct (@bounded_canonical md ed Bd) as (_ & HD1 & _).
  destruct (@bounded_canonical mh eh Bh) as (_ & _ & HD2). specialize (HD2 ltac:(lia)).
  destruct (@bounded_mantissa mh eh Bh) as (Uh & _). rewrite pow2_53 in Uh.
  pose proof (digits2_bounds md) as [Ld Md].
  specialize (Vh2 ltac:(lia)).
  assert (Ht : -53 <= ed - eh).
  { destruct (Z_le_gt_dec (-53) (ed - eh)) as [|G]; [assumption|]. exfalso.
    assert (E : 2 ^ (53 + ed + 1074) * 2 ^ 53 <= 2 ^ (52 + eh + 1074)).
    { rewrite <- Z.pow_add_r by lia. apply Z.pow_le_mono_r; lia. }
    assert (val (Z.pos md) ed * 2 ^ 53 < 2 ^ (53 + ed + 1074) * 2 ^ 53)
      by (apply Z.mul_lt_mono_pos_r; [reflexivity | assumption]).
    lia. }
  assert (Hm : Z.pos mh <= Z.pos md * 2 ^ (ed - eh + 53)).
  { apply (@val_cancel _ _ eh); [lia|]. rewrite val_shift by lia.
    replace (eh + (ed - eh + 53)) with (ed + 53) by lia.
    unfold val in *. replace (ed + 53 + 1074) with (ed + 1074 + 53) by lia.
    rewrite (Z.pow_add_r 2 (ed + 1074) 53), Z.mul_assoc by lia. exact Hle. }
  pose proof (Prim2SF_valid (d / h)) as V.
  rewrite div_spec, Ed, Eh in V |- *.
  unfold SF64div in V |- *. rewrite SFdiv_finite in V |- *.
  destruct (div_core_spec md ed mh eh) as (l & E). cbv zeta in E. rewrite E in V |- *. clear E.
  cbn [xorb] in V |- *.
  set (D1 := Z.pos (digits2_pos md)) in *. set (D2 := Z.pos (digits2_pos mh)) in *.
  set (e' := Z.min (fexp prec emax (D1 + ed - (D2 + eh))) (ed - eh)) in *.
  assert (He' : -1074 <= e' /\ e' <= ed - eh /\ (-53 < e' -> e' <= D1 + ed - eh - 106))
    by (unfold e', fexp, SpecFloat.emin, prec, emax; lia).
  destruct He' as (El & Eu & Ep).
  set (Q := Z.pos md * 2 ^ (ed - eh - e') / Z.pos mh) in *.
  assert (HQ0 : 0 <= Q).
  { apply Z.div_pos; [|lia]. apply Z.mul_nonneg_nonneg; [lia|]. apply Z.pow_nonneg. lia. }
  assert (L : val 4503599627370496 (-105) <= val Q e').
  { rewrite val_tiny. destruct (Z_le_gt_dec e' (-53)) as [Le|Gt].
    - assert (HQ : 2 ^ (-53 - e') <= Q).
      { apply Z.div_le_lower_bound; [lia|].
        replace (ed - eh - e') with (ed - eh + 53 + (-53 - e')) by lia.
        rewrite (Z.pow_add_r 2 (ed - eh + 53) (-53 - e')), Z.mul_assoc by lia.
        apply Z.mul_le_mono_nonneg_r; [apply Z.pow_nonneg; lia | exact Hm]. }
      unfold val. replace 1021 with (-53 - e' + (e' + 1074)) at 1 by lia.
      rewrite (Z.pow_add_r 2 (-53 - e') (e' + 1074)) by lia.
      apply Z.mul_le_mono_nonneg_r; [apply Z.pow_nonneg; lia | exact HQ].
    - specialize (Ep ltac:(lia)).
      assert (HQ : 1 <= Q).
      { apply Z.div_le_lower_bound; [lia|]. rewrite Z.mul_1_r.
        assert (P1 : 2 ^ (D1 - 1) * 2 ^ (106 - D1) = 2 ^ 105)
          by (rewrite <- Z.pow_add_r by lia; f_equal; lia).
        assert (P2 : 2 ^ (106 - D1) <= 2 ^ (ed - eh - e')) by (apply Z.pow_le_mono_r; lia).
        assert (P3 : 0 < 2 ^ (106 - D1)) by (apply Z.pow_pos_nonneg; lia).
        assert (P4 : 2 ^ (D1 - 1) * 2 ^ (106 - D1) <= Z.pos md * 2 ^ (106 - D1))
          by (apply Z.mul_le_mono_nonneg_r; lia).
        assert (P5 : Z.pos md * 2 ^ (106 - D1) <= Z.pos md * 2 ^ (ed - eh - e'))
          by (apply Z.mul_le_mono_nonneg_l; lia).
        assert (P6 : 9007199254740992 <= 2 ^ 105) by (vm_compute; discriminate).
        lia. }
      unfold val.
      assert (2 ^ 1021 <= 2 ^ (e' + 1074)) by (apply Z.pow_le_mono_r; lia).
      assert (1 * 2 ^ (e' + 1074) <= Q * 2 ^ (e' + 1074))
        by (apply Z.mul_le_mono_nonneg_r; [apply Z.pow_nonneg; lia | lia]).
      lia. }
  pose proof (@bra_lower Q e' l 4503599627370496 (-105) HQ0 El tiny_bounded L) as R.
  destruct (binary_round_aux prec emax false Q e' l) as [[|]|[|]| |[|] m' e''];
    try contradiction.
  - now left.
  - right. exists m', e''. split; [reflexivity|]. now rewrite <- val_tiny.
Qed.

Lemma pred_one_bounded : bounded prec emax 9007199254740991 (-53) = true.
Proof. reflexivity. Qed.

(** [1 - n] is below 1 once [n] is at least [2^-53]. *)
Lemma sub_from_one_strict (n : float) (m : positive) (e : Z) :
  Prim2SF n = S754_finite false m e ->
  (n <? 1)%float = true ->
  2 ^ 1021 <= val (Zpos m) e ->
  (1 - n <? 1)%float = true.
Proof.
  intros E Hlt Hge.
  pose proof (Prim2SF_valid n) as B. rewrite E in B. cbn [SpecFloat.valid_binary] in B.
  rewrite ltb_spec, E, Prim2SF_one in Hlt. unfold SF1 in Hlt.
  rewrite SFltb_val in Hlt by (assumption || exact one_bounded).
  apply Z.ltb_lt in Hlt. rewrite val_one in Hlt.
  pose proof (@below_one m e B Hlt) as He.
  destruct (@canonical_val m e B) as (Hre & [Hv0 Hv1] & _).
  pose proof (Prim2SF_valid (1 - n)) as V.
  rewrite ltb_spec, Prim2SF_one.
  rewrite sub_spec, E, Prim2SF_one in V |- *. unfold SF64sub, SF1 in V |- *.
  rewrite SFsub_finite in V |- *.
  replace (Z.min (-52) e) with e in V |- * by lia.
  destruct (shl_align_spec 4503599627370496 (-52) e) as [A1 _].
  destruct (shl_align_spec m e e) as [A2 _].
  replace (Z.max 0 (-52 - e)) with (-52 - e) in A1 by lia.
  replace (Z.max 0 (e - e)) with 0 in A2 by lia.
  rewrite Z.pow_0_r, Z.mul_1_r in A2.
  unfold cond_Zopp in V |- *. rewrite A1, A2 in V |- *.
  assert (P : 2 ^ 1074 = 4503599627370496 * 2 ^ (-52 - e) * 2 ^ (e + 1074)).
  { rewrite <- Z.mul_assoc, <- Z.pow_add_r by lia.
    replace (-52 - e + (e + 1074)) with 1022 by lia. reflexivity. }
  assert (S : 0 < 2 ^ (e + 1074)) by (apply Z.pow_pos_nonneg; lia).
  assert (Hm : Z.pos m < 4503599627370496 * 2 ^ (-52 - e)).
  { unfold val in Hlt. rewrite P in Hlt. now apply Z.mul_lt_mono_pos_r in Hlt. }
  assert (VP : val (4503599627370496 * 2 ^ (-52 - e) - Z.pos m) e
               = 2 ^ 1074 - val (Z.pos m) e).
  { unfold val. rewrite P. ring. }
  destruct (4503599627370496 * 2 ^ (-52 - e) - Z.pos m) as [|p|p] eqn:EM; try lia.
  cbn [binary_normalize] in V |- *.
  assert (T : val 9007199254740991 (-53) = 2 ^ 1074 - 2 ^ 1021) by reflexivity.
  assert (U : val (Z.pos p) e <= val 9007199254740991 (-53)) by lia.
  pose proof (@binary_round_upper p e 9007199254740991 (-53) ltac:(lia) pred_one_bounded U) as R.
  destruct (binary_round prec emax false p e) as [[|]|[|]| |[|] m' e']; try contradiction.
  - reflexivity.
  - cbn [SpecFloat.valid_binary] in V.
    rewrite SFltb_val by (assumption || exact one_bounded). apply Z.ltb_lt.
    rewrite val_one.
    assert (0 < 2 ^ 1021) by reflexivity. lia.
Qed.

Lemma is_nan_true (f : float) : Prim2SF f = S754_nan -> f = nan.
Proof. intros E. apply Prim2SF_inj. rewrite E. reflexivity. Qed.

Lemma zero_not_one : (1 - 1)%float <> 1%float.
Proof. intros E. apply (f_equal Prim2SF) in E. vm_compute in E. discriminate. Qed.

End Binary64Facts.

(* ================================================================= *)
(** * The scroll intensity in binary64 *)

Module Scroll64Facts.

Import Binary64 Binary64Facts Scroll64.
Local Open Scope Z_scope.

Lemma abs_sub_nonneg (c h : float) (mh : positive) (eh : Z) :
  is_nan c = false -> Prim2SF h = S754_finite false mh eh ->
  nonneg (Prim2SF (abs (c - h))).
Proof.
  intros Hc Eh. apply is_nan_spec in Hc.
  rewrite abs_spec, sub_spec, Eh. unfold SF64sub.
  destruct (Prim2SF c) as [s|s| |s m e]; try exact I; try contradiction.
  rewrite SFsub_finite.
  destruct (Z.sub _ _) as [|p|p]; cbn [binary_normalize]; try exact I.
  - destruct (binary_round_cases false p (Z.min e eh)) as [-> | [-> | (m' & e' & ->)]];
      exact I.
  - destruct (binary_round_cases true p (Z.min e eh)) as [-> | [-> | (m' & e' & ->)]];
      exact I.
Qed.

Lemma div_nonneg (d h : float) (mh : positive) (eh : Z) :
  nonneg (Prim2SF d) -> Prim2SF h = S754_finite false mh eh ->
  nonneg (Prim2SF (d / h)).
Proof.
  intros Hd Eh. rewrite div_spec, Eh. unfold SF64div.
  destruct (Prim2SF d) as [[|]|[|]| |[|] m e]; try contradiction; try exact I.
  destruct (div_finite_cases m e mh eh) as [-> | [-> | (m' & e' & ->)]]; exact I.
Qed.

Lemma min_one (q : float) :
  nonneg (Prim2SF q) ->
  ((q <? 1)%float = true /\ Math_min q 1 = q) \/
  ((q <? 1)%float = false /\ Math_min q 1 = 1%float).
Proof.
  intros H. unfold Math_min. rewrite (nonneg_number q H).
  change (is_nan 1) with false. cbn [orb].
  destruct (q <? 1)%float eqn:L; [left; auto | right].
  split; [reflexivity|]. destruct (1 <? q)%float; [reflexivity|].
  assert (Z : is_zero q = false).
  { unfold is_zero. rewrite eqb_spec. rewrite ltb_spec, Prim2SF_one in L.
    destruct (Prim2SF q) as [[|]|[|]| |[|] m e]; try contradiction; try reflexivity.
    discriminate. }
  now rewrite Z.
Qed.

Lemma ge_one_not_below (q : float) :
  nonneg (Prim2SF q) -> (1 <=? q)%float = true -> (q <? 1)%float = false.
Proof.
  intros H L. pose proof (Prim2SF_valid q) as V.
  rewrite leb_spec, Prim2SF_one in L. rewrite ltb_spec, Prim2SF_one.
  destruct (Prim2SF q) as [[|]|[|]| |[|] m e]; try contradiction; try reflexivity.
  - discriminate.
  - cbn [SpecFloat.valid_binary] in V. unfold SF1 in *.
    rewrite SFleb_val in L by (assumption || exact one_bounded).
    rewrite SFltb_val by (assumption || exact one_bounded).
    apply Z.leb_le in L. apply Z.ltb_ge. exact L.
Qed.

(** The intensity that [normalized] gives a ratio that is not negative. *)
Lemma intensity_of_ratio (q : float) :
  nonneg (Prim2SF q) ->
  (0 <=? 1 - Math_min q 1)%float = true /\ (1 - Math_min q 1 <=? 1)%float = true.
Proof.
  intros H. destruct (min_one q H) as [[L ->] | [L ->]]; [|split; reflexivity].
  destruct (Prim2SF q) as [[|]|[|]| |[|] m e] eqn:E; try contradiction.
  - assert (q = 0%float) by (apply Prim2SF_inj; now rewrite E).
    subst q. split; reflexivity.
  - rewrite ltb_spec, E in L. discriminate.
  - now apply (@sub_from_one q m e).
Qed.

(** The centre on the viewport's centre: the ratio is [+0]. *)
Lemma centred_ratio (c h : float) (mh : positive) (eh : Z) :
  Prim2SF h = S754_finite false mh eh -> (c =? h)%float = true ->
  (abs (c - h) / h)%float = 0%float.
Proof.
  intros Eh Heq.
  pose proof (Prim2SF_valid h) as Bh. rewrite Eh in Bh. cbn [SpecFloat.valid_binary] in Bh.
  pose proof (Prim2SF_valid c) as Bc.
  rewrite eqb_spec, Eh in Heq.
  destruct (Prim2SF c) as [s|s| |s m e] eqn:Ec; try (destruct s; discriminate); try discriminate.
  destruct s; [discriminate|]. cbn [SpecFloat.valid_binary] in Bc.
  unfold SFeqb in Heq. rewrite compare_val in Heq by assumption.
  destruct (Z.compare_spec (val (Z.pos m) e) (val (Z.pos mh) eh)) as [EV|?|?]; try discriminate.
  destruct (@bounded_canonical m e Bc) as (He & _ & _).
  destruct (@bounded_canonical mh eh Bh) as (Heh & _ & _).
  apply Prim2SF_inj.
  rewrite Prim2SF_zero, div_spec, abs_spec, sub_spec, Ec, Eh.
  unfold SF64div, SF64sub. rewrite SFsub_finite.
  destruct (shl_align_spec m e (Z.min e eh)) as [A1 _].
  destruct (shl_align_spec mh eh (Z.min e eh)) as [A2 _].
  unfold cond_Zopp. rewrite A1, A2.
  replace (Z.max 0 (e - Z.min e eh)) with (e - Z.min e eh) by lia.
  replace (Z.max 0 (eh - Z.min e eh)) with (eh - Z.min e eh) by lia.
  assert (EQ : Z.pos m * 2 ^ (e - Z.min e eh) = Z.pos mh * 2 ^ (eh - Z.min e eh)).
  { assert (V1 : val (Z.pos m * 2 ^ (e - Z.min e eh)) (Z.min e eh) = val (Z.pos m) e)
      by (rewrite val_shift by lia; f_equal; lia).
    assert (V2 : val (Z.pos mh * 2 ^ (eh - Z.min e eh)) (Z.min e eh) = val (Z.pos mh) eh)
      by (rewrite val_shift by lia; f_equal; lia).
    apply Z.le_antisymm; apply (@val_cancel _ _ (Z.min e eh)); lia. }
  rewrite EQ, Z.sub_diag. reflexivity.
Qed.

Lemma abs_number_nonneg (x : float) :
  Prim2SF (abs x) <> S754_nan -> nonneg (Prim2SF (abs x)).
Proof. rewrite abs_spec. destruct (Prim2SF x); cbn; auto. Qed.

(** The distance at or beyond the divisor: [normalized] is 1. *)
Lemma far_ratio (d h : float) (mh : positive) (eh : Z) :
  Prim2SF h = S754_finite false mh eh ->
  nonneg (Prim2SF d) ->
  (h <=? d)%float = true ->
  Math_min (d / h) 1 = 1%float.
Proof.
  intros Eh Hd Hle.
  pose proof (@div_nonneg d h mh eh Hd Eh) as Hq.
  destruct (Prim2SF d) as [[|]|[|]| |[|] m e] eqn:Ed; try contradiction.
  - rewrite leb_spec, Ed, Eh in Hle. discriminate.
  - assert (E : (d / h)%float = infinity).
    { apply Prim2SF_inj. rewrite div_spec, Ed, Eh. reflexivity. }
    rewrite E. reflexivity.
  - pose proof (@div_ge_one d h m e mh eh Ed Eh Hle) as G.
    pose proof (@ge_one_not_below (d / h) Hq G) as NB.
    destruct (min_one (d / h) Hq) as [[L _] | [_ ->]]; [congruence | reflexivity].
Qed.

Lemma is_finite_spec (a : float) :
  is_finite a = true ->
  (exists s, Prim2SF a = S754_zero s) \/ (exists s m e, Prim2SF a = S754_finite s m e).
Proof.
  unfold is_finite, is_infinity. rewrite negb_true_iff, orb_false_iff.
  intros [Hn Hi]. apply is_nan_spec in Hn. rewrite eqb_spec, abs_spec in Hi.
  destruct (Prim2SF a) as [s|s| |s m e]; [left; eauto | discriminate | contradiction
                                         | right; eauto].
Qed.

Lemma half_number (a : float) : is_finite a = true -> is_nan (a / 2) = false.
Proof.
  intros H. apply is_nan_spec. rewrite div_spec, Prim2SF_two. unfold SF64div.
  destruct (is_finite_spec a H) as [(s & ->) | (s & m & e & ->)]; [discriminate|].
  rewrite SFdiv_finite.
  destruct (div_core_spec m e 4503599627370496 (-51)) as (l & ->).
  destruct (@bra_cases (xorb s false)
              (Z.pos m * 2 ^ (e - -51 - Z.min (fexp prec emax
                 (Z.pos (digits2_pos m) + e - (Z.pos (digits2_pos 4503599627370496) + -51)))
                 (e - -51)) / 4503599627370496)
              (Z.min (fexp prec emax
                 (Z.pos (digits2_pos m) + e - (Z.pos (digits2_pos 4503599627370496) + -51)))
                 (e - -51)) l) as [-> | [-> | (m' & e' & ->)]]; try discriminate.
  apply Z.div_pos; [|lia]. apply Z.mul_nonneg_nonneg; [lia|]. apply Z.pow_nonneg. lia.
Qed.

Lemma SFadd_finite (sx : bool) (mx : positive) (ex : Z) (sy : bool) (my : positive) (ey : Z) :
  SFadd prec emax (S754_finite sx mx ex) (S754_finite sy my ey)
  = binary_normalize prec emax
      (Z.add (cond_Zopp sx (Zpos (fst (shl_align mx ex (Z.min ex ey)))))
             (cond_Zopp sy (Zpos (fst (shl_align my ey (Z.min ex ey))))))
      (Z.min ex ey) false.
Proof. reflexivity. Qed.

Lemma binary_normalize_number (m e : Z) (s : bool) :
  binary_normalize prec emax m e s <> S754_nan.
Proof.
  destruct m as [|p|p]; cbn [binary_normalize]; [discriminate| |].
  - destruct (binary_round_cases false p e) as [-> | [-> | (m' & e' & ->)]]; discriminate.
  - destruct (binary_round_cases true p e) as [-> | [-> | (m' & e' & ->)]]; discriminate.
Qed.

Lemma add_number (a b : float) :
  is_finite a = true -> is_nan b = false -> is_nan (a + b) = false.
Proof.
  intros Ha Hb. apply is_nan_spec in Hb. apply is_nan_spec.
  rewrite add_spec. unfold SF64add.
  destruct (is_finite_spec a Ha) as [(s & ->) | (s & m & e & ->)];
    destruct (Prim2SF b) as [s'|s'| |s' m' e']; try contradiction; try discriminate.
  - destruct s, s'; discriminate.
  - rewrite SFadd_finite. apply binary_normalize_number.
Qed.

(** A viewport height of at least 1: half of it is a positive number. *)
Lemma vh_half (v : float) :
  (1 <=? v)%float = true -> (v <? infinity)%float = true ->
  exists mh eh, Prim2SF (v / 2) = S754_finite false mh eh /\ -53 <= eh.
Proof.
  intros H1 H2. pose proof (Prim2SF_valid v) as V.
  rewrite leb_spec, Prim2SF_one in H1. rewrite ltb_spec, Prim2SF_infinity in H2.
  destruct (Prim2SF v) as [s|s| |s m e] eqn:E; try discriminate.
  - destruct s; discriminate.
  - destruct s; [discriminate|]. cbn [SpecFloat.valid_binary] in V. unfold SF1 in H1.
    rewrite SFleb_val in H1 by (assumption || exact one_bounded).
    apply Z.leb_le in H1. rewrite val_one in H1.
    destruct (@canonical_val m e V) as (He & [_ Hu] & _).
    assert (-52 <= e).
    { destruct (Z_le_gt_dec (-52) e) as [|G]; [assumption|]. exfalso.
      assert (2 ^ (53 + e + 1074) <= 2 ^ 1074) by (apply Z.pow_le_mono_r; lia). lia. }
    exists m, (e - 1). split; [now apply half_spec | lia].
Qed.

(** The distance [abs (c - h)] of a finite [c] from a positive [h], as the
    rounding of the exact difference. *)
Lemma abs_sub_finite (c h : float) (sc : bool) (mc : positive) (ec : Z)
    (mh : positive) (eh : Z) :
  Prim2SF c = S754_finite sc mc ec ->
  Prim2SF h = S754_finite false mh eh ->
  let ez := Z.min ec eh in
  let C := Z.pos mc * 2 ^ (ec - ez) in
  let H := Z.pos mh * 2 ^ (eh - ez) in
  let D := (if sc then - C else C) - H in
  val C ez = val (Z.pos mc) ec /\ val H ez = val (Z.pos mh) eh /\
  Prim2SF (abs (c - h))
  = match Z.abs D with
    | Zpos p => binary_round prec emax false p ez
    | _ => S754_zero false
    end.
Proof.
  intros Ec Eh ez C H D.
  pose proof (Prim2SF_valid c) as Bc. rewrite Ec in Bc. cbn [SpecFloat.valid_binary] in Bc.
  pose proof (Prim2SF_valid h) as Bh. rewrite Eh in Bh. cbn [SpecFloat.valid_binary] in Bh.
  destruct (@bounded_canonical mc ec Bc) as (Hec & _ & _).
  destruct (@bounded_canonical mh eh Bh) as (Heh & _ & _).
  split; [unfold C; rewrite val_shift by lia; f_equal; lia|].
  split; [unfold H; rewrite val_shift by lia; f_equal; lia|].
  rewrite abs_spec, sub_spec, Ec, Eh. unfold SF64sub. rewrite SFsub_finite.
  destruct (shl_align_spec mc ec (Z.min ec eh)) as [A1 _].
  destruct (shl_align_spec mh eh (Z.min ec eh)) as [A2 _].
  unfold cond_Zopp. rewrite A1, A2. fold ez.
  replace (Z.max 0 (ec - ez)) with (ec - ez) by lia.
  replace (Z.max 0 (eh - ez)) with (eh - ez) by lia.
  fold C. fold H. fold D.
  destruct D as [|p|p]; cbn [binary_normalize Z.abs]; [reflexivity| |];
    apply binary_round_abs.
Qed.

(** A finite centre off the viewport's centre: the distance is at least
    [2^-53] times the viewport's half height. *)
Lemma distance_off (c h : float) (sc : bool) (mc : positive) (ec : Z)
    (mh : positive) (eh : Z) :
  Prim2SF c = S754_finite sc mc ec ->
  Prim2SF h = S754_finite false mh eh ->
  -53 <= eh ->
  (c =? h)%float = false ->
  Prim2SF (abs (c - h)) = S754_infinity false \/
  exists md ed, Prim2SF (abs (c - h)) = S754_finite false md ed /\
                val (Zpos mh) eh <= val (Zpos md) ed * 2 ^ 53.
Proof.
  intros Ec Eh He Hne.
  pose proof (Prim2SF_valid c) as Bc. rewrite Ec in Bc. cbn [SpecFloat.valid_binary] in Bc.
  pose proof (Prim2SF_valid h) as Bh. rewrite Eh in Bh. cbn [SpecFloat.valid_binary] in Bh.
  destruct (@bounded_canonical mc ec Bc) as (Hec & _ & _).
  destruct (@bounded_canonical mh eh Bh) as (Heh & _ & _).
  destruct (@bounded_mantissa mc ec Bc) as (Uc & Lc).
  destruct (@bounded_mantissa mh eh Bh) as (Uh & Lh). specialize (Lh ltac:(lia)).
  rewrite pow2_53, pow2_52 in *.
  destruct (@shifted_bounded mh eh Bh He) as (BT & VT).
  destruct (@abs_sub_finite c h sc mc ec mh eh Ec Eh) as (VC & VH & ED).
  cbv zeta in VC, VH, ED.
  set (ez := Z.min ec eh) in *.
  set (C := Z.pos mc * 2 ^ (ec - ez)) in *.
  set (H := Z.pos mh * 2 ^ (eh - ez)) in *.
  set (D := (if sc then - C else C) - H) in *.
  assert (Hez : -1074 <= ez) by (unfold ez; lia).
  assert (U : 0 < 2 ^ (ez + 1074)) by (apply Z.pow_pos_nonneg; lia).
  assert (HC : 0 < C) by (unfold C; apply Z.mul_pos_pos; [lia | apply Z.pow_pos_nonneg; lia]).
  assert (HH : 0 < H) by (unfold H; apply Z.mul_pos_pos; [lia | apply Z.pow_pos_nonneg; lia]).
  (* the exact difference is at least [2^-53] times [h] *)
  assert (Key : H <= Z.abs D * 9007199254740992).
  { unfold D. destruct sc; [lia|].
    assert (NE : C <> H).
    { intros E. rewrite eqb_spec, Ec, Eh in Hne. unfold SFeqb in Hne.
      rewrite compare_val in Hne by assumption.
      rewrite <- VC, <- VH, E, Z.compare_refl in Hne. discriminate. }
    destruct (Z_le_gt_dec eh ec) as [L|G].
    - assert (H = Z.pos mh).
      { unfold H. replace (eh - ez) with 0 by (unfold ez; lia). rewrite Z.pow_0_r. lia. }
      lia.
    - assert (EC : C = Z.pos mc).
      { unfold C. replace (ec - ez) with 0 by (unfold ez; lia). rewrite Z.pow_0_r. lia. }
      assert (P2 : 2 <= 2 ^ (eh - ez)) by (apply pow2_ge_2; unfold ez; lia).
      assert (HB : 9007199254740992 <= H) by (unfold H; nia).
      lia. }
  assert (VD : val (Z.pos mh) (eh - 53) <= val (Z.abs D) ez).
  { apply (Z.mul_le_mono_pos_r _ _ (2 ^ 53)); [lia|]. rewrite VT, <- VH, pow2_53.
    unfold val. rewrite <- Z.mul_assoc, (Z.mul_comm (2 ^ (ez + 1074))), Z.mul_assoc.
    apply Z.mul_le_mono_nonneg_r; lia. }
  destruct (Z.abs D) as [|p|p] eqn:EA; [unfold val in VD at 2 | | lia].
  - exfalso. destruct (@canonical_val mh (eh - 53) BT) as (_ & [P _] & _). lia.
  - pose proof (@binary_round_lower p ez mh (eh - 53) Hez BT VD) as R.
    rewrite ED.
    destruct (binary_round prec emax false p ez) as [[|]|[|]| |[|] md ed];
      try contradiction; [now left | right].
    exists md, ed. split; [reflexivity|]. rewrite <- VT.
    apply Z.mul_le_mono_nonneg_r; lia.
Qed.

(** The distance of a centre off the viewport's centre: not a number,
    at or beyond the half height, or at least [2^-53] times it. *)
Lemma distance_cases (c h : float) (mh : positive) (eh : Z) :
  Prim2SF h = S754_finite false mh eh ->
  -53 <= eh ->
  (c =? h)%float = false ->
  let d := abs (c - h) in
  d = nan \/
  (nonneg (Prim2SF d) /\ (h <=? d)%float = true) \/
  exists md ed, Prim2SF d = S754_finite false md ed /\
                val (Zpos mh) eh <= val (Zpos md) ed * 2 ^ 53.
Proof.
  intros Eh He Hne d.
  pose proof (Prim2SF_valid h) as Bh. rewrite Eh in Bh. cbn [SpecFloat.valid_binary] in Bh.
  destruct (Prim2SF c) as [s|s| |sc mc ec] eqn:Ec.
  - right. left.
    assert (Ed : Prim2SF d = S754_finite false mh eh).
    { unfold d. rewrite abs_spec, sub_spec, Ec, Eh. now destruct s. }
    rewrite leb_spec, Ed, Eh, SFleb_val by assumption.
    split; [exact I | apply Z.leb_refl].
  - right. left.
    assert (Ed : Prim2SF d = S754_infinity false).
    { unfold d. rewrite abs_spec, sub_spec, Ec, Eh. now destruct s. }
    rewrite leb_spec, Ed, Eh. split; [exact I | reflexivity].
  - left. apply is_nan_true. unfold d. rewrite abs_spec, sub_spec, Ec, Eh. reflexivity.
  - destruct (@distance_off c h sc mc ec mh eh Ec Eh He Hne) as [Ed | (md & ed & Ed & Hb)].
    + right. left. fold d in Ed. rewrite leb_spec, Ed, Eh. split; [exact I | reflexivity].
    + right. right. exists md, ed. split; assumption.
Qed.

(** Off the viewport's centre the intensity is not 1. *)
Lemma off_centre (c h : float) (mh : positive) (eh : Z) :
  Prim2SF h = S754_finite false mh eh ->
  -53 <= eh ->
  (c =? h)%float = false ->
  (1 - Math_min (abs (c - h) / h) 1)%float <> 1%float.
Proof.
  intros Eh He Hne.
  destruct (@distance_cases c h mh eh Eh He Hne) as [Ed | [[Hn Hle] | (md & ed & Ed & Hb)]];
    cbv zeta in *.
  - rewrite Ed.
    assert (Eq : (nan / h)%float = nan).
    { apply is_nan_true. rewrite div_spec, Eh. reflexivity. }
    rewrite Eq. intros E. apply (f_equal Prim2SF) in E. vm_compute in E. discriminate.
  - rewrite (@far_ratio _ h mh eh Eh Hn Hle). exact zero_not_one.
  - assert (Hd : nonneg (Prim2SF (abs (c - h)))) by (rewrite Ed; exact I).
    pose proof (@div_nonneg _ h mh eh Hd Eh) as Hq.
    destruct (min_one _ Hq) as [[L ->] | [_ ->]]; [|exact zero_not_one].
    destruct (@div_ge_tiny _ h md ed mh eh Ed Eh He Hb) as [Ei | (m & e & Eq & Hge)].
    + rewrite ltb_spec, Ei in L. discriminate.
    + pose proof (@sub_from_one_strict _ m e Eq L Hge) as S.
      intros E. rewrite E in S. discriminate.
Qed.

(** The distance is 0 exactly on the viewport's centre. *)
Lemma distance_zero (c h : float) (mh : positive) (eh : Z) :
  Prim2SF h = S754_finite false mh eh ->
  -53 <= eh ->
  (abs (c - h) =? 0)%float = (c =? h)%float.
Proof.
  intros Eh He. destruct (c =? h)%float eqn:Hc.
  - pose proof (Prim2SF_valid h) as Bh. rewrite Eh in Bh. cbn [SpecFloat.valid_binary] in Bh.
    pose proof (Prim2SF_valid c) as Bc.
    rewrite eqb_spec, Eh in Hc.
    destruct (Prim2SF c) as [s|s| |s m e] eqn:Ec;
      try (destruct s; discriminate); try discriminate.
    destruct s; [discriminate|]. cbn [SpecFloat.valid_binary] in Bc.
    unfold SFeqb in Hc. rewrite compare_val in Hc by assumption.
    destruct (Z.compare_spec (val (Z.pos m) e) (val (Z.pos mh) eh)) as [EV|?|?];
      try discriminate.
    destruct (@abs_sub_finite c h false m e mh eh Ec Eh) as (VC & VH & ED).
    cbv zeta in VC, VH, ED.
    destruct (@bounded_canonical m e Bc) as (Hre & _ & _).
    assert (EQ : Z.pos m * 2 ^ (e - Z.min e eh) = Z.pos mh * 2 ^ (eh - Z.min e eh))
      by (apply Z.le_antisymm; apply (@val_cancel _ _ (Z.min e eh)); lia).
    rewrite EQ, Z.sub_diag in ED. cbn [Z.abs] in ED.
    rewrite eqb_spec, ED. reflexivity.
  - destruct (@distance_cases c h mh eh Eh He Hc) as [Ed | [[Hn Hle] | (md & ed & Ed & Hb)]];
      cbv zeta in *.
    + rewrite Ed. reflexivity.
    + rewrite eqb_spec, Prim2SF_zero. rewrite leb_spec, Eh in Hle.
      destruct (Prim2SF (abs (c - h))) as [[|]|[|]| |[|] m e]; try contradiction;
        try reflexivity. discriminate.
    + rewrite eqb_spec, Ed. reflexivity.
Qed.

(** C9.  [update] of unnamed/part_003 (lines 8-20) and [handleScroll] of
    src/js/scrollEffects.js (lines 7-23), in binary64 as the code computes.
    The viewport height [vh] is the inner height, or 1 when that is 0 or
    not a number; the inner height is a whole number of pixels, so [vh] is
    at least 1 and finite.  Then:
    - the intensity is exactly 1 if and only if the centre the code
      computes, [top + height / 2], equals the viewport's centre [vh / 2],
    - which is the case if and only if the distance the code computes,
      [abs (centre - vh / 2)], is 0;
    - the intensity is exactly 0 when that distance is at least [vh / 2];
    - for a rectangle with a finite top and height the intensity lies
      between 0 and 1. *)
Theorem intensity_spec (rect : DOMRect) (innerHeight : float) :
  let vh := if is_nan innerHeight || is_zero innerHeight then 1%float else innerHeight in
  let centre := (top rect + height rect / 2)%float in
  (1 <=? vh)%float = true -> (vh <? infinity)%float = true ->
  (intensity rect innerHeight = 1%float <-> (centre =? vh / 2)%float = true) /\
  ((centre =? vh / 2)%float = true <-> (abs (centre - vh / 2) =? 0)%float = true) /\
  ((vh / 2 <=? abs (centre - vh / 2))%float = true -> intensity rect innerHeight = 0%float) /\
  (is_finite (top rect) = true -> is_finite (height rect) = true ->
   (0 <=? intensity rect innerHeight)%float = true /\
   (intensity rect innerHeight <=? 1)%float = true).
Proof.
  intros v centre H1 H2.
  assert (Ev : Scroll64.vh innerHeight = v).
  { unfold Scroll64.vh, toBoolean, v. now destruct (is_nan innerHeight || is_zero innerHeight). }
  destruct (@vh_half v H1 H2) as (mh & eh & Eh & He).
  unfold intensity, normalized, distance, center. rewrite Ev. fold centre.
  split; [|split; [|split]].
  - split.
    + intros Hi. destruct (centre =? v / 2)%float eqn:Hc; [reflexivity|].
      exfalso. exact (@off_centre centre (v / 2) mh eh Eh He Hc Hi).
    + intros Hc. rewrite (@centred_ratio centre (v / 2) mh eh Eh Hc). reflexivity.
  - rewrite (@distance_zero centre (v / 2) mh eh Eh He). tauto.
  - intros Hd.
    assert (Hn : nonneg (Prim2SF (abs (centre - v / 2)))).
    { apply abs_number_nonneg. intros E. rewrite leb_spec, E, Eh in Hd. discriminate. }
    rewrite (@far_ratio (abs (centre - v / 2)) (v / 2) mh eh Eh Hn Hd). reflexivity.
  - intros Ht Hh.
    assert (Hc : is_nan centre = false).
    { unfold centre. apply add_number; [assumption | now apply half_number]. }
    apply intensity_of_ratio.
    apply (@div_nonneg _ (v / 2) mh eh); [|assumption].
    now apply (@abs_sub_nonneg centre (v / 2) mh eh).
Qed.

Lemma intensity_spec_witness :
  let rect := {| top := 400; height := 200 |} in
  let centred := {| top := 100; height := 200 |} in
  let near := {| top := 99; height := 200 |} in
  intensity rect 400 = 0%float /\ intensity centred 400 = 1%float /\
  intensity near 400 <> 1%float /\
  (0 <=? intensity near 400)%float = true /\ (intensity near 400 <=? 1)%float = true.
Proof.
  intros rect centred near.
  destruct (@intensity_spec rect 400 eq_refl eq_refl) as (_ & _ & F & _).
  destruct (@intensity_spec centred 400 eq_refl eq_refl) as (C & _ & _ & _).
  destruct (@intensity_spec near 400 eq_refl eq_refl) as (N & _ & _ & R).
  split; [apply F; reflexivity|]. split; [apply C; reflexivity|].
  split; [intros E; apply N in E; discriminate|].
  apply (R eq_refl eq_refl).
Defined.

(** The comparison is between the numbers the code computes: a top that
    is off by less than the rounding of [top + height / 2], here by
    [2^-70] of a pixel, gives the computed centre 500 and the intensity 1. *)
Example centre_within_rounding :
  let rect := {| top := -0x1p-70; height := 1000 |} in
  intensity rect 1000 = 1%float /\
  ~ (toQ (top rect) + toQ (height rect) / 2 == toQ 1000 / 2)%Q.
Proof.
  split; [reflexivity|]. vm_compute. discriminate.
Qed.

(** At the pulse threshold rounding decides: this element is nearer to the
    centre than three tenths of the viewport height, the intensity the code
    computes is the number [0.4] denotes, and the pulse class stays off. *)
Example pulse_at_the_threshold :
  let rect := {| top := 0x1.6c66666666666p+8; height := 500 |} in
  intensity rect 768 = 0x1.999999999999ap-2%float /\
  pulse (update rect 768) = false /\
  (Qabs (toQ (top rect) + toQ (height rect) / 2 - toQ 768 / 2) < (3 # 10) * toQ 768)%Q.
Proof. repeat split. Qed.

End Scroll64Facts.


(* ================================================================= *)
(** * The mesh parser *)

Module ObjParserFacts.

Import Js ObjParser.
Local Open Scope string_scope.
Local Open Scope list_scope.
Local Open Scope nat_scope.

Lemma emitCorners_eq (cs : list corner) (st : state) :
  fold_left emitCorner cs st =
  {| v := v st; vn := vn st;
     outPositions := outPositions st ++ flat_map (cornerPosition st) cs;
     outNormals := outNormals st ++ flat_map (cornerNormal st) cs |}.
Proof.
  revert st. induction cs as [|c cs IH]; intros st; simpl.
  - rewrite !app_nil_r. now destruct st.
  - rewrite IH. simpl. unfold cornerPosition at 2, cornerNormal at 2. simpl.
    now rewrite <- !app_assoc.
Qed.

Lemma emitTriangles_eq (ts : list (list corner)) (st : state) :
  fold_left emitTriangle ts st =
  {| v := v st; vn := vn st;
     outPositions := outPositions st ++ flat_map (cornerPosition st) (List.concat ts);
     outNormals := outNormals st ++ flat_map (cornerNormal st) (List.concat ts) |}.
Proof.
  revert st. induction ts as [|t ts IH]; intros st; simpl.
  - rewrite !app_nil_r. now destruct st.
  - rewrite IH. unfold emitTriangle. rewrite emitCorners_eq. simpl.
    rewrite !flat_map_app, <- !app_assoc. reflexivity.
Qed.

Lemma cornerPosition_length st c : List.length (cornerPosition st c) = 3.
Proof. reflexivity. Qed.

Lemma cornerNormal_length st c : List.length (cornerNormal st c) = 3.
Proof. unfold cornerNormal. now destruct (hasNormal c). Qed.

Lemma flat_map_length3 (A B : Type) (f : A -> list B) (l : list A) :
  (forall a, List.length (f a) = 3) -> List.length (flat_map f l) = 3 * List.length l.
Proof.
  intros Hf. induction l as [|a l IH]; simpl; [reflexivity|].
  rewrite length_app, Hf, IH. lia.
Qed.


Lemma triangles_corners verts :
  List.length (List.concat (triangles verts)) = 3 * (List.length verts - 2).
Proof.
  unfold triangles. rewrite <- (length_seq (List.length verts - 2) 1) at 2.
  induction (seq 1 (List.length verts - 2)) as [|t ts IH]; simpl; [reflexivity|].
  rewrite IH. lia.
Qed.

Lemma pushFace_eq st parts :
  let verts := map (parseCorner st) (tl parts) in
  pushFace st parts =
  {| v := v st; vn := vn st;
     outPositions := outPositions st
                     ++ flat_map (cornerPosition st) (List.concat (triangles verts));
     outNormals := outNormals st
                   ++ flat_map (cornerNormal st) (List.concat (triangles verts)) |}.
Proof. intros verts. unfold pushFace. apply emitTriangles_eq. Qed.

Lemma tl_length (A : Type) (l : list A) : List.length (tl l) = List.length l - 1.
Proof. destruct l; simpl; lia. Qed.

Section Worker.

Variable parseFloat : string -> float.
Variable fround : float -> float.

Lemma processLine_lengths st line :
  let st' := processLine parseFloat st line in
  List.length (outPositions st') = List.length (outPositions st) + 9 * triCount line /\
  List.length (outNormals st') = List.length (outNormals st) + 9 * triCount line /\
  (exists a, v st' = v st ++ a /\ (List.length a = 0 \/ List.length a = 3)) /\
  (exists a, vn st' = vn st ++ a /\ (List.length a = 0 \/ List.length a = 3)).
Proof.
  assert (Hsame : forall st0 : state,
    List.length (outPositions st0) = List.length (outPositions st0) + 9 * 0 /\
    List.length (outNormals st0) = List.length (outNormals st0) + 9 * 0 /\
    (exists a, v st0 = v st0 ++ a /\ (List.length a = 0 \/ List.length a = 3)) /\
    (exists a, vn st0 = vn st0 ++ a /\ (List.length a = 0 \/ List.length a = 3))).
  { intros st0. repeat split; try lia; exists []; rewrite app_nil_r; auto. }
  unfold processLine, triCount, faceArity. cbv zeta.
  destruct (lineParts line) as [parts|]; [|apply Hsame].
  destruct ((nth 0 parts "" =? "v")%string && (4 <=? List.length parts)).
  { unfold pushVertex; cbn [v vn outPositions outNormals].
    repeat split; try lia; [eexists; split; [reflexivity|auto] | exists []; rewrite app_nil_r; auto]. }
  destruct ((nth 0 parts "" =? "vn")%string && (4 <=? List.length parts)).
  { unfold pushNormal; cbn [v vn outPositions outNormals].
    repeat split; try lia; [exists []; rewrite app_nil_r; auto | eexists; split; [reflexivity|auto]]. }
  destruct ((nth 0 parts "" =? "f")%string && (4 <=? List.length parts)); [|apply Hsame].
  rewrite pushFace_eq. cbn [v vn outPositions outNormals].
  rewrite !length_app.
  rewrite (flat_map_length3 _ _ (cornerPosition_length st)).
  rewrite (flat_map_length3 _ _ (cornerNormal_length st)).
  rewrite triangles_corners, length_map, tl_length.
  repeat split; try lia; exists []; rewrite app_nil_r; auto.
Qed.


(** The arrays [v] and [vn] only ever hold whole triples, which makes
    [a.length / 3] exact. *)
Lemma fold_stride lines st :
  let st' := fold_left (processLine parseFloat) lines st in
  (List.length (v st) mod 3 = 0 -> List.length (v st') mod 3 = 0) /\
  (List.length (vn st) mod 3 = 0 -> List.length (vn st') mod 3 = 0).
Proof.
  revert st. induction lines as [|line lines IH]; intros st; cbn [fold_left]; [auto|].
  destruct (IH (processLine parseFloat st line)) as [H1 H2].
  destruct (processLine_lengths st line) as (_ & _ & (a & Ea & Ha) & (b & Eb & Hb)).
  split; intros H; [apply H1; rewrite Ea | apply H2; rewrite Eb]; rewrite length_app;
    rewrite Nat.Div0.add_mod, H; [destruct Ha as [->| ->] | destruct Hb as [->| ->]];
    reflexivity.
Qed.

Lemma parse_stride text :
  List.length (v (parse parseFloat text)) mod 3 = 0 /\
  List.length (vn (parse parseFloat text)) mod 3 = 0.
Proof.
  unfold parse. destruct (fold_stride (splitLines text) init) as [H1 H2].
  split; [apply H1 | apply H2]; reflexivity.
Qed.




(** C6. The worker answers a message with exactly one message: the error
    descriptor when the data is not a string, the two buffers when it is. *)
Theorem onmessage_reply (e_data : data) :
  (exists m, onmessage parseFloat fround e_data = [m] /\
             isError m = negb (isString e_data)) /\
  onmessage parseFloat fround NotString = [ErrorMsg "Expected string"] /\
  forall text,
    onmessage parseFloat fround (Str text)
    = [MeshMsg (Float32Array fround (outPositions (parse parseFloat text)))
               (Float32Array fround (outNormals (parse parseFloat text)))].
Proof.
  split; [|split; reflexivity].
  destruct e_data; eexists; split; reflexivity.
Qed.


End Worker.

Local Open Scope Z_scope.

(** C4. A negative index [n] resolves to position [count + n], counting
    the vertices (or normals) read so far from zero; a positive index [n]
    resolves to position [n - 1]; and [-1] reads the last vertex read so
    far. *)
Theorem index_resolution (st : state) (str : string) (n : Z) :
  parseInt str = Some n ->
  (n < 0 -> parseVertexIndex st str = Some (count (v st) + n) /\
            parseNormalIndex st str = Some (count (vn st) + n)) /\
  (0 < n -> parseVertexIndex st str = Some (n - 1) /\
            parseNormalIndex st str = Some (n - 1)) /\
  (forall v0 x y z vn0 op on,
     (List.length v0 mod 3 = 0)%nat ->
     let st1 := {| v := v0 ++ [x; y; z]; vn := vn0; outPositions := op; outNormals := on |} in
     parseVertexIndex st1 "-1" = Some (count (v st1) - 1) /\
     count (v st1) - 1 = count v0 /\
     cornerPosition st1 (parseCorner st1 "-1") = [Number x; Number y; Number z]).
Proof.
  intros Hn. split; [|split].
  - unfold parseVertexIndex, parseNormalIndex, resolve. rewrite Hn.
    intros H. apply Z.ltb_lt in H. now rewrite H.
  - unfold parseVertexIndex, parseNormalIndex, resolve. rewrite Hn.
    intros H. assert (H' : (n <? 0) = false) by (apply Z.ltb_ge; lia). now rewrite H'.
  - intros v0 x y z vn0 op on Hmod st1.
    assert (Hcount : count (v st1) - 1 = count v0).
    { unfold count, st1; cbn [v]. rewrite length_app. cbn [List.length].
      apply Nat.Div0.div_exact in Hmod. rewrite Hmod.
      replace (Z.of_nat (3 * (List.length v0 / 3) + 3))
        with ((Z.of_nat (List.length v0 / 3) + 1) * 3) by lia.
      rewrite Z.div_mul by lia.
      replace (Z.of_nat (3 * (List.length v0 / 3)))
        with (Z.of_nat (List.length v0 / 3) * 3) by lia.
      rewrite Z.div_mul by lia. lia. }
    assert (Hv0 : Z.of_nat (List.length v0) = count v0 * 3).
    { unfold count. apply Nat.Div0.div_exact in Hmod. rewrite Hmod at 1.
      rewrite Hmod at 2.
      replace (Z.of_nat (3 * (List.length v0 / 3)))
        with (Z.of_nat (List.length v0 / 3) * 3) by lia.
      rewrite Z.div_mul by lia. reflexivity. }
    assert (Hidx : parseVertexIndex st1 "-1" = Some (count (v st1) - 1)).
    { unfold parseVertexIndex, resolve.
      change (parseInt "-1") with (Some (-1)). cbn [Z.ltb Z.compare].
      f_equal. }
    split; [exact Hidx|]. split; [exact Hcount|].
    unfold cornerPosition, parseCorner. cbn [vi].
    change (nth 0 (splitChar "/" "-1") ""%string) with "-1"%string.
    rewrite Hidx, Hcount. unfold slot, option_map, get.
    assert (Hge : forall j, 0 <= j -> (count v0 * 3 + j <? 0) = false).
    { intros j Hj. apply Z.ltb_ge. unfold count.
      pose proof (Z.div_pos (Z.of_nat (List.length v0)) 3). lia. }
    rewrite !Hge by lia.
    assert (Hnth : forall j, 0 <= j ->
      nth_error (v st1) (Z.to_nat (count v0 * 3 + j)) = nth_error [x; y; z] (Z.to_nat j)).
    { intros j Hj. rewrite <- Hv0.
      replace (Z.to_nat (Z.of_nat (List.length v0) + j))
        with (List.length v0 + Z.to_nat j)%nat by lia.
      unfold st1; cbn [v]. rewrite nth_error_app2 by lia. f_equal. lia. }
    rewrite (Hnth 0), (Hnth 1), (Hnth 2) by lia. reflexivity.
Qed.

Local Close Scope Z_scope.

(** The last reference of the sample quad, [-1], is vertex 3 of 4. *)
Lemma index_resolution_witness :
  parseInt "-1" = Some (-1)%Z /\
  parseVertexIndex sampleState "-1" = Some 3%Z /\
  parseInt "2" = Some 2%Z /\
  parseVertexIndex sampleState "2" = Some 1%Z.
Proof.
  split; [reflexivity|]. split.
  - apply (proj1 (proj1 (index_resolution sampleState "-1" eq_refl) eq_refl)).
  - split; [reflexivity|].
    apply (proj1 (proj1 (proj2 (index_resolution sampleState "2" eq_refl)) eq_refl)).
Defined.



Example sampleQuad_normals :
  outNormals (processLine wholeNumber sampleState sampleQuad)
  = map Number [0; 0; 1; 0; 0; 1; 0; 0; 0; 0; 0; 1; 0; 0; 0; 0; 0; 0]%float.
Proof. vm_compute. reflexivity. Qed.

Example sampleQuad_positions :
  outPositions (processLine wholeNumber sampleState sampleQuad)
  = map Number [1; 2; 3; 4; 5; 6; 7; 8; 9; 1; 2; 3; 7; 8; 9; 10; 11; 12]%float.
Proof. vm_compute. reflexivity. Qed.

End ObjParserFacts.

(* ================================================================= *)
(** * Decimation *)

Module GeometryFacts.

Import Geometry.
Local Open Scope list_scope.
Local Open Scope nat_scope.

Lemma picks_length i step n : List.length (picks i step n) = n.
Proof. revert i. induction n as [|n IH]; intros i; simpl; [reflexivity | now rewrite IH]. Qed.

Lemma picks_nth i step n j : j < n -> nth j (picks i step n) 0 = i + j * step.
Proof.
  revert i j. induction n as [|n IH]; intros i j Hj; [lia|].
  destruct j as [|j]; simpl; [lia|]. rewrite IH by lia. lia.
Qed.

(** [ceilDiv m n] is the least number of steps of [n] that cover [m]. *)
Lemma ceilDiv_spec m n :
  1 <= n -> m <= ceilDiv m n * n /\ ceilDiv m n * n < m + n.
Proof.
  intros Hn. unfold ceilDiv.
  pose proof (Nat.div_mod_eq (m + n - 1) n) as E.
  pose proof (Nat.mod_upper_bound (m + n - 1) n). nia.
Qed.

Lemma ceilDiv_zero n : 1 <= n -> ceilDiv 0 n = 0.
Proof. intros Hn. unfold ceilDiv. apply Nat.div_small. lia. Qed.

Lemma ceilDiv_step m n : 1 <= n -> 0 < m -> ceilDiv m n = S (ceilDiv (m - n) n).
Proof.
  intros Hn Hm. unfold ceilDiv.
  destruct (Nat.le_gt_cases m n) as [Hle|Hgt].
  - replace (m - n) with 0 by lia.
    rewrite (Nat.div_small (0 + n - 1) n) by lia.
    symmetry. apply (Nat.div_unique (m + n - 1) n 1 (m - 1)); lia.
  - replace (m + n - 1) with (m - n + n - 1 + 1 * n) by lia.
    rewrite Nat.div_add by lia. lia.
Qed.

Lemma ceilDiv_pos m n : 1 <= n -> 0 < m -> 0 < ceilDiv m n.
Proof. intros Hn Hm. rewrite ceilDiv_step by assumption. lia. Qed.

Lemma decimateLoop_spec fuel pos norm cnt step i outPos outNorm :
  1 <= step -> cnt - i <= fuel ->
  decimateLoop fuel pos norm cnt step i outPos outNorm
  = Some (outPos ++ flat_map (tripleList pos) (picks i step (ceilDiv (cnt - i) step)),
          match norm, outNorm with
          | Some nrm, Some o =>
              Some (o ++ flat_map (tripleList nrm) (picks i step (ceilDiv (cnt - i) step)))
          | _, _ => outNorm
          end).
Proof.
  intros Hstep. revert i outPos outNorm.
  induction fuel as [|fuel IH]; intros i outPos outNorm Hfuel.
  - simpl. replace (cnt <=? i) with true by (symmetry; apply Nat.leb_le; lia).
    replace (cnt - i) with 0 by lia. rewrite ceilDiv_zero by assumption. simpl.
    rewrite app_nil_r. destruct norm, outNorm; try reflexivity. now rewrite app_nil_r.
  - simpl. destruct (Nat.leb_spec cnt i) as [Hle|Hlt].
    + replace (cnt - i) with 0 by lia. rewrite ceilDiv_zero by assumption. simpl.
      rewrite app_nil_r. destruct norm, outNorm; try reflexivity. now rewrite app_nil_r.
    + rewrite IH by lia.
      rewrite (@ceilDiv_step (cnt - i) step Hstep) by lia.
      replace (cnt - i - step) with (cnt - (i + step)) by lia.
      cbn [picks flat_map].
      destruct norm, outNorm; unfold tripleList at 1; rewrite <- ?app_assoc;
        reflexivity.
Qed.

Lemma decimateLoopPos_spec fuel pos cnt step i outPos :
  1 <= step -> cnt - i <= fuel ->
  decimateLoopPos fuel pos cnt step i outPos
  = Some (outPos ++ flat_map (tripleList pos) (picks i step (ceilDiv (cnt - i) step))).
Proof.
  intros Hstep. revert i outPos.
  induction fuel as [|fuel IH]; intros i outPos Hfuel.
  - simpl. replace (cnt <=? i) with true by (symmetry; apply Nat.leb_le; lia).
    replace (cnt - i) with 0 by lia. rewrite ceilDiv_zero by assumption. simpl.
    now rewrite app_nil_r.
  - simpl. destruct (Nat.leb_spec cnt i) as [Hle|Hlt].
    + replace (cnt - i) with 0 by lia. rewrite ceilDiv_zero by assumption. simpl.
      now rewrite app_nil_r.
    + rewrite IH by lia.
      rewrite (@ceilDiv_step (cnt - i) step Hstep) by lia.
      replace (cnt - i - step) with (cnt - (i + step)) by lia.
      cbn [picks flat_map]. unfold tripleList at 1. now rewrite <- !app_assoc.
Qed.

(** With a step of 0 the loop never leaves index 0. *)
Lemma decimateLoop_diverges fuel pos norm cnt outPos outNorm :
  0 < cnt -> decimateLoop fuel pos norm cnt 0 0 outPos outNorm = None.
Proof.
  intros Hcnt. revert outPos outNorm.
  induction fuel as [|fuel IH]; intros outPos outNorm; simpl;
    destruct (Nat.leb_spec cnt 0); try lia; [reflexivity | apply IH].
Qed.

Lemma flat_map_triples_length a l : List.length (flat_map (tripleList a) l) = 3 * List.length l.
Proof. induction l as [|x l IH]; simpl; lia. Qed.

Lemma flat_map_triples_nth a l j k :
  j < List.length l -> k < 3 ->
  nth (j * 3 + k) (flat_map (tripleList a) l) nan = nth k (tripleList a (nth j l 0)) nan.
Proof.
  revert j. induction l as [|x l IH]; intros j Hj Hk; simpl in Hj; [lia|].
  destruct j as [|j].
  - simpl. destruct k as [|[|[|k]]]; try lia; reflexivity.
  - replace (S j * 3 + k) with (3 + (j * 3 + k)) by lia.
    cbn [flat_map]. unfold tripleList at 1. cbn [app nth Nat.add].
    apply IH; lia.
Qed.

Lemma count_triples pos M :
  itemSize pos = 3 -> List.length (array pos) = 3 * M -> count pos = M.
Proof.
  intros Hi Hl. unfold count. rewrite Hi, Hl, Nat.mul_comm. now apply Nat.div_mul.
Qed.

Lemma triple_decimated pos l j :
  j < List.length l ->
  triple (Float32BufferAttribute (flat_map (tripleList pos) l) 3) j = triple pos (nth j l 0).
Proof.
  intros Hj. unfold triple, getX, getY, getZ. cbn [array itemSize Float32BufferAttribute].
  replace (j * 3) with (j * 3 + 0) at 1 by lia.
  rewrite !flat_map_triples_nth by lia. reflexivity.
Qed.

(** C5. Decimating [M] triples with a step [N >= 1] ends and gives
    [ceil(M / N)] triples, the triples [0], [N], [2N], ... of the input;
    in particular triple 0 when there is one.  Both revisions of the
    function give the same positions. *)
Theorem decimate_count (geometry : BufferGeometry) (pos : BufferAttribute) (M N fuel : nat) :
  position geometry = Some pos ->
  itemSize pos = 3 ->
  List.length (array pos) = 3 * M ->
  1 <= N ->
  M <= fuel ->
  exists out outNorm,
    decimateForPoints fuel geometry N
    = Some (Some {| position := Some out; normal := outNorm |}) /\
    decimateForPointsPos fuel geometry N
    = Some (Some {| position := Some out; normal := None |}) /\
    count out = ceilDiv M N /\
    (forall j, j < ceilDiv M N -> j * N < M /\ triple out j = triple pos (j * N)) /\
    (0 < M -> 0 < count out /\ triple out 0 = triple pos 0).
Proof.
  intros Hpos Hitem Hlen HN Hfuel.
  pose proof (@count_triples pos M Hitem Hlen) as Hcount.
  set (l := picks 0 N (ceilDiv M N)).
  exists (Float32BufferAttribute (flat_map (tripleList pos) l) 3).
  assert (Hout : count (Float32BufferAttribute (flat_map (tripleList pos) l) 3) = ceilDiv M N).
  { unfold count. cbn [array itemSize Float32BufferAttribute].
    rewrite flat_map_triples_length, Nat.mul_comm, Nat.div_mul by discriminate.
    apply picks_length. }
  assert (Hj : forall j, j < ceilDiv M N ->
             j * N < M /\
             triple (Float32BufferAttribute (flat_map (tripleList pos) l) 3) j
             = triple pos (j * N)).
  { intros j Hlt. split.
    - destruct (@ceilDiv_spec M N HN) as [_ Hup]. nia.
    - rewrite triple_decimated by (unfold l; now rewrite picks_length).
      unfold l. now rewrite picks_nth. }
  unfold decimateForPoints, decimateForPointsPos. rewrite Hpos, Hcount.
  rewrite decimateLoop_spec, decimateLoopPos_spec by lia.
  rewrite Nat.sub_0_r. fold l. cbn [app].
  eexists. split; [reflexivity|]. split; [reflexivity|]. split; [exact Hout|].
  split; [exact Hj|].
  intros HM. pose proof (@ceilDiv_pos M N HN HM) as Hc. split; [lia|].
  destruct (Hj 0 Hc) as [_ E]. exact E.
Qed.

(** Five points, every second one: points 0, 2 and 4. *)
Lemma decimate_count_witness :
  exists out outNorm,
    decimateForPoints 5 sampleGeometry 2
    = Some (Some {| position := Some out; normal := outNorm |}) /\
    count out = 3 /\
    triple out 0 = (0, 1, 2)%float.
Proof.
  destruct (@decimate_count sampleGeometry
              {| array := [0; 1; 2; 10; 11; 12; 20; 21; 22; 30; 31; 32; 40; 41; 42]%float;
                 itemSize := 3 |} 5 2 5 eq_refl eq_refl eq_refl)
    as (out & outNorm & H1 & _ & H3 & _ & H5); [lia | lia |].
  exists out, outNorm. split; [exact H1|]. split; [exact H3|].
  apply H5. lia.
Defined.

Example decimate_sample :
  decimateForPoints 5 sampleGeometry 2
  = Some (Some {| position := Some {| array := [0; 1; 2; 20; 21; 22; 40; 41; 42]%float;
                                      itemSize := 3 |};
                  normal := Some {| array := [0; 0; 1; 1; 0; 0; 0; 1; 0]%float;
                                    itemSize := 3 |} |}).
Proof. vm_compute. reflexivity. Qed.

Example decimate_step_zero fuel : decimateForPoints fuel sampleGeometry 0 = None.
Proof.
  unfold decimateForPoints. cbn [position normal sampleGeometry].
  rewrite decimateLoop_diverges; [reflexivity|]. vm_compute. lia.
Qed.

End GeometryFacts.

(* ================================================================= *)
(** * The scan state machine and the pathway animation *)

Module SceneFacts.

Import Scene.
Local Open Scope list_scope.
Local Open Scope R_scope.

(** ** The remainder *)

Lemma Int_part_bounds (x : R) : IZR (Int_part x) <= x < IZR (Int_part x) + 1.
Proof. destruct (base_Int_part x) as [H1 H2]. lra. Qed.

Lemma rem_bounds (a b : R) : 0 <= a -> 0 < b -> 0 <= rem a b < b.
Proof.
  intros Ha Hb. unfold rem, trunc.
  assert (Hq : 0 <= a / b) by (apply Rmult_le_pos; [lra | left; now apply Rinv_0_lt_compat]).
  destruct (Rle_dec 0 (a / b)) as [_|Hn]; [|contradiction].
  destruct (Int_part_bounds (a / b)) as [H1 H2].
  assert (Ea : a = a / b * b) by (field; lra).
  set (k := IZR (Int_part (a / b))) in *.
  split; nra.
Qed.

(** ** The phase *)

Lemma advanceScan_complete s dt :
  scanPhase (scan s) = complete -> advanceScan s dt = s.
Proof. intros H. unfold advanceScan. now rewrite H. Qed.

Lemma animate_scan s dt t : scan (animate s dt t) = scan s.
Proof. unfold animate. now destruct (scanPhase (scan s)). Qed.

(** What a frame does to the scan state. *)
Lemma render_scan s now clock :
  let dt := (effectiveNow now clock - lastTime s) / 1000 in
  let y := scanY (scan s) + scanSpeed (scan s) * dt in
  scan (render s now clock) =
  match scanPhase (scan s) with
  | complete => scan s
  | scanning =>
      {| scanPhase := if Rgt_dec y (maxY (scan s)) then complete else scanning;
         scanY := y; scanSpeed := scanSpeed (scan s); maxY := maxY (scan s) |}
  end.
Proof.
  intros dt y. unfold render. rewrite animate_scan. unfold advanceScan.
  cbn [setLastTime scan lastTime]. fold dt. fold y.
  destruct (scanPhase (scan s)); [|reflexivity].
  now destruct (Rgt_dec y (maxY (scan s))).
Qed.

Lemma animate_lastTime s dt t : lastTime (animate s dt t) = lastTime s.
Proof. unfold animate. now destruct (scanPhase (scan s)). Qed.

Lemma advanceScan_lastTime s dt : lastTime (advanceScan s dt) = lastTime s.
Proof.
  unfold advanceScan. destruct (scanPhase (scan s)); [|reflexivity].
  now destruct (Rgt_dec _ _).
Qed.

Lemma render_lastTime s now clock :
  lastTime (render s now clock) = effectiveNow now clock.
Proof. unfold render. now rewrite animate_lastTime, advanceScan_lastTime. Qed.



(** A frame ends the scan exactly when the advanced coordinate is above
    the bound. *)
Lemma frame_transition rev s now clock :
  scanPhase (scan s) = scanning ->
  let s' := step rev s (Frame now clock) in
  scanY (scan s') = scanY (scan s)
                    + scanSpeed (scan s) * ((effectiveNow now clock - lastTime s) / 1000) /\
  maxY (scan s') = maxY (scan s) /\
  scanSpeed (scan s') = scanSpeed (scan s) /\
  (scanPhase (scan s') = complete <-> scanY (scan s') > maxY (scan s')).
Proof.
  intros H s'. unfold s'. cbn [step].
  pose proof (render_scan s now clock) as E. cbv zeta in E. rewrite E, H.
  cbn [scanY maxY scanSpeed scanPhase].
  repeat split; destruct (Rgt_dec _ _); try discriminate; auto; contradiction.
Qed.

Lemma run_cons rev e es s : run rev s (e :: es) = run rev (step rev s e) es.
Proof. reflexivity. Qed.

Lemma effectiveNow_nonzero now clock : now <> 0 -> effectiveNow now clock = now.
Proof. intros H. unfold effectiveNow. now destruct (Req_dec_T now 0). Qed.


(** ** The opacity of the lines *)








Lemma advanceScan_rest s dt :
  cycleTime (advanceScan s dt) = cycleTime s /\
  pathways (advanceScan s dt) = pathways s.
Proof.
  unfold advanceScan. destruct (scanPhase (scan s)); [|auto].
  now destruct (Rgt_dec _ _).
Qed.










(** The bound 0.7 is reached in the middle of a fade-in. *)
Example fade_peak : fade (newPathway 0) 0.75 = 0.7.
Proof.
  unfold fade. change (duration (newPathway 0)) with 1.5.
  destruct (Rlt_dec 0.75 1.5) as [_|Hn]; [|exfalso; lra].
  cbv zeta. replace (0.75 / 1.5 * PI) with (PI / 2) by lra.
  rewrite sin_PI2. lra.
Qed.

Lemma rem_small (a b : R) : 0 < b -> - b < a < b -> rem a b = a.
Proof.
  intros Hb [Hlo Hhi]. unfold rem, trunc.
  assert (Hq : -1 < a / b < 1).
  { split.
    - apply (Rmult_lt_reg_r b); [assumption|].
      replace (a / b * b) with a by (field; lra). lra.
    - apply (Rmult_lt_reg_r b); [assumption|].
      replace (a / b * b) with a by (field; lra). lra. }
  destruct (Rle_dec 0 (a / b)) as [Hp|Hn].
  - rewrite <- (Int_part_spec (a / b) 0) by (cbn; lra). cbn. lra.
  - rewrite <- (Int_part_spec (- (a / b)) 0) by (cbn; lra). cbn. lra.
Qed.

(** Why the time stamps must not go back: a frame stamped five seconds
    before the previous one leaves the last line with a negative opacity. *)
Example clock_stepping_back :
  exists p, In p (a_pathways (renderAmbient (initAmbient 10000) 5000 5000)) /\
            opacity p < 0.
Proof.
  assert (Hc : rem (a_cycleTime (initAmbient 10000)
                    + (effectiveNow 5000 5000 - a_lastTime (initAmbient 10000)) / 1000)
                   cycleDuration = -5).
  { rewrite effectiveNow_nonzero by lra. cbn [initAmbient a_cycleTime a_lastTime].
    unfold cycleDuration. rewrite rem_small; lra. }
  exists (animatePathway (-5) (newPathway 8)). split.
  - unfold renderAmbient. cbn [a_pathways]. rewrite Hc.
    apply in_map. unfold initPathways. apply in_map. cbn. tauto.
  - cbn [animatePathway opacity newPathway delay]. unfold cycleDuration.
    replace (-5 - INR 8 * 0.4 + 8) with (-0.2) by (cbn [INR]; lra).
    rewrite rem_small by lra.
    unfold fade. change (duration (newPathway 8)) with 1.5.
    destruct (Rlt_dec (-0.2) 1.5) as [_|Hn]; [|exfalso; lra].
    pose proof PI_RGT_0 as Hpi.
    assert (Hs : sin (-0.2 / 1.5 * PI) < 0) by (apply sin_lt_0_var; nra).
    cbv zeta. lra.
Qed.


End SceneFacts.

(* ================================================================= *)
(** * The scan state machine in binary64 *)

Module ScanFacts.

Import Scan.
Local Open Scope list_scope.
Local Open Scope nat_scope.

Lemma render_phase s now clock :
  let s' := render s now clock in
  match scanPhase (scan s) with
  | complete => s' = setLastTime (effectiveNow now clock) s
  | scanning =>
      scanY (scan s') = (scanY (scan s) + scanSpeed (scan s)
                         * ((effectiveNow now clock - lastTime s) / 1000))%float /\
      maxY (scan s') = maxY (scan s) /\
      scanSpeed (scan s') = scanSpeed (scan s) /\
      scanPhase (scan s') = (if above s' then complete else scanning)
  end.
Proof.
  unfold render, advanceScan, above. cbn [setLastTime scan lastTime].
  destruct (scanPhase (scan s)); [|reflexivity].
  destruct (maxY (scan s) <? _)%float eqn:E; cbn [scan scanY maxY scanSpeed scanPhase];
    rewrite E; auto.
Qed.

Lemma step_keeps_complete rev s e :
  scanPhase (scan s) = complete -> scanPhase (scan (step rev s e)) = complete.
Proof.
  intros H. destruct e as [now clock|lo hi|]; cbn [step].
  - pose proof (render_phase s now clock) as R. cbv zeta in R. rewrite H in R.
    rewrite R. exact H.
  - exact H.
  - destruct rev; [exact H | reflexivity].
Qed.

Lemma run_step rev e es s : run rev s (e :: es) = run rev (step rev s e) es.
Proof. reflexivity. Qed.

Lemma run_keeps_complete rev es s :
  scanPhase (scan s) = complete -> scanPhase (scan (run rev s es)) = complete.
Proof.
  revert s. induction es as [|e es IH]; intros s H; [exact H|].
  rewrite run_step. apply IH. now apply step_keeps_complete.
Qed.

Lemma frame_completes rev s now clock :
  scanPhase (scan s) = scanning ->
  (scanPhase (scan (step rev s (Frame now clock))) = complete <->
   above (step rev s (Frame now clock)) = true).
Proof.
  intros H. cbn [step].
  pose proof (render_phase s now clock) as R. cbv zeta in R. rewrite H in R.
  destruct R as (_ & _ & _ & ->).
  destruct (above (render s now clock)); split; congruence.
Qed.

Lemma step_completes rev s e :
  scanPhase (scan s) = scanning ->
  scanPhase (scan (step rev s e)) = complete ->
  (exists now clock, e = Frame now clock /\ above (step rev s e) = true) \/
  (rev = Loader /\ e = MeshFailed).
Proof.
  intros Hs Hc. destruct e as [now clock|lo hi|].
  - left. exists now, clock. split; [reflexivity|].
    now apply (frame_completes rev s now clock Hs).
  - cbn in Hc. congruence.
  - destruct rev; [cbn in Hc; congruence | right; auto].
Qed.

Lemma transitions_after_complete rev es s :
  scanPhase (scan s) = complete -> transitions rev s es = 0.
Proof.
  revert s. induction es as [|e es IH]; intros s H; [reflexivity|].
  cbn [transitions]. rewrite IH by now apply step_keeps_complete.
  unfold completes. now rewrite H.
Qed.

Lemma transitions_count rev es s :
  scanPhase (scan s) = scanning ->
  transitions rev s es
  = match scanPhase (scan (run rev s es)) with complete => 1 | scanning => 0 end.
Proof.
  revert s. induction es as [|e es IH]; intros s H.
  - cbn. now rewrite H.
  - rewrite run_step. cbn [transitions]. unfold completes. rewrite H.
    destruct (scanPhase (scan (step rev s e))) eqn:E.
    + now rewrite IH.
    + rewrite transitions_after_complete by assumption.
      now rewrite run_keeps_complete.
Qed.

Lemma transitions_at_most_one rev es s : transitions rev s es <= 1.
Proof.
  destruct (scanPhase (scan s)) eqn:H.
  - rewrite transitions_count by assumption.
    destruct (scanPhase (scan (run rev s es))); lia.
  - rewrite transitions_after_complete by assumption. lia.
Qed.

(** In the loader-based scene the error callback completes the scan with
    the coordinate still below the bound, and outside any frame. *)
Lemma loader_error_counterexample :
  let s := initScene 0 in
  let s' := step Loader s MeshFailed in
  scanPhase (scan s) = scanning /\
  scanPhase (scan s') = complete /\
  above s' = false /\
  ~ completes_only_in_frames Loader.
Proof.
  cbn. repeat split.
  intros H.
  destruct (H (initScene 0) MeshFailed) as (now & clock & E & _);
    [exists 0%float, []; reflexivity | reflexivity | reflexivity | discriminate].
Qed.

(** C1, amended.  The phase of a scene instance starts at [scanning],
    leaves it at most once and never returns to it; a run that reaches
    [complete] has exactly one transition.  The phase becomes [complete] in
    a frame, the first one that leaves the coordinate it has advanced above
    the bound ([scanY > maxY], in binary64), or, in the loader-based scene
    only, when the load of the mesh fails.  Nothing is said of whether a
    frame ever finds the coordinate above the bound. *)
Theorem scan_phase_once (rev : revision) (s : scene) :
  reachable rev s ->
  (forall t0, scanPhase (scan (initScene t0)) = scanning) /\
  (forall es, scanPhase (scan s) = complete ->
              scanPhase (scan (run rev s es)) = complete) /\
  (forall es, transitions rev s es <= 1) /\
  (forall es, scanPhase (scan s) = scanning ->
              scanPhase (scan (run rev s es)) = complete ->
              transitions rev s es = 1) /\
  (forall e, scanPhase (scan s) = scanning ->
             scanPhase (scan (step rev s e)) = complete ->
             (exists now clock, e = Frame now clock /\
                (maxY (scan (step rev s e)) <? scanY (scan (step rev s e)))%float = true) \/
             (rev = Loader /\ e = MeshFailed)) /\
  (forall now clock, scanPhase (scan s) = scanning ->
     let s' := step rev s (Frame now clock) in
     scanY (scan s') = (scanY (scan s) + scanSpeed (scan s)
                        * ((effectiveNow now clock - lastTime s) / 1000))%float /\
     maxY (scan s') = maxY (scan s) /\
     (scanPhase (scan s') = complete <-> (maxY (scan s') <? scanY (scan s'))%float = true)) /\
  completes_only_in_frames Worker.
Proof.
  intros Hr. split; [reflexivity|]. split; [|split; [|split; [|split; [|split]]]].
  - intros es H. now apply run_keeps_complete.
  - intros es. apply transitions_at_most_one.
  - intros es Hs Hc. rewrite transitions_count by assumption. now rewrite Hc.
  - intros e. apply step_completes.
  - intros now clock Hs s'.
    pose proof (render_phase s now clock) as R. cbv zeta in R. rewrite Hs in R.
    destruct R as (Hy & Hm & _ & _).
    split; [exact Hy|]. split; [exact Hm|].
    apply (frame_completes rev s now clock Hs).
  - intros s0 e _ Hs Hc.
    destruct (step_completes Worker s0 e Hs Hc) as [H | [H _]]; [exact H | discriminate].
Qed.

(** A run of the worker-based scene: a frame, the mesh, and the frame that
    completes the scan. *)
Lemma scan_phase_once_witness :
  let es := [Frame 16 16; MeshLoaded (-50) 50; Frame 3000 3000; Frame 3016 3016]%float in
  reachable Worker (initScene 0) /\
  scanPhase (scan (run Worker (initScene 0) es)) = complete /\
  transitions Worker (initScene 0) es = 1.
Proof.
  intros es.
  assert (H : reachable Worker (initScene 0)) by (exists 0%float, []; reflexivity).
  assert (Hc : scanPhase (scan (run Worker (initScene 0) es)) = complete) by reflexivity.
  split; [exact H|]. split; [exact Hc|].
  destruct (scan_phase_once H) as (_ & _ & _ & T & _).
  apply T; [reflexivity | exact Hc].
Defined.

(** The coordinate is accumulated frame by frame, each step rounding: a
    frame one millisecond after the start and one at three seconds leave it
    just above 120 and end the scan, where a single frame at three seconds
    leaves it at 120 exactly and the scan going. *)
Example accumulated_rounding :
  let s := run Worker (initScene 0) [Frame 1 1; Frame 3000 3000]%float in
  scanY (scan s) = 0x1.e000000000001p+6%float /\ scanPhase (scan s) = complete /\
  scanPhase (scan (run Worker (initScene 0) [Frame 3000 3000]%float)) = scanning.
Proof. repeat split. Qed.

Lemma infinity_not_below (y : float) : (infinity <? y)%float = false.
Proof.
  rewrite ltb_spec. change (Prim2SF infinity) with (S754_infinity false).
  destruct (Prim2SF y) as [s|s| |s m e]; try reflexivity. now destruct s.
Qed.

(** Frames alone never complete a scan whose bound is infinite, as it is
    for a mesh with a vertex at [Infinity]: that a scan ends is not a
    property of [render]. *)
Lemma scan_can_stall (es : list event) (s : scene) :
  forallb isFrame es = true ->
  scanPhase (scan s) = scanning -> maxY (scan s) = infinity ->
  scanPhase (scan (run Worker s es)) = scanning.
Proof.
  revert s. induction es as [|e es IH]; intros s Hf Hs Hm; [exact Hs|].
  cbn [forallb] in Hf. apply andb_true_iff in Hf as [He Hf].
  destruct e as [now clock| |]; try discriminate.
  rewrite run_step. cbn [step].
  pose proof (render_phase s now clock) as R. cbv zeta in R. rewrite Hs in R.
  destruct R as (_ & Hm' & _ & Hp).
  apply IH; [exact Hf | | congruence].
  rewrite Hp. unfold above. rewrite Hm', Hm. now rewrite infinity_not_below.
Qed.

(** ** The flags of the worker-based scene *)

Lemma step_flags rev s e :
  rev = Worker -> flagsFollowPhase s -> flagsFollowPhase (step rev s e).
Proof.
  intros -> H. unfold flagsFollowPhase in *.
  destruct e as [now clock|lo hi|]; cbn [step]; [|exact H|exact H].
  unfold render, advanceScan. cbn [setLastTime scan scanLineVisible autoRotate pathwaysVisible].
  destruct (scanPhase (scan s)) eqn:E.
  - destruct (_ <? _)%float;
      cbn [scan scanPhase pathwaysVisible autoRotate scanLineVisible]; tauto.
  - cbn [setLastTime scan scanPhase pathwaysVisible autoRotate scanLineVisible].
    rewrite E. exact H.
Qed.

(** X17. In the worker-based scene the pathway group is visible, and the
    camera rotates by itself, exactly when the scan is complete, and the
    scan line is hidden then. *)
Theorem flags_follow_phase (s : scene) :
  reachable Worker s ->
  (pathwaysVisible s = true <-> scanPhase (scan s) = complete) /\
  (autoRotate s = true <-> scanPhase (scan s) = complete) /\
  (scanPhase (scan s) = complete -> scanLineVisible s = false).
Proof.
  intros (t0 & es & ->).
  assert (H : flagsFollowPhase (run Worker (initScene t0) es)).
  { assert (G : forall s0, flagsFollowPhase s0 -> flagsFollowPhase (run Worker s0 es)).
    { induction es as [|e es IH]; intros s0 H0; [exact H0|].
      rewrite run_step. apply IH. now apply step_flags. }
    apply G. cbn. auto. }
  unfold flagsFollowPhase in H.
  destruct (scanPhase (scan (run Worker (initScene t0) es))).
  - destruct H as [-> ->]. repeat split; congruence.
  - destruct H as (-> & -> & ->). repeat split; congruence.
Qed.

(** A run that completes the scan: the flags are set. *)
Lemma flags_follow_phase_witness :
  let s := run Worker (initScene 0)
             [Frame 16 16; MeshLoaded (-50) 50; Frame 3000 3000]%float in
  reachable Worker s /\ scanPhase (scan s) = complete /\
  pathwaysVisible s = true /\ autoRotate s = true /\ scanLineVisible s = false.
Proof.
  intros s.
  assert (H : reachable Worker s) by (exists 0%float; eexists; reflexivity).
  assert (Hc : scanPhase (scan s) = complete) by reflexivity.
  destruct (flags_follow_phase H) as (P & A & L).
  split; [exact H|]. split; [exact Hc|].
  split; [now apply P|]. split; [now apply A | now apply L].
Defined.

End ScanFacts.


(* ================================================================= *)
(** * More on the mesh parser *)

Module ObjParserMore.

Import Js ObjParser ObjText.
Local Open Scope string_scope.
Local Open Scope list_scope.
Local Open Scope nat_scope.

Section Worker.

Variable parseFloat : string -> float.
Variable fround : float -> float.




(** X7. Output is only ever appended: what a prefix of the lines has
    produced stays at the front of what all the lines produce. *)
Theorem output_append_only (lines more : list string) (st : state) :
  exists p n,
    outPositions (parseLines parseFloat (lines ++ more) st) = outPositions (parseLines parseFloat lines st) ++ p /\
    outNormals (parseLines parseFloat (lines ++ more) st) = outNormals (parseLines parseFloat lines st) ++ n /\
    List.length p = List.length n.
Proof.
  unfold parseLines. rewrite fold_left_app.
  generalize (fold_left (processLine parseFloat) lines st) as st1. clear st lines.
  induction more as [|line more IH]; intros st1.
  - exists [], []. cbn. now rewrite !app_nil_r.
  - cbn [fold_left]. destruct (IH (processLine parseFloat st1 line)) as (p & n & Hp & Hn & Hl).
    assert (Hline : exists p1 n1,
      outPositions (processLine parseFloat st1 line) = outPositions st1 ++ p1 /\
      outNormals (processLine parseFloat st1 line) = outNormals st1 ++ n1 /\
      List.length p1 = List.length n1).
    { unfold processLine. destruct (lineParts line) as [parts|];
        [|exists [], []; now rewrite !app_nil_r].
      cbv zeta.
      destruct ((nth 0 parts "" =? "v")%string && (4 <=? List.length parts));
        [exists [], []; cbn; now rewrite !app_nil_r|].
      destruct ((nth 0 parts "" =? "vn")%string && (4 <=? List.length parts));
        [exists [], []; cbn; now rewrite !app_nil_r|].
      destruct ((nth 0 parts "" =? "f")%string && (4 <=? List.length parts));
        [|exists [], []; now rewrite !app_nil_r].
      rewrite ObjParserFacts.pushFace_eq. cbn [outPositions outNormals].
      eexists _, _. split; [reflexivity|]. split; [reflexivity|].
      rewrite (ObjParserFacts.flat_map_length3 _ _ (ObjParserFacts.cornerPosition_length st1)).
      now rewrite (ObjParserFacts.flat_map_length3 _ _ (ObjParserFacts.cornerNormal_length st1)). }
    destruct Hline as (p1 & n1 & Hp1 & Hn1 & Hl1).
    exists (p1 ++ p), (n1 ++ n). rewrite Hp, Hn, Hp1, Hn1, <- !app_assoc, !length_app.
    repeat split; auto.
Qed.


End Worker.

Local Open Scope Z_scope.

Lemma count_whole (a : list float) (m : nat) :
  List.length a = (3 * m)%nat -> count a = Z.of_nat m.
Proof.
  intros H. unfold count. rewrite H.
  replace (Z.of_nat (3 * m)) with (Z.of_nat m * 3) by lia. apply Z.div_mul. lia.
Qed.

Lemma get_defined (a : list float) (m : nat) (i k : Z) :
  List.length a = (3 * m)%nat -> 0 <= i < Z.of_nat m -> 0 <= k < 3 ->
  exists x, nth_error a (3 * Z.to_nat i + Z.to_nat k) = Some x /\
            get a (slot (Some i) k) = Number x.
Proof.
  intros Hlen Hi Hk. unfold slot, option_map, get.
  replace (i * 3 + k <? 0) with false by (symmetry; apply Z.ltb_ge; lia).
  replace (Z.to_nat (i * 3 + k)) with (3 * Z.to_nat i + Z.to_nat k)%nat by lia.
  destruct (nth_error a (3 * Z.to_nat i + Z.to_nat k)) as [x|] eqn:E.
  - now exists x.
  - apply nth_error_None in E. lia.
Qed.

Lemma get_beyond (a : list float) (m : nat) (i k : Z) :
  List.length a = (3 * m)%nat -> Z.of_nat m <= i -> 0 <= k ->
  get a (slot (Some i) k) = Undefined.
Proof.
  intros Hlen Hi Hk. unfold slot, option_map, get.
  replace (i * 3 + k <? 0) with false by (symmetry; apply Z.ltb_ge; lia).
  destruct (nth_error a (Z.to_nat (i * 3 + k))) as [x|] eqn:E; [|reflexivity].
  assert (Hlt : (Z.to_nat (i * 3 + k) < List.length a)%nat)
    by (apply nth_error_Some; congruence).
  lia.
Qed.

Lemma get_before (a : list float) (i k : Z) :
  i < 0 -> k < 3 -> get a (slot (Some i) k) = Undefined.
Proof.
  intros Hi Hk. unfold slot, option_map, get.
  now replace (i * 3 + k <? 0) with true by (symmetry; apply Z.ltb_lt; lia).
Qed.

Lemma resolved_place (n : Z) (m : nat) :
  inRange n m ->
  0 <= (if n <? 0 then Z.of_nat m + n else n - 1) < Z.of_nat m /\
  Z.to_nat (if n <? 0 then Z.of_nat m + n else n - 1) = place n m.
Proof.
  intros Hr. unfold place. split; [|reflexivity].
  destruct Hr as [H|H]; destruct (Z.ltb_spec n 0); lia.
Qed.

(** X3. With [m] vertices read so far, a face-line part whose vertex
    reference is between 1 and [m], or between [-m] and -1, reads the three
    coordinates of the vertex it names; any other number (0, beyond [m],
    before [-m]) and any text that is not a number reads three
    [undefined], which the buffer stores as NaN: the parser reports no
    error for a dangling reference. *)
Theorem vertex_reference (st : state) (part : string) (m : nat) :
  List.length (v st) = (3 * m)%nat ->
  (forall n, parseInt (vertexRef part) = Some n -> inRange n m ->
     exists x y z,
       nth_error (v st) (3 * place n m) = Some x /\
       nth_error (v st) (3 * place n m + 1) = Some y /\
       nth_error (v st) (3 * place n m + 2) = Some z /\
       cornerPosition st (parseCorner st part) = [Number x; Number y; Number z]) /\
  (forall n, parseInt (vertexRef part) = Some n -> ~ inRange n m ->
     cornerPosition st (parseCorner st part) = [Undefined; Undefined; Undefined]) /\
  (parseInt (vertexRef part) = None ->
     cornerPosition st (parseCorner st part) = [Undefined; Undefined; Undefined]).
Proof.
  intros Hlen. unfold cornerPosition, parseCorner, parseVertexIndex, resolve. cbn [vi].
  fold (vertexRef part).
  rewrite (@count_whole _ m Hlen). split; [|split].
  - intros n Hn Hr. rewrite Hn.
    destruct (@resolved_place n m Hr) as [Hb Hp].
    destruct (@get_defined (v st) m _ 0 Hlen Hb) as (x & Ex & Gx); [lia|].
    destruct (@get_defined (v st) m _ 1 Hlen Hb) as (y & Ey & Gy); [lia|].
    destruct (@get_defined (v st) m _ 2 Hlen Hb) as (z & Ez & Gz); [lia|].
    rewrite Hp in Ex, Ey, Ez. cbn [Z.to_nat Pos.to_nat Pos.iter_op Nat.add] in Ex, Ey, Ez.
    rewrite Nat.add_0_r in Ex.
    exists x, y, z. rewrite Gx, Gy, Gz. auto.
  - intros n Hn Hr. rewrite Hn. unfold inRange in Hr.
    destruct (Z.ltb_spec n 0) as [Hneg|Hpos].
    + rewrite !get_before by lia. reflexivity.
    + destruct (Z.eq_dec n 0) as [->|Hnz].
      * rewrite !get_before by lia. reflexivity.
      * rewrite !(@get_beyond (v st) m _ _ Hlen) by lia. reflexivity.
  - intros Hn. rewrite Hn. reflexivity.
Qed.

(** X4. With [m] normals read so far, a face-line part with a normal
    reference in range reads the three components of the normal it names;
    a positive reference beyond [m] reads three [undefined] (NaN in the
    buffer); and 0, a negative reference before [-m], or text that is not a
    number gives the zero vector, as a part without a normal reference
    does. *)
Theorem normal_reference (st : state) (part nref : string) (m : nat) :
  List.length (vn st) = (3 * m)%nat ->
  normalRef part = Some nref ->
  (forall n, parseInt nref = Some n -> inRange n m ->
     exists x y z,
       nth_error (vn st) (3 * place n m) = Some x /\
       nth_error (vn st) (3 * place n m + 1) = Some y /\
       nth_error (vn st) (3 * place n m + 2) = Some z /\
       cornerNormal st (parseCorner st part) = [Number x; Number y; Number z]) /\
  (forall n, parseInt nref = Some n -> Z.of_nat m < n ->
     cornerNormal st (parseCorner st part) = [Undefined; Undefined; Undefined]) /\
  (forall n, parseInt nref = Some n -> n = 0 \/ n < - Z.of_nat m ->
     cornerNormal st (parseCorner st part)
     = [Number 0%float; Number 0%float; Number 0%float]) /\
  (parseInt nref = None ->
     cornerNormal st (parseCorner st part)
     = [Number 0%float; Number 0%float; Number 0%float]).
Proof.
  intros Hlen Href. unfold cornerNormal, hasNormal, parseCorner. rewrite Href.
  unfold parseNormalIndex, resolve. cbn [ni].
  rewrite (@count_whole _ m Hlen). split; [|split; [|split]].
  - intros n Hn Hr. rewrite Hn.
    destruct (@resolved_place n m Hr) as [Hb Hp].
    replace (0 <=? (if n <? 0 then Z.of_nat m + n else n - 1)) with true
      by (symmetry; apply Z.leb_le; lia).
    destruct (@get_defined (vn st) m _ 0 Hlen Hb) as (x & Ex & Gx); [lia|].
    destruct (@get_defined (vn st) m _ 1 Hlen Hb) as (y & Ey & Gy); [lia|].
    destruct (@get_defined (vn st) m _ 2 Hlen Hb) as (z & Ez & Gz); [lia|].
    rewrite Hp in Ex, Ey, Ez. cbn [Z.to_nat Pos.to_nat Pos.iter_op Nat.add] in Ex, Ey, Ez.
    rewrite Nat.add_0_r in Ex.
    exists x, y, z. rewrite Gx, Gy, Gz. auto.
  - intros n Hn Hr. rewrite Hn.
    replace (n <? 0) with false by (symmetry; apply Z.ltb_ge; lia).
    replace (0 <=? n - 1) with true by (symmetry; apply Z.leb_le; lia).
    rewrite !(@get_beyond (vn st) m _ _ Hlen) by lia. reflexivity.
  - intros n Hn Hr. rewrite Hn.
    replace (0 <=? (if n <? 0 then Z.of_nat m + n else n - 1)) with false; [reflexivity|].
    symmetry. apply Z.leb_gt. destruct (Z.ltb_spec n 0); lia.
  - intros Hn. rewrite Hn. reflexivity.
Qed.

Local Close Scope Z_scope.

(** The second of the four sample vertices, by either kind of reference;
    and a reference to a fifth vertex. *)
Lemma vertex_reference_witness :
  cornerPosition sampleState (parseCorner sampleState "2/7/1") = map Number [4; 5; 6]%float /\
  cornerPosition sampleState (parseCorner sampleState "-3") = map Number [4; 5; 6]%float /\
  cornerPosition sampleState (parseCorner sampleState "5") = [Undefined; Undefined; Undefined].
Proof.
  destruct (@vertex_reference sampleState "2/7/1" 4 eq_refl) as (H1 & _ & _).
  destruct (@vertex_reference sampleState "-3" 4 eq_refl) as (H2 & _ & _).
  destruct (@vertex_reference sampleState "5" 4 eq_refl) as (_ & H3 & _).
  split; [|split].
  - destruct (H1 2%Z eq_refl) as (x & y & z & Ex & Ey & Ez & E); [left; lia|].
    rewrite E. cbn in Ex, Ey, Ez. now inversion Ex; inversion Ey; inversion Ez.
  - destruct (H2 (-3)%Z eq_refl) as (x & y & z & Ex & Ey & Ez & E); [right; lia|].
    rewrite E. cbn in Ex, Ey, Ez. now inversion Ex; inversion Ey; inversion Ez.
  - apply (H3 5%Z eq_refl). intros [H|H]; lia.
Defined.

(** The one sample normal; a second one that does not exist; and
    reference 0. *)
Lemma normal_reference_witness :
  cornerNormal sampleState (parseCorner sampleState "1//1") = map Number [0; 0; 1]%float /\
  cornerNormal sampleState (parseCorner sampleState "1//2") = [Undefined; Undefined; Undefined] /\
  cornerNormal sampleState (parseCorner sampleState "1//0") = map Number [0; 0; 0]%float.
Proof.
  destruct (@normal_reference sampleState "1//1" "1" 1 eq_refl eq_refl) as (H1 & _ & _ & _).
  destruct (@normal_reference sampleState "1//2" "2" 1 eq_refl eq_refl) as (_ & H2 & _ & _).
  destruct (@normal_reference sampleState "1//0" "0" 1 eq_refl eq_refl) as (_ & _ & H3 & _).
  split; [|split].
  - destruct (H1 1%Z eq_refl) as (x & y & z & Ex & Ey & Ez & E); [left; lia|].
    rewrite E. cbn in Ex, Ey, Ez. now inversion Ex; inversion Ey; inversion Ez.
  - apply (H2 2%Z eq_refl). lia.
  - apply (H3 0%Z eq_refl). now left.
Defined.

Lemma splitLines_crlf (s cur : string) :
  hasCR s = false -> splitLinesFrom cur (crlf s) = splitLinesFrom cur s.
Proof.
  revert cur. induction s as [|c s IH]; intros cur H; [reflexivity|].
  cbn [hasCR] in H. apply orb_false_iff in H as [Hc Hs].
  cbn [crlf]. destruct (Ascii.eqb c LF) eqn:El.
  - cbn [splitLinesFrom]. rewrite El.
    change (Ascii.eqb CR LF) with false. change (Ascii.eqb CR CR) with true.
    change (Ascii.eqb LF LF) with true. cbn iota. now rewrite IH.
  - cbn [splitLinesFrom]. rewrite El, Hc. now rewrite IH.
Qed.

(** X5. A text without carriage returns and the same text with every line
    end written as carriage return, line feed give the same mesh. *)
Theorem crlf_same_mesh (parseFloat : string -> float) (fround : float -> float)
    (text : string) :
  hasCR text = false ->
  splitLines (crlf text) = splitLines text /\
  onmessage parseFloat fround (Str (crlf text)) = onmessage parseFloat fround (Str text).
Proof.
  intros H. assert (E : splitLines (crlf text) = splitLines text)
    by now apply splitLines_crlf.
  split; [exact E|]. unfold onmessage, parse. now rewrite E.
Qed.

Lemma crlf_same_mesh_witness :
  hasCR sampleTriangles = false /\
  onmessage wholeNumber (fun x => x) (Str (crlf sampleTriangles))
  = onmessage wholeNumber (fun x => x) (Str sampleTriangles).
Proof.
  split; [reflexivity|].
  apply (proj2 (crlf_same_mesh wholeNumber (fun x => x) sampleTriangles eq_refl)).
Defined.




End ObjParserMore.

(* ================================================================= *)
(** * More on the validator and the submit listener *)

Module WaitlistMore.

Import Js Waitlist Address.
Local Open Scope string_scope.
Local Open Scope list_scope.

Lemma star_class p s : matches (Star (Class p)) s -> allChars p s = true.
Proof.
  intros H. remember (Star (Class p)) as r eqn:Hr.
  induction H; try discriminate; [reflexivity|].
  injection Hr as ->. inversion H; subst. cbn.
  rewrite IHmatches2 by reflexivity.
  match goal with Hp : p _ = true |- _ => now rewrite Hp end.
Qed.

Lemma class_star p s : allChars p s = true -> matches (Star (Class p)) s.
Proof.
  induction s as [|c s IH]; cbn; intros H; [constructor|].
  apply andb_true_iff in H as [Hc Hs].
  change (String c s) with (String c "" ++ s)%string. constructor; [now constructor | auto].
Qed.

Lemma plus_class p s : matches (Plus (Class p)) s <-> s <> "" /\ allChars p s = true.
Proof.
  unfold Plus. split.
  - intros H. apply JsFacts.cat_inv in H as (s1 & s2 & -> & H1 & H2).
    inversion H1; subst. apply star_class in H2. cbn. rewrite H2.
    match goal with Hp : p _ = true |- _ => rewrite Hp end.
    split; [discriminate | reflexivity].
  - intros [Hne H]. destruct s as [|c s]; [contradiction|]. cbn in H.
    apply andb_true_iff in H as [Hc Hs].
    change (String c s) with (String c "" ++ s)%string. constructor; [now constructor | now apply class_star].
Qed.

Lemma class_char a s : matches (Class (isChar a)) s <-> s = String a "".
Proof.
  split.
  - intros H. inversion H as [|p0 c Hc| | | | |]; subst.
    unfold isChar in Hc. apply Ascii.eqb_eq in Hc. now subst.
  - intros ->. constructor. unfold isChar. apply Ascii.eqb_refl.
Qed.

Lemma emailPattern_shape s : matches emailPattern s <-> wellFormed s.
Proof.
  unfold emailPattern, wellFormed, word. split.
  - intros H.
    apply JsFacts.cat_inv in H as (a & r1 & -> & Ha & H).
    apply JsFacts.cat_inv in H as (at_ & r2 & -> & Hat & H).
    apply JsFacts.cat_inv in H as (b & r3 & -> & Hb & H).
    apply JsFacts.cat_inv in H as (dot & c & -> & Hdot & Hc).
    apply class_char in Hat, Hdot. subst.
    apply plus_class in Ha, Hb, Hc. exists a, b, c. auto.
  - intros (a & b & c & -> & Ha & Hb & Hc).
    constructor; [now apply plus_class|].
    constructor; [now apply class_char|].
    constructor; [now apply plus_class|].
    constructor; [now apply class_char | now apply plus_class].
Qed.

(** X8. The validator accepts exactly the values that, lower-cased and
    trimmed, read [local@domain.tld]: three non-empty runs of characters
    that are neither white space nor [@], joined by one [@] and one dot. *)
Theorem isValidEmail_shape (value : string) :
  isValidEmail value = true <-> wellFormed (trim (toLowerCase value)).
Proof.
  unfold isValidEmail. rewrite JsFacts.test_matches. apply emailPattern_shape.
Qed.

Lemma isValidEmail_shape_witness :
  isValidEmail " User@Example.COM " = true /\
  wellFormed (trim (toLowerCase " User@Example.COM ")).
Proof.
  split; [reflexivity|].
  apply (proj1 (isValidEmail_shape " User@Example.COM ")). reflexivity.
Defined.

(** ** White space and the two revisions of the validator *)

Lemma lowerChar_space c : isWhiteSpace (lowerChar c) = isWhiteSpace c.
Proof. destruct c as [[] [] [] [] [] [] [] []]; reflexivity. Qed.

Lemma toLowerCase_empty s : isEmpty (toLowerCase s) = isEmpty s.
Proof. now destruct s. Qed.

Lemma toLowerCase_trimStart s : toLowerCase (trimStart s) = trimStart (toLowerCase s).
Proof.
  induction s as [|c s IH]; [reflexivity|]. cbn [trimStart toLowerCase].
  rewrite lowerChar_space. now destruct (isWhiteSpace c).
Qed.

Lemma toLowerCase_trimEnd s : toLowerCase (trimEnd s) = trimEnd (toLowerCase s).
Proof.
  induction s as [|c s IH]; [reflexivity|]. cbn [trimEnd toLowerCase].
  rewrite <- IH, lowerChar_space, toLowerCase_empty.
  now destruct (isWhiteSpace c && isEmpty (trimEnd s)).
Qed.

Lemma toLowerCase_trim s : toLowerCase (trim s) = trim (toLowerCase s).
Proof. unfold trim. now rewrite toLowerCase_trimEnd, toLowerCase_trimStart. Qed.

Lemma trimEnd_idem s : trimEnd (trimEnd s) = trimEnd s.
Proof.
  induction s as [|c s IH]; [reflexivity|]. cbn [trimEnd].
  destruct (isWhiteSpace c && isEmpty (trimEnd s)) eqn:E; [reflexivity|].
  cbn [trimEnd]. now rewrite IH, E.
Qed.

Lemma trimStart_trimEnd s : trimStart (trimEnd (trimStart s)) = trimEnd (trimStart s).
Proof.
  induction s as [|c s IH]; [reflexivity|]. cbn [trimStart].
  destruct (isWhiteSpace c) eqn:E; [exact IH|].
  cbn [trimEnd]. rewrite E. cbn [andb trimStart]. now rewrite E.
Qed.

Lemma trim_idem s : trim (trim s) = trim s.
Proof. unfold trim. now rewrite trimStart_trimEnd, trimEnd_idem. Qed.

(** X9. White space around the value does not change the verdict, and on
    a trimmed value, which is what every listener passes, the validator of
    the client-only revision gives the verdict of the other one. *)
Theorem validators_agree (value : string) :
  isValidEmail (trim value) = isValidEmail value /\
  isValidEmail_local (trim value) = isValidEmail value.
Proof.
  unfold isValidEmail, isValidEmail_local.
  now rewrite !toLowerCase_trim, trim_idem.
Qed.

(** ** Class lists *)

Lemma contains_add_other c c' l : c <> c' -> contains c (add c' l) = contains c l.
Proof.
  intros Hne. unfold add. destruct (contains c' l); [reflexivity|].
  unfold contains. rewrite existsb_app. cbn.
  destruct (String.eqb_spec c c'); [contradiction|]. now rewrite !orb_false_r.
Qed.

Lemma contains_remove_other c c' l : c <> c' -> contains c (remove c' l) = contains c l.
Proof.
  intros Hne. unfold contains, remove. induction l as [|x l IH]; [reflexivity|].
  cbn. destruct (String.eqb_spec c' x) as [->|Hx]; cbn.
  - destruct (String.eqb_spec c x); [contradiction | exact IH].
  - now rewrite IH.
Qed.

Lemma remove_absent c l : contains c l = false -> remove c l = l.
Proof.
  unfold contains, remove. induction l as [|x l IH]; [reflexivity|].
  cbn. intros H. apply orb_false_iff in H as [Hx Hl]. rewrite Hx. cbn. now rewrite IH.
Qed.

Lemma remove_app c l1 l2 : remove c (l1 ++ l2) = remove c l1 ++ remove c l2.
Proof. apply filter_app. Qed.

Lemma add_absent c l : contains c l = false -> add c l = l ++ [c].
Proof. intros H. unfold add. now rewrite H. Qed.

(** Marking again what was just marked changes nothing. *)
Lemma mark_again c l : add c (remove c (add c (remove c l))) = add c (remove c l).
Proof.
  rewrite (add_absent c (remove c l)) by apply WaitlistFacts.contains_remove.
  rewrite remove_app, (remove_absent c (remove c l))
    by apply WaitlistFacts.contains_remove.
  unfold remove at 2. cbn [filter]. rewrite String.eqb_refl. cbn [negb].
  rewrite app_nil_r. apply add_absent, WaitlistFacts.contains_remove.
Qed.

Lemma remove_remove c l : remove c (remove c l) = remove c l.
Proof. apply remove_absent, WaitlistFacts.contains_remove. Qed.

Lemma remove_comm c c' l : remove c (remove c' l) = remove c' (remove c l).
Proof.
  unfold remove. induction l as [|x l IH]; [reflexivity|]. cbn [filter].
  destruct (String.eqb c' x) eqn:E1, (String.eqb c x) eqn:E2; cbn [negb filter];
    rewrite ?E1, ?E2; cbn [negb]; rewrite IH; reflexivity.
Qed.

Lemma classes_distinct : errorClass <> successClass.
Proof. discriminate. Qed.

Lemma classes_distinct' : successClass <> errorClass.
Proof. discriminate. Qed.

(** The classes of the message after the clearing and one [add]. *)
Lemma flagged c c' l :
  c <> c' ->
  contains c (add c (remove c' (remove c l))) = true /\
  contains c' (add c (remove c' (remove c l))) = false.
Proof.
  intros Hne. split; [apply WaitlistFacts.contains_add|].
  rewrite contains_add_other by auto. apply WaitlistFacts.contains_remove.
Qed.

(** X10. After a submit the message carries the error class exactly when
    the email was invalid and the success class exactly when it was valid,
    never both, whatever classes it carried before; this holds for the
    three revisions of the listener, and still after the confirmation
    timer has fired. *)
Theorem message_classes_exclusive (d : dom) :
  let valid := isValidEmail (trim (value (emailInput d))) in
  verdictClasses valid (page (onSubmit d)) /\
  verdictClasses valid (page (onSubmit_deferred d)) /\
  verdictClasses valid (page (onSubmit_local d)) /\
  (forall t, In t (timers (onSubmit d)) -> verdictClasses true (fire (onSubmit d) t)).
Proof.
  cbv zeta. unfold verdictClasses, messageClasses.
  assert (Hl : isValidEmail_local (trim (value (emailInput d)))
               = isValidEmail (trim (value (emailInput d))))
    by (destruct (validators_agree (value (emailInput d))) as [H1 H2]; now rewrite H1, H2).
  unfold onSubmit, onSubmit_deferred, onSubmit_local. rewrite Hl.
  set (l := classList (messageElement d)).
  destruct (flagged (classList (messageElement d)) classes_distinct) as [E1 E2].
  pose proof (remove_comm successClass errorClass l) as Hcomm.
  destruct (flagged (classList (messageElement d)) classes_distinct') as [S1 S2].
  fold l in E1, E2, S1, S2. rewrite <- Hcomm in S1, S2.
  destruct (isValidEmail (trim (value (emailInput d)))); cbn [negb page timers].
  - split; [split; [exact S2 | exact S1]|].
    split; [split; [exact S2 | exact S1]|].
    split; [split; [exact S2 | exact S1]|].
    intros t [<-|[]]. cbn [fire snd page].
    change (classList (messageElement (showConfirmation (showSigningUp (clearFeedback d)))))
      with (add successClass
              (remove errorClass
                 (add successClass (remove successClass (remove errorClass l))))).
    set (m := add successClass (remove successClass (remove errorClass l))) in *.
    rewrite (remove_absent errorClass m) by exact S2.
    unfold add. rewrite S1. split; [exact S2 | exact S1].
  - split; [split; [exact E1 | exact E2]|].
    split; [split; [exact E1 | exact E2]|].
    split; [split; [exact E1 | exact E2]|].
    intros t [].
Qed.

Lemma message_classes_exclusive_witness :
  verdictClasses true
    (fire (onSubmit (samplePage "user@example.com")) (confirmDelay, showConfirmation)).
Proof.
  apply (proj2 (proj2 (proj2 (message_classes_exclusive (samplePage "user@example.com"))))).
  vm_compute. left. reflexivity.
Defined.

Lemma reflag c c' l :
  c <> c' ->
  add c (remove c' (remove c (add c (remove c' (remove c l)))))
  = add c (remove c' (remove c l)).
Proof.
  intros Hne. set (m := remove c' (remove c l)).
  assert (Hc : contains c m = false).
  { unfold m. rewrite contains_remove_other by auto. apply WaitlistFacts.contains_remove. }
  assert (Hc' : contains c' m = false) by apply WaitlistFacts.contains_remove.
  rewrite (add_absent c m Hc), remove_app, (remove_absent c m Hc).
  unfold remove at 2. cbn [filter]. rewrite String.eqb_refl. cbn [negb].
  rewrite app_nil_r, (remove_absent c' m Hc'), ?(add_absent c m Hc). reflexivity.
Qed.

Lemma reflag' c c' l :
  c <> c' ->
  add c (remove c (remove c' (add c (remove c (remove c' l)))))
  = add c (remove c (remove c' l)).
Proof.
  intros Hne. set (m := remove c (remove c' l)).
  assert (Hc : contains c m = false) by apply WaitlistFacts.contains_remove.
  assert (Hc' : contains c' m = false).
  { unfold m. rewrite contains_remove_other by auto. apply WaitlistFacts.contains_remove. }
  rewrite (add_absent c m Hc), remove_app, (remove_absent c' m Hc').
  unfold remove at 2. cbn [filter].
  destruct (String.eqb_spec c' c) as [E|_]; [symmetry in E; contradiction|]. cbn [negb].
  rewrite remove_app, (remove_absent c m Hc).
  unfold remove at 1. cbn [filter]. rewrite String.eqb_refl. cbn [negb].
  rewrite app_nil_r, ?(add_absent c m Hc). reflexivity.
Qed.

Lemma option_map_again (A : Type) (f : A -> A) (o : option A) :
  (forall a, f (f a) = f a) -> option_map f (option_map f o) = option_map f o.
Proof. intros H. destruct o; cbn; [now rewrite H | reflexivity]. Qed.

(** X11. Submitting again without touching the input leaves the page as
    the first submit left it: the listener of waitlistForm.js, in both of
    its revisions, does not pile up classes or messages. *)
Theorem submit_again (d : dom) :
  page (onSubmit (page (onSubmit d))) = page (onSubmit d) /\
  page (onSubmit_deferred (page (onSubmit_deferred d))) = page (onSubmit_deferred d).
Proof.
  destruct d as [[t cl disp] [val dv ic] fr ne].
  assert (Hs : remove successClass (remove errorClass cl)
               = remove errorClass (remove successClass cl)) by apply remove_comm.
  pose proof (reflag cl classes_distinct) as R1.
  pose proof (reflag' cl classes_distinct') as R2.
  pose proof (mark_again inputErrorClass ic) as R3.
  pose proof (remove_remove inputErrorClass ic) as R4.
  unfold onSubmit, onSubmit_deferred.
  cbn [clearFeedback onInputClasses onMessage emailInput value messageElement].
  destruct (isValidEmail (trim val)) eqn:E; cbn [negb page].
  - cbn [showSigningUp setRows onMessage emailInput value clearFeedback onInputClasses].
    rewrite E. cbn [negb page].
    cbv beta iota zeta delta
      [showSigningUp clearFeedback setRows onMessage onInputClasses setClasses setText
       setDisplay messageElement emailInput formRow noteElement value defaultValue
       inputClasses textContent classList display].
    rewrite R2, R4, !option_map_again by reflexivity. split; reflexivity.
  - cbn [showError setRows onMessage emailInput value clearFeedback onInputClasses].
    rewrite E. cbn [negb page].
    cbv beta iota zeta delta
      [showError clearFeedback setRows onMessage onInputClasses setClasses setText
       setDisplay messageElement emailInput formRow noteElement value defaultValue
       inputClasses textContent classList display].
    rewrite R1, R3, !option_map_again by reflexivity. split; reflexivity.
Qed.

(** X12. The confirmation timer is never cancelled: when a valid submit is
    followed, before the delay is over, by an invalid one, the timer still
    fires and replaces the error text by the confirmation, with the
    success class on the message, while the input keeps its error-state
    class. *)
Theorem stale_confirmation (d : dom) (bad : string) :
  isValidEmail (trim (value (emailInput d))) = true ->
  isValidEmail (trim bad) = false ->
  let first := onSubmit d in
  let second := onSubmit (typeEmail bad (page first)) in
  timers first = [(confirmDelay, showConfirmation)] /\
  timers second = [] /\
  messageText (page second) = errorText /\
  messageText (showConfirmation (page second)) = confirmText /\
  hasInputError (showConfirmation (page second)) = true /\
  verdictClasses true (showConfirmation (page second)).
Proof.
  intros Hgood Hbad first second.
  assert (E1 : first = {| page := showSigningUp (clearFeedback d);
                          defaultPrevented := false; propagationStopped := false;
                          timers := [(confirmDelay, showConfirmation)] |}).
  { unfold first, onSubmit. now rewrite Hgood. }
  assert (E2 : second
               = {| page := setRows "" (onMessage (setDisplay "block")
                              (showError errorText
                                 (clearFeedback (typeEmail bad (page first)))));
                    defaultPrevented := true; propagationStopped := true; timers := [] |}).
  { unfold second, onSubmit. cbn [typeEmail emailInput value]. now rewrite Hbad. }
  rewrite E2. cbn [page timers]. rewrite E1. cbn [page timers].
  split; [reflexivity|]. split; [reflexivity|]. split; [reflexivity|].
  split; [reflexivity|]. split.
  - unfold hasInputError.
    cbn [showConfirmation setRows onMessage emailInput inputClasses showError onInputClasses].
    apply WaitlistFacts.contains_add.
  - unfold verdictClasses, messageClasses.
    cbn [showConfirmation setRows onMessage messageElement setDisplay setClasses classList
         setText].
    split.
    + rewrite contains_add_other by exact classes_distinct.
      apply WaitlistFacts.contains_remove.
    + apply WaitlistFacts.contains_add.
Qed.

Lemma stale_confirmation_witness :
  messageText
    (showConfirmation
       (page (onSubmit (typeEmail "user@"
                          (page (onSubmit (samplePage "user@example.com")))))))
  = confirmText /\
  hasInputError
    (showConfirmation
       (page (onSubmit (typeEmail "user@"
                          (page (onSubmit (samplePage "user@example.com")))))))
  = true.
Proof.
  destruct (@stale_confirmation (samplePage "user@example.com") "user@" eq_refl eq_refl)
    as (_ & _ & _ & H4 & H5 & _).
  split; [exact H4 | exact H5].
Defined.

End WaitlistMore.

(* ================================================================= *)
(** * More on the scroll effects *)

Module ScrollMore.

Import Scroll.
Local Open Scope Q_scope.

Lemma intensity_bounds rect innerHeight : 0 <= intensity rect innerHeight <= 1.
Proof.
  unfold intensity, normalized.
  pose proof (ScrollFacts.min_ratio_bounds (ScrollFacts.half_vh_pos innerHeight)
                (ScrollFacts.distance_nonneg rect innerHeight)).
  lra.
Qed.

(** X13. Whatever the scroll position, the visual is scaled by a factor
    between 1 and 1.03 and its opacity is between 0.8 and 1. *)
Theorem style_bounds (rect : DOMRect) (innerHeight : N) :
  1 <= scale (update rect innerHeight) <= 1 + 0.03 /\
  0.8 <= opacity (update rect innerHeight) <= 1.
Proof.
  pose proof (intensity_bounds rect innerHeight) as H.
  unfold update. cbn [scale opacity]. split; split; lra.
Qed.

End ScrollMore.

(* ================================================================= *)
(** * The scroll throttle *)

Module ThrottleFacts.

Import Throttle.
Local Open Scope list_scope.
Local Open Scope nat_scope.

Lemma runUpdates (hs : list nat) (s : state) :
  rafId (fold_left runUpdate hs s) = (match hs with [] => rafId s | _ => None end) /\
  updates (fold_left runUpdate hs s) = updates s + List.length hs /\
  nextHandle (fold_left runUpdate hs s) = nextHandle s.
Proof.
  revert s. induction hs as [|h hs IH]; intros s; cbn [fold_left].
  - cbn. repeat split; lia.
  - destruct (IH (runUpdate s h)) as (H1 & H2 & H3). rewrite H1, H2, H3.
    cbn [runUpdate rafId updates nextHandle List.length]. repeat split; try lia.
    now destruct hs.
Qed.

Lemma step_coherent (s : state) (e : event) :
  coherent s ->
  coherent (step s e) /\
  updates (step s e) <= updates s + (if isFrame e then 1 else 0) /\
  updates s <= updates (step s e).
Proof.
  intros Hc. destruct e; cbn [step isFrame].
  - unfold onScroll. destruct Hc as [[Hr Hs] | (h & Hr & Hs)]; rewrite Hr.
    + split; [|cbn [updates]; lia]. right. exists (nextHandle s).
      cbn [rafId scheduled]. now rewrite Hs.
    + split; [|lia]. right. now exists h.
  - unfold onFrame. destruct (runUpdates (scheduled s) s) as (H1 & H2 & H3).
    cbn [rafId scheduled updates]. rewrite H2.
    destruct Hc as [[Hr Hs] | (h & Hr & Hs)]; rewrite Hs in *; cbn [List.length].
    + split; [|lia]. left. rewrite H1. auto.
    + split; [|lia]. left. rewrite H1. auto.
Qed.

Lemma steps_coherent (es : list event) (s : state) :
  coherent s ->
  coherent (fold_left step es s) /\
  updates (fold_left step es s) <= updates s + frames es.
Proof.
  revert s. induction es as [|e es IH]; intros s Hc; cbn [fold_left].
  - split; [exact Hc | unfold frames; cbn; lia].
  - destruct (step_coherent e Hc) as (Hc' & Hu & _).
    destruct (IH (step s e) Hc') as [H1 H2]. split; [exact H1|].
    unfold frames in *. cbn [filter]. destruct (isFrame e); cbn [List.length] in *; lia.
Qed.

Lemma onScroll_again (s : state) : onScroll (onScroll s) = onScroll s.
Proof.
  destruct (rafId s) eqn:Hr.
  - assert (E : onScroll s = s) by (unfold onScroll; now rewrite Hr).
    now rewrite !E.
  - assert (E : onScroll s
                = {| rafId := Some (nextHandle s);
                     scheduled := scheduled s ++ [nextHandle s];
                     nextHandle := S (nextHandle s); updates := updates s |})
      by (unfold onScroll; now rewrite Hr).
    rewrite E. reflexivity.
Qed.

(** X15. However the scroll events and the animation frames interleave,
    the browser holds at most one callback of this module, the one
    [rafId] names; so [update] runs at most once per frame (and once at
    the start), and a scroll event with nothing pending is answered by
    exactly one update at the next frame. *)
Theorem throttle_coalesces (es : list event) :
  let s := run es in
  coherent s /\
  List.length (scheduled s) <= 1 /\
  updates s <= 1 + frames es /\
  (rafId s = None -> updates (onFrame (onScroll s)) = S (updates s)) /\
  updates (onFrame (onScroll (onScroll s))) = updates (onFrame (onScroll s)).
Proof.
  cbv zeta. unfold run.
  assert (Hi : coherent init) by (left; auto).
  destruct (steps_coherent es Hi) as [Hc Hu].
  set (s := fold_left step es init) in *.
  split; [exact Hc|]. split; [|split; [exact Hu|]].
  - destruct Hc as [[_ ->] | (h & _ & ->)]; cbn; lia.
  - split.
    + intros Hr. destruct Hc as [[_ Hs] | (h & Hr' & _)]; [|congruence].
      unfold onScroll. rewrite Hr. unfold onFrame. cbn [scheduled]. rewrite Hs.
      reflexivity.
    + now rewrite onScroll_again.
Qed.

Lemma throttle_coalesces_witness :
  rafId (run [Scroll; Scroll; AnimationFrame]) = None /\
  updates (onFrame (onScroll (run [Scroll; Scroll; AnimationFrame]))) = 3.
Proof.
  split; [reflexivity|].
  apply (proj1 (proj2 (proj2 (proj2 (throttle_coalesces [Scroll; Scroll; AnimationFrame]))))).
  reflexivity.
Defined.

End ThrottleFacts.

(* ================================================================= *)
(** * More on the scene *)

Module SceneMore.

Import Scene SceneRuns.
Local Open Scope list_scope.
Local Open Scope R_scope.


(** ** The flags and the node markers *)







Lemma step_nodes rev s e : nodesInRange s -> nodesInRange (step rev s e).
Proof.
  unfold nodesInRange. intros H. destruct e as [now clock|lo hi|]; cbn [step].
  - unfold render. set (dt := (_ - _) / 1000). set (t := _ / 1000).
    set (s1 := advanceScan _ dt).
    assert (E : nodeOpacity s1 = nodeOpacity s /\ nodeSize s1 = nodeSize s).
    { unfold s1, advanceScan. cbn [setLastTime scan nodeOpacity nodeSize].
      destruct (scanPhase (scan s)); [|auto]. now destruct (Rgt_dec _ _). }
    destruct E as [E1 E2]. unfold animate.
    destruct (scanPhase (scan s1)); [now rewrite E1, E2|].
    cbn [nodeOpacity nodeSize].
    pose proof (SIN_bound (t * 2)). pose proof (SIN_bound (t * 1.5)). lra.
  - exact H.
  - now destruct rev.
Qed.

(** X19. Whatever the events and their time stamps, the opacity of the
    node markers stays in [0, 0.7] and their size in [2, 10]. *)
Theorem nodes_in_range (rev : revision) (s : scene) :
  reachable rev s -> nodesInRange s.
Proof.
  intros (t0 & es & ->). unfold run.
  assert (H0 : nodesInRange (initScene t0))
    by (unfold nodesInRange; cbn [initScene nodeOpacity nodeSize]; lra).
  revert H0. generalize (initScene t0).
  induction es as [|e es IH]; intros s0 H0; [exact H0|].
  cbn [fold_left]. apply IH. now apply step_nodes.
Qed.

Lemma nodes_in_range_witness :
  reachable Loader (run Loader (initScene 0) [MeshFailed; Frame 16 16]) /\
  nodesInRange (run Loader (initScene 0) [MeshFailed; Frame 16 16]).
Proof.
  assert (H : reachable Loader (run Loader (initScene 0) [MeshFailed; Frame 16 16]))
    by (exists 0, [MeshFailed; Frame 16 16]; reflexivity).
  split; [exact H | exact (nodes_in_range H)].
Defined.



Lemma step_cycle rev s e :
  (match e with Frame now clock => lastTime s <= effectiveNow now clock | _ => True end) ->
  cycleInRange s -> cycleInRange (step rev s e).
Proof.
  unfold cycleInRange. intros Ht [Hr Hz]. destruct e as [now clock|lo hi|]; cbn [step].
  - unfold render. set (now' := effectiveNow now clock) in *.
    set (dt := (now' - lastTime s) / 1000).
    assert (Hdt : 0 <= dt) by (unfold dt; lra).
    destruct (SceneFacts.advanceScan_rest (setLastTime now' s) dt) as [E1 _].
    cbn [setLastTime cycleTime] in E1.
    set (s1 := advanceScan (setLastTime now' s) dt) in *.
    unfold animate. destruct (scanPhase (scan s1)) eqn:Hs1.
    + rewrite E1. split; [exact Hr|]. intros _. apply Hz.
      destruct (scanPhase (scan s)) eqn:Hs; [reflexivity|].
      unfold s1 in Hs1. rewrite SceneFacts.advanceScan_complete in Hs1 by exact Hs.
      cbn [setLastTime scan] in Hs1. congruence.
    + cbn [cycleTime scan]. rewrite E1, Hs1. split; [|discriminate].
      apply SceneFacts.rem_bounds; unfold cycleDuration in *; lra.
  - split; [exact Hr | exact Hz].
  - destruct rev; [split; [exact Hr | exact Hz]|].
    cbn [loadError cycleTime scan scanPhase]. split; [exact Hr | discriminate].
Qed.

(** X21. As long as the time stamps of the frames do not go back, the
    cycle clock stays in [0, 8), and it stays at 0 until the scan is
    complete. *)
Theorem cycle_in_range (rev : revision) (t0 : R) (es : list event) :
  monotone t0 es -> cycleInRange (run rev (initScene t0) es).
Proof.
  assert (H0 : cycleInRange (initScene t0)).
  { unfold cycleInRange, cycleDuration. cbn [initScene cycleTime]. split; [lra | reflexivity]. }
  change t0 with (lastTime (initScene t0)) at 1.
  revert H0. generalize (initScene t0).
  induction es as [|e es IH]; intros s H0 Hm; [exact H0|].
  rewrite SceneFacts.run_cons. destruct e as [now clock|lo hi|]; cbn [monotone] in Hm.
  - destruct Hm as [Hle Hm]. apply IH.
    + now apply step_cycle.
    + cbn [step]. now rewrite SceneFacts.render_lastTime.
  - apply IH; [now apply step_cycle | exact Hm].
  - apply IH; [now apply step_cycle|]. now destruct rev.
Qed.

Lemma cycle_in_range_witness :
  monotone 0 [Frame 4000 4000; Frame 14000 14000] /\
  cycleInRange (run Worker (initScene 0) [Frame 4000 4000; Frame 14000 14000]).
Proof.
  assert (Hm : monotone 0 [Frame 4000 4000; Frame 14000 14000]).
  { cbn [monotone]. rewrite !SceneFacts.effectiveNow_nonzero by lra. repeat split; lra. }
  split; [exact Hm | exact (cycle_in_range Worker _ _ Hm)].
Defined.

End SceneMore.

(* ================================================================= *)
(** * The pathway curves *)

Module CurveFacts.

Import Curve.
Local Open Scope list_scope.
Local Open Scope Q_scope.

Lemma nth_map_seq (A : Type) (f : nat -> A) (n i : nat) (d : A) :
  (i < n)%nat -> nth i (map f (seq 0 n)) d = f i.
Proof.
  intros H. rewrite (nth_indep _ d (f 0%nat)) by (now rewrite length_map, length_seq).
  rewrite (map_nth f (seq 0 n) 0%nat i), seq_nth by assumption. reflexivity.
Qed.

Lemma param_zero n : param 0 n == 0.
Proof. unfold param. cbn. unfold Qdiv. ring. Qed.

Lemma inject_pos n : (1 <= n)%nat -> ~ inject_Z (Z.of_nat n) == 0.
Proof. intros H E. unfold Qeq in E. cbn in E. lia. Qed.

Lemma param_one n : (1 <= n)%nat -> param n n == 1.
Proof. intros H. unfold param. field. now apply inject_pos. Qed.

Lemma param_half k : (1 <= k)%nat -> param k (2 * k) == 1 / 2.
Proof.
  intros H. unfold param.
  assert (E : inject_Z (Z.of_nat (2 * k)) == 2 * inject_Z (Z.of_nat k)).
  { rewrite Nat2Z.inj_mul. unfold Qeq. cbn. lia. }
  rewrite E. field. now apply inject_pos.
Qed.

(** X22. A pathway curve has one point more than it has segments; it
    starts at its first anchor and ends at its second; and when the number
    of segments is even its middle point lies 15 above the middle of the
    two anchors. *)
Theorem curve_endpoints (start end_ : Vector3) (segments k : nat) :
  (1 <= segments)%nat ->
  let path := createCurvedPath start end_ segments in
  List.length path = S segments /\
  same (nth 0 path origin) start /\
  same (nth segments path origin) end_ /\
  (segments = (2 * k)%nat ->
   same (nth k path origin)
        {| x := (x start + x end_) / 2;
           y := (y start + y end_) / 2 + 15;
           z := (z start + z end_) / 2 |}).
Proof.
  intros Hn path. unfold path, createCurvedPath.
  split; [now rewrite length_map, length_seq|].
  split; [|split].
  - rewrite nth_map_seq by lia. unfold same. cbn [x y z].
    pose proof (param_zero segments) as E. rewrite !E. repeat split; ring.
  - rewrite nth_map_seq by lia. unfold same. cbn [x y z].
    pose proof (param_one Hn) as E. rewrite !E. repeat split; ring.
  - intros ->. rewrite nth_map_seq by lia. unfold same. cbn [x y z].
    assert (Hk : (1 <= k)%nat) by lia.
    pose proof (param_half Hk) as E. rewrite !E. repeat split; field.
Qed.

(** The curve of thirty segments between two anchors of the scene. *)
Lemma curve_endpoints_witness :
  same (nth 30 (createCurvedPath episodic semantic_r 30) origin) semantic_r /\
  same (nth 15 (createCurvedPath episodic semantic_r 30) origin)
       {| x := 56; y := 45 # 2; z := 65 # 2 |}.
Proof.
  destruct (@curve_endpoints episodic semantic_r 30 15) as (_ & _ & H3 & H4); [lia|].
  split; [exact H3|].
  destruct (H4 eq_refl) as (Hx & Hy & Hz).
  split; [|split]; cbn [x y z]; [rewrite Hx | rewrite Hy | rewrite Hz]; reflexivity.
Defined.

End CurveFacts.

(* ================================================================= *)
(** * Merging and decimating *)

Module MergeFacts.

Import Geometry Merge.
Local Open Scope list_scope.
Local Open Scope nat_scope.

Lemma pushItems_lengths g pos (l : list nat) acc :
  List.length (positions (fold_left (pushItem g pos) l acc))
  = List.length (positions acc) + 3 * List.length l /\
  List.length (normals (fold_left (pushItem g pos) l acc))
  = List.length (normals acc)
    + (match m_normal g with Some _ => 3 * List.length l | None => 0 end).
Proof.
  revert acc. induction l as [|i l IH]; intros acc; cbn [fold_left List.length].
  - destruct (m_normal g); lia.
  - destruct (IH (pushItem g pos acc i)) as [H1 H2]. rewrite H1, H2.
    unfold pushItem. cbn [positions normals]. rewrite length_app.
    destruct (m_normal g); rewrite ?length_app; cbn [List.length]; lia.
Qed.

Lemma pushItems_no_normals g pos (l : list nat) acc :
  m_normal g = None -> normals (fold_left (pushItem g pos) l acc) = normals acc.
Proof.
  intros Hg. revert acc. induction l as [|i l IH]; intros acc; [reflexivity|].
  cbn [fold_left]. rewrite IH. unfold pushItem. cbn [normals]. now rewrite Hg.
Qed.

Lemma mergeOne_lengths acc g :
  List.length (positions (mergeOne acc g))
  = List.length (positions acc) + 3 * vertexCount g /\
  List.length (normals (mergeOne acc g))
  = List.length (normals acc)
    + (match m_position g, m_normal g with
       | Some _, Some _ => 3 * vertexCount g
       | _, _ => 0
       end).
Proof.
  unfold mergeOne, vertexCount. destruct (m_position g) as [pos|]; [|split; lia].
  destruct (pushItems_lengths g pos (seq 0 (count pos)) acc) as [H1 H2].
  rewrite H1, H2, length_seq. now destruct (m_normal g).
Qed.

Lemma totalCount_cons g gs : totalCount (g :: gs) = vertexCount g + totalCount gs.
Proof. reflexivity. Qed.

Lemma merge_lengths gs acc :
  List.length (positions (fold_left mergeOne gs acc))
  = List.length (positions acc) + 3 * totalCount gs /\
  (allWithNormals gs ->
   List.length (normals (fold_left mergeOne gs acc))
   = List.length (normals acc) + 3 * totalCount gs) /\
  (Forall (fun g => m_normal g = None) gs ->
   normals (fold_left mergeOne gs acc) = normals acc).
Proof.
  revert acc. induction gs as [|g gs IH]; intros acc; cbn [fold_left].
  - unfold totalCount. cbn. repeat split; auto; lia.
  - destruct (IH (mergeOne acc g)) as (H1 & H2 & H3).
    destruct (mergeOne_lengths acc g) as [E1 E2].
    rewrite totalCount_cons. split; [|split].
    + rewrite H1, E1. lia.
    + intros Hall. inversion Hall as [|? ? Hg Hgs]; subst.
      rewrite (H2 Hgs), E2. unfold vertexCount in *.
      destruct (m_position g) as [pos|]; [|lia].
      destruct (m_normal g); [lia|]. exfalso. now apply Hg.
    + intros Hnone. inversion Hnone as [|? ? Hg Hgs]; subst.
      rewrite (H3 Hgs). unfold mergeOne. destruct (m_position g) as [pos|]; [|reflexivity].
      now apply pushItems_no_normals.
Qed.

Lemma count_of_triples (a : list float) (n : nat) :
  List.length a = 3 * n -> count (Float32BufferAttribute a 3) = n.
Proof.
  intros H. unfold count. cbn [array itemSize Float32BufferAttribute].
  rewrite H, Nat.mul_comm. now apply Nat.div_mul.
Qed.

Lemma whole_length (g : MeshGeometry) :
  (forall pos, m_position g = Some pos -> wholeTriples pos) ->
  positionLength g = 3 * vertexCount g.
Proof.
  unfold positionLength, vertexCount, count. intros H.
  destruct (m_position g) as [pos|]; [|reflexivity].
  destruct (H pos eq_refl) as (Hi & M & HM). rewrite Hi, HM.
  rewrite (Nat.mul_comm 3 M), Nat.div_mul by discriminate. lia.
Qed.

Lemma total_length (geometries : list MeshGeometry) :
  allWhole geometries -> totalLength geometries = 3 * totalCount geometries.
Proof.
  unfold allWhole. intros H. induction H as [|g gs Hg Hgs IH]; [reflexivity|].
  change (totalLength (g :: gs)) with (positionLength g + totalLength gs).
  rewrite totalCount_cons, IH, (whole_length g Hg). lia.
Qed.

(** The position attribute of the merge. *)
Lemma merged_position (geometries : list MeshGeometry) :
  exists pos,
    m_position (mergeBufferGeometries geometries) = Some pos /\
    itemSize pos = 3 /\
    List.length (array pos) = 3 * totalCount geometries.
Proof.
  unfold mergeBufferGeometries. cbv zeta. cbn [m_position].
  destruct (merge_lengths geometries noBuffers) as (H1 & _).
  cbn [noBuffers positions List.length Nat.add] in H1.
  eexists. split; [reflexivity|]. split; [reflexivity|].
  cbn [array Float32BufferAttribute]. exact H1.
Qed.

(** X23. For geometries whose position attributes hold whole triples, the
    merged geometry has a position attribute with as many points, and as
    many numbers, as the geometries that have positions hold together;
    geometries without positions are skipped.  When each of those geometries
    has normals and there is at least one point, it has as many normals as
    points; when none has normals, it has no normal attribute. *)
Theorem merge_counts (geometries : list MeshGeometry) :
  allWhole geometries ->
  exists pos,
    m_position (mergeBufferGeometries geometries) = Some pos /\
    itemSize pos = 3 /\
    count pos = totalCount geometries /\
    List.length (array pos) = totalLength geometries /\
    (allWithNormals geometries -> 0 < totalCount geometries ->
     exists norm, m_normal (mergeBufferGeometries geometries) = Some norm /\
                  itemSize norm = 3 /\ count norm = totalCount geometries) /\
    (Forall (fun g => m_normal g = None) geometries ->
     m_normal (mergeBufferGeometries geometries) = None).
Proof.
  intros Hw. unfold mergeBufferGeometries. cbv zeta. cbn [m_position m_normal].
  destruct (merge_lengths geometries noBuffers) as (H1 & H2 & H3).
  cbn [noBuffers positions normals List.length Nat.add] in H1, H2, H3.
  eexists. split; [reflexivity|]. split; [reflexivity|].
  split; [now apply count_of_triples|].
  split; [cbn [array Float32BufferAttribute]; now rewrite H1, total_length|]. split.
  - intros Hall Hpos. specialize (H2 Hall).
    destruct (normals (fold_left mergeOne geometries noBuffers)) as [|x l] eqn:E.
    + cbn in H2. lia.
    + cbn [isNil]. eexists. split; [reflexivity|]. split; [reflexivity|].
      now apply count_of_triples.
  - intros Hnone. now rewrite (H3 Hnone).
Qed.

Lemma sampleMesh_whole (a : list float) (b : bool) (M : nat) :
  List.length a = 3 * M ->
  forall pos, m_position (sampleMesh a b) = Some pos -> wholeTriples pos.
Proof.
  intros H pos E. cbn in E. injection E as <-. split; [reflexivity|].
  exists M. exact H.
Qed.

Lemma merge_counts_witness :
  let gs := [sampleMesh [1; 2; 3; 4; 5; 6]%float true;
             {| m_position := None; m_normal := None; m_uv := None |};
             sampleMesh [7; 8; 9]%float true] in
  allWhole gs /\ allWithNormals gs /\ 0 < totalCount gs /\
  exists norm, m_normal (mergeBufferGeometries gs) = Some norm /\ count norm = 3.
Proof.
  intros gs.
  assert (Hw : allWhole gs).
  { unfold gs, allWhole.
    apply Forall_cons;
      [apply (@sampleMesh_whole [1; 2; 3; 4; 5; 6]%float true 2); reflexivity|].
    apply Forall_cons; [intros pos E; discriminate|].
    apply Forall_cons; [apply (@sampleMesh_whole [7; 8; 9]%float true 1); reflexivity|].
    apply Forall_nil. }
  assert (Hall : allWithNormals gs).
  { unfold gs. repeat constructor; cbn; intros H; try discriminate; now apply H. }
  assert (Hpos : 0 < totalCount gs) by (vm_compute; lia).
  split; [exact Hw|]. split; [exact Hall|]. split; [exact Hpos|].
  destruct (merge_counts Hw) as (pos & _ & _ & _ & _ & H & _).
  destruct (H Hall Hpos) as (norm & E1 & _ & E2).
  exists norm. split; [exact E1 | exact E2].
Defined.

(** X24. Decimating the merge of geometries whose position attributes
    hold whole triples, with a step [N >= 1], ends and keeps
    [ceil(total / N)] of its points. *)
Theorem merge_then_decimate (geometries : list MeshGeometry) (N fuel : nat) :
  allWhole geometries ->
  1 <= N ->
  totalCount geometries <= fuel ->
  exists out,
    decimateForPointsPos fuel (asGeometry (mergeBufferGeometries geometries)) N
    = Some (Some {| position := Some out; normal := None |}) /\
    count out = ceilDiv (totalCount geometries) N.
Proof.
  intros Hw HN Hfuel.
  destruct (merged_position geometries) as (pos & Hp & Hi & Hl).
  assert (Hc : count pos = totalCount geometries).
  { unfold count. rewrite Hi, Hl, (Nat.mul_comm 3), Nat.div_mul by discriminate.
    reflexivity. }
  unfold decimateForPointsPos, asGeometry. cbn [position]. rewrite Hp, Hc.
  rewrite GeometryFacts.decimateLoopPos_spec by lia.
  rewrite Nat.sub_0_r. cbn [app]. eexists. split; [reflexivity|].
  apply count_of_triples.
  rewrite GeometryFacts.flat_map_triples_length, GeometryFacts.picks_length. reflexivity.
Qed.

Lemma merge_then_decimate_witness :
  let gs := [sampleMesh [1; 2; 3; 4; 5; 6]%float true; sampleMesh [7; 8; 9]%float false] in
  allWhole gs /\
  exists out,
    decimateForPointsPos 3 (asGeometry (mergeBufferGeometries gs)) 2
    = Some (Some {| position := Some out; normal := None |}) /\
    count out = 2.
Proof.
  intros gs.
  assert (Hw : allWhole gs).
  { unfold gs, allWhole.
    apply Forall_cons;
      [apply (@sampleMesh_whole [1; 2; 3; 4; 5; 6]%float true 2); reflexivity|].
    apply Forall_cons; [apply (@sampleMesh_whole [7; 8; 9]%float false 1); reflexivity|].
    apply Forall_nil. }
  split; [exact Hw|].
  apply (@merge_then_decimate gs 2 3 Hw); [lia | vm_compute; lia].
Defined.

Example merge_misaligned :
  let g := mergeBufferGeometries [sampleMesh [1; 2; 3]%float false;
                                  sampleMesh [4; 5; 6]%float true] in
  option_map array (m_position g) = Some [1; 2; 3; 4; 5; 6]%float /\
  option_map array (m_normal g) = Some [4; 5; 6]%float.
Proof. split; reflexivity. Qed.

End MergeFacts.

(* ================================================================= *)
(** * More on decimation *)

Module DecimateMore.

Import Geometry GeometryFacts.
Local Open Scope list_scope.
Local Open Scope nat_scope.

(** X25. The worker-based [decimateForPoints] keeps the normals of the
    points it keeps: the result has as many normals as positions, normal
    [j] being the input's normal [j * N]; without a normal attribute in the
    input there is none in the result. *)
Theorem decimate_normals (geometry : BufferGeometry) (pos : BufferAttribute)
    (M N fuel : nat) :
  position geometry = Some pos ->
  itemSize pos = 3 ->
  List.length (array pos) = 3 * M ->
  1 <= N ->
  M <= fuel ->
  (forall norm, normal geometry = Some norm -> itemSize norm = 3 ->
     exists out outNorm,
       decimateForPoints fuel geometry N
       = Some (Some {| position := Some out; normal := Some outNorm |}) /\
       count outNorm = count out /\
       forall j, j < ceilDiv M N -> triple outNorm j = triple norm (j * N)) /\
  (normal geometry = None ->
   exists out,
     decimateForPoints fuel geometry N
     = Some (Some {| position := Some out; normal := None |})).
Proof.
  intros Hpos Hitem Hlen HN Hfuel.
  pose proof (@count_triples pos M Hitem Hlen) as Hcount.
  unfold decimateForPoints. rewrite Hpos, Hcount.
  rewrite decimateLoop_spec by lia. rewrite Nat.sub_0_r.
  set (l := picks 0 N (ceilDiv M N)).
  split.
  - intros norm Hnorm Hin. rewrite Hnorm. cbn [app option_map].
    eexists _, _. split; [reflexivity|]. split.
    + unfold count. cbn [array itemSize Float32BufferAttribute].
      now rewrite !flat_map_triples_length.
    + intros j Hj.
      rewrite triple_decimated by (unfold l; now rewrite picks_length).
      unfold l. now rewrite picks_nth.
  - intros Hnorm. rewrite Hnorm. cbn [app option_map]. eexists. reflexivity.
Qed.

Lemma decimate_normals_witness :
  exists out outNorm,
    decimateForPoints 5 sampleGeometry 2
    = Some (Some {| position := Some out; normal := Some outNorm |}) /\
    count outNorm = count out /\
    triple outNorm 1 = (1, 0, 0)%float.
Proof.
  destruct (@decimate_normals sampleGeometry
              {| array := [0; 1; 2; 10; 11; 12; 20; 21; 22; 30; 31; 32; 40; 41; 42]%float;
                 itemSize := 3 |} 5 2 5 eq_refl eq_refl eq_refl) as [H _]; [lia | lia |].
  destruct (H {| array := [0; 0; 1; 0; 1; 0; 1; 0; 0; 0; 0; 1; 0; 1; 0]%float;
                 itemSize := 3 |} eq_refl eq_refl) as (out & outNorm & E & Hc & Hj).
  exists out, outNorm. split; [exact E|]. split; [exact Hc|].
  rewrite (Hj 1) by (vm_compute; lia). reflexivity.
Defined.

Lemma picks_unit n i : picks i 1 n = seq i n.
Proof.
  revert i. induction n as [|n IH]; intros i; [reflexivity|].
  cbn [picks seq]. now rewrite IH, Nat.add_1_r.
Qed.

Lemma ceilDiv_one m : ceilDiv m 1 = m.
Proof. unfold ceilDiv. rewrite Nat.div_1_r. lia. Qed.

Lemma triples_of_all (pos : BufferAttribute) (M : nat) :
  itemSize pos = 3 -> List.length (array pos) = 3 * M ->
  flat_map (tripleList pos) (seq 0 M) = array pos.
Proof.
  intros Hitem Hlen. apply (nth_ext _ _ nan nan).
  - now rewrite flat_map_triples_length, length_seq.
  - intros q Hq. rewrite flat_map_triples_length, length_seq in Hq.
    pose proof (Nat.div_mod_eq q 3) as Eq.
    pose proof (Nat.mod_upper_bound q 3 ltac:(discriminate)) as Hk.
    set (j := q / 3) in *. set (k := q mod 3) in *.
    replace q with (j * 3 + k) by lia.
    assert (Hj : j < M) by lia.
    rewrite flat_map_triples_nth by (rewrite ?length_seq; lia).
    rewrite seq_nth by lia. unfold tripleList, getX, getY, getZ. rewrite Hitem.
    cbn [Nat.add].
    destruct k as [|[|[|k]]]; try lia; cbn [nth]; f_equal; lia.
Qed.

(** X26. With a step of 1 decimation is a copy: the result holds the
    positions of the input, all of them and in order. *)
Theorem decimate_step_one (geometry : BufferGeometry) (pos : BufferAttribute)
    (M fuel : nat) :
  position geometry = Some pos ->
  itemSize pos = 3 ->
  List.length (array pos) = 3 * M ->
  M <= fuel ->
  decimateForPointsPos fuel geometry 1
  = Some (Some {| position := Some {| array := array pos; itemSize := 3 |};
                  normal := None |}) /\
  exists outNorm,
    decimateForPoints fuel geometry 1
    = Some (Some {| position := Some {| array := array pos; itemSize := 3 |};
                    normal := outNorm |}).
Proof.
  intros Hpos Hitem Hlen Hfuel.
  pose proof (@count_triples pos M Hitem Hlen) as Hcount.
  unfold decimateForPointsPos, decimateForPoints. rewrite Hpos, Hcount.
  rewrite decimateLoopPos_spec, decimateLoop_spec by lia.
  rewrite Nat.sub_0_r, ceilDiv_one, picks_unit, (@triples_of_all pos M Hitem Hlen).
  cbn [app]. split; [reflexivity|]. eexists. reflexivity.
Qed.

Lemma decimate_step_one_witness :
  decimateForPointsPos 5 sampleGeometry 1
  = Some (Some {| position :=
                    Some {| array := [0; 1; 2; 10; 11; 12; 20; 21; 22; 30; 31; 32; 40; 41; 42]%float;
                            itemSize := 3 |};
                  normal := None |}).
Proof.
  apply (proj1 (@decimate_step_one sampleGeometry
           {| array := [0; 1; 2; 10; 11; 12; 20; 21; 22; 30; 31; 32; 40; 41; 42]%float;
              itemSize := 3 |} 5 5 eq_refl eq_refl eq_refl (le_n 5))).
Defined.

End DecimateMore.

(* ================================================================= *)
(** * The reinforce line *)

Module ReinforceFacts.

Import Reinforce.
Local Open Scope list_scope.
Local Open Scope nat_scope.

Lemma only_length i n : List.length (only i n) = n.
Proof. unfold only. now rewrite length_map, length_seq. Qed.

Lemma only_nth i n k : k < n -> nth k (only i n) false = (k =? i).
Proof.
  intros H. unfold only.
  now rewrite (@CurveFacts.nth_map_seq bool (fun j => j =? i) n k false H).
Qed.

Lemma setClass_length b i l : List.length (setClass b i l) = List.length l.
Proof.
  revert i. induction l as [|p l IH]; intros i; [now destruct i|].
  destruct i; cbn [setClass List.length]; [reflexivity | now rewrite IH].
Qed.

Lemma setClass_nth b i l k :
  k < List.length l ->
  nth k (setClass b i l) false = if k =? i then b else nth k l false.
Proof.
  revert i k. induction l as [|p l IH]; intros i k Hk; [cbn in Hk; lia|].
  destruct i as [|i], k as [|k]; cbn [setClass nth Nat.eqb]; try reflexivity.
  apply IH. cbn in Hk. lia.
Qed.

Lemma swap_class i j n :
  j < n -> setClass true j (setClass false i (only i n)) = only j n.
Proof.
  intros Hj. apply (nth_ext _ _ false false).
  - now rewrite !setClass_length, !only_length.
  - intros k Hk. rewrite !setClass_length, only_length in Hk.
    rewrite setClass_nth by (now rewrite setClass_length, only_length).
    rewrite setClass_nth by (now rewrite only_length).
    rewrite !only_nth by assumption.
    destruct (k =? j) eqn:E1; [reflexivity|]. now destruct (k =? i).
Qed.

Lemma count_none i a n :
  i < a \/ a + n <= i ->
  List.length (filter (fun b => b) (map (fun j => j =? i) (seq a n))) = 0.
Proof.
  revert a. induction n as [|n IH]; intros a H; [reflexivity|].
  cbn [seq map filter]. destruct (Nat.eqb_spec a i) as [->|Hne]; [lia|].
  apply IH. lia.
Qed.

Lemma count_only i a n :
  a <= i < a + n ->
  List.length (filter (fun b => b) (map (fun j => j =? i) (seq a n))) = 1.
Proof.
  revert a. induction n as [|n IH]; intros a H; [lia|].
  cbn [seq map filter]. destruct (Nat.eqb_spec a i) as [->|Hne].
  - cbn [List.length]. rewrite count_none by lia. reflexivity.
  - apply IH. lia.
Qed.

Lemma tick_keeps n s :
  0 < n -> index s < n -> visible s = only (index s) n ->
  index (tick s) = (index s + 1) mod n /\
  index (tick s) < n /\
  visible (tick s) = only (index (tick s)) n.
Proof.
  intros Hn Hi Hv. unfold tick, animateTo. cbn [index visible].
  rewrite Hv, only_length.
  assert (Hlt : (index s + 1) mod n < n) by (apply Nat.mod_upper_bound; lia).
  repeat split; auto. now apply swap_class.
Qed.

Lemma ticks_succ k s : ticks (S k) s = tick (ticks k s).
Proof. revert s. induction k as [|k IH]; intros s; [reflexivity|]. cbn [ticks] in *. now rewrite IH. Qed.

(** X27. Without its container or without phrases the reinforce line does
    nothing; otherwise, after any number of ticks of its timer, the phrase
    shown is the one numbered by the ticks modulo the number of phrases,
    and it is the only phrase that carries the visible class, also when
    there is a single phrase. *)
Theorem one_phrase_shown (container : bool) (phrases : list bool) (k : nat) :
  (container = false \/ phrases = [] -> init container phrases = None) /\
  (container = true -> phrases <> [] ->
   exists s0, init container phrases = Some s0 /\
     index (ticks k s0) = k mod List.length phrases /\
     visible (ticks k s0) = only (k mod List.length phrases) (List.length phrases) /\
     shown (ticks k s0) = 1).
Proof.
  split.
  - intros [-> | ->]; [reflexivity|]. unfold init. cbn. now rewrite orb_true_r.
  - intros -> Hne. unfold init. cbn [negb orb].
    destruct (Nat.eqb_spec (List.length phrases) 0) as [E|E].
    { destruct phrases; [contradiction | discriminate]. }
    set (n := List.length phrases) in *. assert (Hn : 0 < n) by lia.
    eexists. split; [reflexivity|].
    set (s0 := {| index := 0; visible := setVisible 0 phrases |}).
    assert (H : index (ticks k s0) = k mod n /\ index (ticks k s0) < n /\
                visible (ticks k s0) = only (index (ticks k s0)) n).
    { induction k as [|k IH].
      - cbn [ticks]. rewrite Nat.Div0.mod_0_l. repeat split; auto.
      - rewrite ticks_succ. destruct IH as (I1 & I2 & I3).
        destruct (tick_keeps (ticks k s0) Hn I2 I3) as (T1 & T2 & T3).
        split; [|split; assumption].
        rewrite T1, I1, Nat.Div0.add_mod_idemp_l. f_equal. lia. }
    destruct H as (H1 & H2 & H3). rewrite H1 in *.
    split; [reflexivity|]. split; [exact H3|].
    unfold shown. rewrite H3. unfold only. apply count_only. lia.
Qed.

Lemma one_phrase_shown_witness :
  exists s0, init true [false; false; false] = Some s0 /\
    index (ticks 4 s0) = 1 /\ visible (ticks 4 s0) = [false; true; false].
Proof.
  destruct (one_phrase_shown true [false; false; false] 4) as [_ H].
  destruct (H eq_refl ltac:(discriminate)) as (s0 & E & H1 & H2 & _).
  exists s0. split; [exact E|]. split; [exact H1 | exact H2].
Defined.

End ReinforceFacts.
